(** * Lab_7/analyzer.py: leader detection, basic blocks, control-flow graph,
      cyclomatic complexity and reaching definitions.

    The development embeds the functions of [src/Lab_7/analyzer.py] one by
    one, keeping their names, and then states the properties of the
    analyzer over these definitions.

    Conventions of the embedding:
    - a Python [str] is a [string]; the lines are ASCII text (C source), so
      [\s] and [\w] are the ASCII whitespace and word characters;
    - a Python [dict] is an association list in insertion order ([dict]),
      since the program iterates over its dictionaries and uses the position
      of the keys; a Python [set] is a [gset];
    - an operation that can raise ([d[k]], [l[i]], [l[-1]]) lives in the
      [result] monad; the exceptions are [KeyError] and [IndexError];
    - the [while] loop of the solver takes fuel: [None] means that the fuel
      ran out, [Some r] that the loop ended with [r];
    - opening the file is left out: [get_c_code_lines] takes the list that
      [f.readlines()] returns;
    - printing, the [history] list that is only appended to, and
      [visualize_cfg], which hands the finished graph to the external
      renderer, are left out: they are not part of what the functions
      return. *)

From stdpp Require Import gmap strings list pretty sorting.
From Stdlib Require Import Ascii ZArith Lia.


(** ** Exceptions *)

Inductive exn : Type := IndexError | KeyError.

Inductive result (A : Type) : Type :=
| Ok (a : A)
| Raise (e : exn).
Arguments Ok {A} a.
Arguments Raise {A} e.

Global Instance result_ret : MRet result := λ A a, Ok a.
Global Instance result_bind : MBind result := λ A B f m,
  match m with Ok a => f a | Raise e => Raise e end.

(** [for x in l: a = f(a, x)], where the body may raise. *)
Fixpoint foldM {A B : Type} (f : A → B → result A) (a : A) (l : list B)
  : result A :=
  match l with
  | [] => Ok a
  | x :: l' => a' ← f a x; foldM f a' l'
  end.

(** [enumerate(l)] *)
Definition enumerate {A : Type} (l : list A) : list (nat * A) :=
  imap (λ i x, (i, x)) l.

(** [l[i]] for a non-negative [i] *)
Definition list_index {A : Type} (l : list A) (i : nat) : result A :=
  match l !! i with Some x => Ok x | None => Raise IndexError end.

(** [l[-1]] *)
Definition list_last {A : Type} (l : list A) : result A :=
  match last l with Some x => Ok x | None => Raise IndexError end.

(** [l[a:b]] for non-negative [a], [b] *)
Definition slice {A : Type} (l : list A) (a b : nat) : list A :=
  take (b - a) (drop a l).

(** ** Python dictionaries: association lists in insertion order *)

Abbreviation dict V := (list (string * V)).

Fixpoint dict_get {V : Type} (d : dict V) (k : string) : result V :=
  match d with
  | [] => Raise KeyError
  | (k', v) :: d' => if decide (k = k') then Ok v else dict_get d' k
  end.

(** [d[k] = v]: the value is replaced in place when the key is there, and
    the pair is added at the end when it is not. *)
Fixpoint dict_set {V : Type} (d : dict V) (k : string) (v : V) : dict V :=
  match d with
  | [] => [(k, v)]
  | (k', v') :: d' =>
      if decide (k = k') then (k, v) :: d' else (k', v') :: dict_set d' k v
  end.

Definition dict_keys {V : Type} (d : dict V) : list string := d.*1.
Definition dict_values {V : Type} (d : dict V) : list V := d.*2.

(** [k in d] *)
Definition dict_mem {V : Type} (d : dict V) (k : string) : bool :=
  bool_decide (k ∈ dict_keys d).

(** [{k: v for k in keys}] *)
Definition dict_init {V : Type} (keys : list string) (v : V) : dict V :=
  foldl (λ d k, dict_set d k v) [] keys.

(** ** Python strings *)

Definition chars (s : string) : list ascii := String.list_ascii_of_string s.

(** [ord(c)] *)
Definition ord (c : ascii) : nat := nat_of_ascii c.

(** [c.isspace()] on ASCII, which is also [\s] *)
Definition is_space (c : ascii) : bool :=
  let n := ord c in
  ((9 <=? n) && (n <=? 13)) || ((28 <=? n) && (n <=? 32)).

(** [\w] on ASCII: letters, digits and the underscore *)
Definition is_word (c : ascii) : bool :=
  let n := ord c in
  ((48 <=? n) && (n <=? 57)) || ((65 <=? n) && (n <=? 90))
  || ((97 <=? n) && (n <=? 122)) || (n =? 95).

(** [s.startswith(p)] *)
Definition startswith (p s : string) : bool := String.prefix p s.

(** [sub in s] *)
Fixpoint str_in (sub s : string) : bool :=
  String.prefix sub s
  || match s with
     | EmptyString => false
     | String _ s' => str_in sub s'
     end.

Fixpoint lstrip (l : list ascii) : list ascii :=
  match l with
  | c :: l' => if is_space c then lstrip l' else l
  | [] => []
  end.

(** [s.strip()] *)
Definition strip (s : string) : string :=
  String.string_of_list_ascii (reverse (lstrip (reverse (lstrip (chars s))))).

(** ** Regular expressions

    The patterns of the program, matched the way Python's [re] matches
    them: leftmost alternative first, greedy repetition, backtracking into
    both. The continuation [k] gets the character before the position, the
    rest of the input and the groups captured so far. *)

Inductive regex : Type :=
| RChar (c : ascii)
| RClass (p : ascii → bool)
| RSeq (r1 r2 : regex)
| RAlt (r1 r2 : regex)
| RStar (r : regex)
| RGroup (n : nat) (r : regex)
| RBol
| RWordB
| REps.

Definition groups : Type := list (nat * list ascii).

Definition is_word_at (c : option ascii) : bool :=
  match c with Some a => is_word a | None => false end.

Fixpoint rmatch (r : regex) (prev : option ascii) (s : list ascii)
    (g : groups) (k : option ascii → list ascii → groups → option groups)
    {struct r} : option groups :=
  match r with
  | REps => k prev s g
  | RChar c =>
      match s with
      | a :: s' => if Ascii.eqb a c then k (Some a) s' g else None
      | [] => None
      end
  | RClass p =>
      match s with
      | a :: s' => if p a then k (Some a) s' g else None
      | [] => None
      end
  | RSeq r1 r2 => rmatch r1 prev s g (λ p' s' g', rmatch r2 p' s' g' k)
  | RAlt r1 r2 =>
      match rmatch r1 prev s g k with
      | Some x => Some x
      | None => rmatch r2 prev s g k
      end
  | RStar r' =>
      (fix star (n : nat) (prev : option ascii) (s : list ascii) (g : groups)
         : option groups :=
         match n with
         | 0 => k prev s g
         | S n' =>
             match rmatch r' prev s g
                     (λ p' s' g',
                        if length s' <? length s then star n' p' s' g'
                        else None) with
             | Some x => Some x
             | None => k prev s g
             end
         end) (length s) prev s g
  | RGroup n r' =>
      rmatch r' prev s g
        (λ p' s' g', k p' s' ((n, take (length s - length s') s) :: g'))
  | RBol => match prev with None => k prev s g | Some _ => None end
  | RWordB =>
      if xorb (is_word_at prev) (is_word_at (head s)) then k prev s g
      else None
  end.

Definition accept : option ascii → list ascii → groups → option groups :=
  λ _ _ g, Some g.

(** [re.match(r, s)] *)
Definition re_match (r : regex) (s : string) : option groups :=
  rmatch r None (chars s) [] accept.

Fixpoint search_from (r : regex) (prev : option ascii) (s : list ascii)
  : option groups :=
  match rmatch r prev s [] accept with
  | Some g => Some g
  | None =>
      match s with
      | [] => None
      | a :: s' => search_from r (Some a) s'
      end
  end.

(** [re.search(r, s)] *)
Definition re_search (r : regex) (s : string) : option groups :=
  search_from r None (chars s).

(** [m.group(n)] of a match *)
Definition group (n : nat) (g : groups) : string :=
  match list_find (λ p, p.1 = n) g with
  | Some (_, (_, cs)) => String.string_of_list_ascii cs
  | None => ""
  end.

Definition matches (m : option groups) : bool :=
  match m with Some _ => true | None => false end.

(** The text [s], character by character *)
Definition lit (s : string) : regex :=
  foldr (λ c r, RSeq (RChar c) r) REps (chars s).

Definition RPlus (r : regex) : regex := RSeq r (RStar r).
Definition rs : regex := RClass is_space.
Definition rw : regex := RClass is_word.

Declare Scope regex_scope.
Delimit Scope regex_scope with re.
Bind Scope regex_scope with regex.
Infix "·" := RSeq (at level 40, left associativity) : regex_scope.
Infix "|||" := RAlt (at level 50, left associativity) : regex_scope.

(** [r'^(if|while|for|switch)\s*\('] *)
Definition re_branch_open : regex :=
  (RBol · RGroup 1 (lit "if" ||| lit "while" ||| lit "for" ||| lit "switch")
   · RStar rs · RChar "(")%re.

(** [r'^(else|case|default)'] *)
Definition re_branch_target : regex :=
  (RBol · RGroup 1 (lit "else" ||| lit "case" ||| lit "default"))%re.

(** [r'goto\s+(\w+);'] *)
Definition re_goto : regex :=
  (lit "goto" · RPlus rs · RGroup 1 (RPlus rw) · RChar ";")%re.

(** [rf'^{label}:'] *)
Definition re_label (label : string) : regex :=
  (RBol · lit label · RChar ":")%re.

(** [r'^(if|while|for|switch|goto|return|break)\b'] *)
Definition re_jump : regex :=
  (RBol
   · RGroup 1 (lit "if" ||| lit "while" ||| lit "for" ||| lit "switch"
               ||| lit "goto" ||| lit "return" ||| lit "break")
   · RWordB)%re.

(** [r'^(if|while|for)\s*\('] *)
Definition re_cond : regex :=
  (RBol · RGroup 1 (lit "if" ||| lit "while" ||| lit "for")
   · RStar rs · RChar "(")%re.

(** The pattern of [find_definitions]: [^\s*], then group 1, which is
    [\w+] followed twice by the repeated subscript [(\[\w+\])*], then [\s*]
    and the operator group [(=|\+\+|--|\+=|-=)]. *)
Definition re_subscript (n : nat) : regex :=
  RStar (RGroup n (RChar "[" · RPlus rw · RChar "]"))%re.

Definition re_assign : regex :=
  (RBol · RStar rs
   · RGroup 1 (RPlus rw · re_subscript 2 · re_subscript 3)
   · RStar rs
   · RGroup 4 (lit "=" ||| lit "++" ||| lit "--" ||| lit "+=" ||| lit "-="))%re.

(** ** The loader *)


(** ** Leaders *)

(** The inner loop of the goto rule:
    [for j, target_line in enumerate(lines): if re.match(...): leaders.add(j)] *)
Definition goto_targets (lines : list string) (label : string)
    (leaders : gset nat) : gset nat :=
  foldl (λ ld '(j, target_line),
           if matches (re_match (re_label label) target_line)
           then ld ∪ {[j]} else ld)
        leaders (enumerate lines).

(** The body of the first loop of [find_leaders] *)
Definition leader_step (lines : list string) (leaders : gset nat)
    (il : nat * string) : result (gset nat) :=
  let '(i, line) := il in
  let leaders :=
    if matches (re_match re_branch_open line)
       || matches (re_match re_branch_target line)
    then leaders ∪ {[i]} else leaders in
  let leaders :=
    match re_search re_goto line with
    | Some m => goto_targets lines (group 1 m) leaders
    | None => leaders
    end in
  if matches (re_match re_jump line) || (startswith "}" line && (0 <? i))
  then
    if i + 1 <? length lines then
      next ← list_index lines (i + 1);
      if negb (startswith "}" next) then Ok (leaders ∪ {[i + 1]})
      else Ok leaders
    else Ok leaders
  else Ok leaders.

(** The body of the second loop of [find_leaders] *)
Definition else_step (lines : list string) (leaders : gset nat)
    (il : nat * string) : gset nat :=
  let '(i, line) := il in
  if bool_decide (strip line = "} else {") then
    if i + 1 <? length lines then leaders ∪ {[i + 1]} else leaders
  else leaders.

(** [sorted(list(s))] for a set of integers *)
Definition sorted_nats (s : gset nat) : list nat :=
  merge_sort Nat.le (elements s).

Definition find_leaders (lines : list string) : result (list nat) :=
  leaders ← foldM (leader_step lines) {[0]} (enumerate lines);
  let leaders := foldl (else_step lines) leaders (enumerate lines) in
  Ok (sorted_nats leaders).

(** ** Basic blocks *)

(** The value of a [blocks] entry:
    [{'code': ..., 'start_line': ..., 'end_line': ...}] *)
Record block_info : Type := BlockInfo {
  code : list string;
  start_line : Z;
  end_line : Z
}.

(** [f"B{i}"] *)
Definition block_name (i : nat) : string := "B" +:+ pretty i.

(** The body of the loop of [create_basic_blocks] *)
Definition block_step (lines : list string) (leaders : list nat)
    (blocks : dict block_info) (il : nat * nat) : result (dict block_info) :=
  let '(i, start_index) := il in
  end_index ← (if i + 1 <? length leaders
               then list_index leaders (i + 1)
               else Ok (length lines));
  let block_code := slice lines start_index end_index in
  Ok (dict_set blocks (block_name i)
        {| code := block_code;
           start_line := Z.of_nat start_index;
           end_line := Z.of_nat end_index - 1 |}).

Definition create_basic_blocks (lines : list string) (leaders : list nat)
  : result (dict block_info) :=
  foldM (block_step lines leaders) [] (enumerate leaders).

(** ** Control-flow graph *)

(** [cfg[k].append(v)] *)
Definition dict_append (cfg : dict (list string)) (k v : string)
  : result (dict (list string)) :=
  l ← dict_get cfg k; Ok (dict_set cfg k (l ++ [v])).

(** The [for j in range(i + 1, len(block_ids))] loop of the false branch:
    the id of the first block whose first line contains [else], which is
    where the loop breaks, or [None] when the loop runs to its [else:]. *)
Fixpoint else_search (blocks : dict block_info) (block_ids : list string)
    (js : list nat) : result (option string) :=
  match js with
  | [] => Ok None
  | j :: js' =>
      bj ← list_index block_ids j;
      b ← dict_get blocks bj;
      first ← list_index (code b) 0;
      if str_in "else" first then Ok (Some bj)
      else else_search blocks block_ids js'
  end.

(** [range(a, b)] *)
Definition range (a b : nat) : list nat := seq a (b - a).

(** [any(kw in s for kw in kws)] *)
Definition any_in (kws : list string) (s : string) : bool :=
  existsb (λ kw, str_in kw s) kws.

(** The body of the first loop of [build_cfg] *)
Definition cfg_step (blocks : dict block_info) (block_ids : list string)
    (cfg : dict (list string)) (ib : nat * string)
  : result (dict (list string)) :=
  let '(i, block_id) := ib in
  b ← dict_get blocks block_id;
  last_line_of_block ← list_last (code b);
  if matches (re_match re_cond last_line_of_block) then
    cfg ← (if i + 1 <? length block_ids
           then next ← list_index block_ids (i + 1);
                dict_append cfg block_id next
           else Ok cfg);
    found ← else_search blocks block_ids (range (i + 1) (length block_ids));
    match found with
    | Some bj => dict_append cfg block_id bj
    | None =>
        if i + 2 <? length block_ids
        then merge ← list_index block_ids (i + 2);
             dict_append cfg block_id merge
        else Ok cfg
    end
  else
    first ← list_index (code b) 0;
    if str_in "else" first || str_in "case" first then
      if i + 2 <? length block_ids
      then merge ← list_index block_ids (i + 2);
           dict_append cfg block_id merge
      else if i + 1 <? length block_ids
      then next ← list_index block_ids (i + 1);
           dict_append cfg block_id next
      else Ok cfg
    else
      if negb (any_in ["return"; "break"; "goto"] last_line_of_block) then
        if i + 1 <? length block_ids
        then next ← list_index block_ids (i + 1);
             dict_append cfg block_id next
        else Ok cfg
      else Ok cfg.

(** The order of Python on strings *)
Definition str_le (s1 s2 : string) : Prop := String.leb s1 s2 = true.

Global Instance str_le_dec : RelDecision str_le.
Proof. intros s1 s2. unfold str_le. apply _. Defined.

(** [sorted(list(set(l)))] *)
Definition sorted_set (l : list string) : list string :=
  merge_sort str_le (elements (list_to_set l : gset string)).

(** The body of the second loop of [build_cfg] *)
Definition cfg_clean (cfg : dict (list string)) (block_id : string)
  : result (dict (list string)) :=
  l ← dict_get cfg block_id; Ok (dict_set cfg block_id (sorted_set l)).

Definition build_cfg (blocks : dict block_info) : result (dict (list string)) :=
  let cfg := dict_init (dict_keys blocks) [] in
  let block_ids := dict_keys blocks in
  cfg ← foldM (cfg_step blocks block_ids) cfg (enumerate block_ids);
  foldM cfg_clean cfg (dict_keys cfg).

(** ** Metrics *)

Definition sum_Z (l : list Z) : Z := foldr Z.add 0%Z l.

Definition calculate_metrics (cfg : dict (list string)) : Z * Z * Z :=
  let num_nodes := Z.of_nat (length cfg) in
  let num_edges :=
    sum_Z ((λ edges, Z.of_nat (length edges)) <$> dict_values cfg) in
  let complexity := (num_edges - num_nodes + 2)%Z in
  (num_nodes, num_edges, complexity).

(** ** Definitions *)

(** The value of a [definitions] entry:
    [{'var': ..., 'block': ..., 'line': ...}] *)
Record def_info : Type := DefInfo {
  var : string;
  block : string;
  line : string
}.

(** [s.split('[')[0]] *)
Fixpoint before_bracket (s : string) : string :=
  match s with
  | EmptyString => EmptyString
  | String c s' =>
      if Ascii.eqb c "[" then EmptyString else String c (before_bracket s')
  end.

(** [f"d{n}"] *)
Definition def_name (n : nat) : string := "d" +:+ pretty n.

(** The state of the loops of [find_definitions]:
    [definitions], [def_count] and [var_to_defs]. *)
Definition def_state : Type :=
  dict def_info * nat * dict (gset string).

(** The body of the inner loop of [find_definitions] *)
Definition def_step (block_id : string) (st : def_state) (ln : string)
  : result def_state :=
  let '(definitions, def_count, var_to_defs) := st in
  match re_match re_assign ln with
  | Some m =>
      let var_name := before_bracket (group 1 m) in
      let def_id := def_name def_count in
      let definitions :=
        dict_set definitions def_id
          {| var := var_name; block := block_id; line := ln |} in
      let var_to_defs :=
        if negb (dict_mem var_to_defs var_name)
        then dict_set var_to_defs var_name ∅ else var_to_defs in
      s ← dict_get var_to_defs var_name;
      Ok (definitions, def_count + 1,
          dict_set var_to_defs var_name (s ∪ {[def_id]}))
  | None => Ok st
  end.

Definition find_definitions (blocks : dict block_info)
  : result (dict def_info * dict (gset string)) :=
  st ← foldM (λ st '(block_id, info), foldM (def_step block_id) st (code info))
         ([], 1, []) blocks;
  Ok (st.1.1, st.2).

(** ** Gen and kill sets *)

(** The inner loop of [compute_gen_kill], over the blocks *)
Definition kill_step (gen : dict (gset string)) (def_id : string)
    (other_defs : gset string) (kill : dict (gset string)) (b_id : string)
  : result (dict (gset string)) :=
  gb ← dict_get gen b_id;
  if bool_decide (def_id ∈ gb) then
    kb ← dict_get kill b_id;
    Ok (dict_set kill b_id (kb ∪ other_defs))
  else Ok kill.

(** The body of the loop of [compute_gen_kill], over the definitions *)
Definition gen_kill_step (blocks : dict block_info)
    (var_to_defs : dict (gset string))
    (gk : dict (gset string) * dict (gset string))
    (d : string * def_info)
  : result (dict (gset string) * dict (gset string)) :=
  let '(gen, kill) := gk in
  let '(def_id, info) := d in
  let block_id := block info in
  let v := var info in
  g ← dict_get gen block_id;
  let gen := dict_set gen block_id (g ∪ {[def_id]}) in
  vs ← dict_get var_to_defs v;
  let other_defs := vs ∖ {[def_id]} in
  kill ← foldM (kill_step gen def_id other_defs) kill (dict_keys blocks);
  Ok (gen, kill).

Definition compute_gen_kill (blocks : dict block_info)
    (definitions : dict def_info) (var_to_defs : dict (gset string))
  : result (dict (gset string) * dict (gset string)) :=
  let gen := dict_init (dict_keys blocks) (∅ : gset string) in
  let kill := dict_init (dict_keys blocks) (∅ : gset string) in
  foldM (gen_kill_step blocks var_to_defs) (gen, kill) definitions.

(** ** Reaching definitions *)

Definition get_predecessors (cfg : dict (list string))
  : result (dict (list string)) :=
  let predecessors := dict_init (dict_keys cfg) [] in
  foldM (λ predecessors '(node, edges),
           foldM (λ predecessors edge, dict_append predecessors edge node)
                 predecessors edges)
        predecessors cfg.

(** The state of a pass: [in_sets], [out_sets] and [changed]. *)
Definition rd_state : Type :=
  dict (gset string) * dict (gset string) * bool.

(** [new_in = set(); for p in predecessors[block_id]: new_in.update(out_sets[p])] *)
Definition union_out (out_sets : dict (gset string)) (ps : list string)
  : result (gset string) :=
  foldM (λ new_in p, o ← dict_get out_sets p; Ok (new_in ∪ o)) ∅ ps.

(** The body of the [for block_id in blocks] loop of the solver *)
Definition rd_step (predecessors : dict (list string))
    (gen kill : dict (gset string)) (st : rd_state) (block_id : string)
  : result rd_state :=
  let '(in_sets, out_sets, changed) := st in
  ps ← dict_get predecessors block_id;
  new_in ← union_out out_sets ps;
  let in_sets := dict_set in_sets block_id new_in in
  old_out ← dict_get out_sets block_id;
  g ← dict_get gen block_id;
  i ← dict_get in_sets block_id;
  k ← dict_get kill block_id;
  let new_out := g ∪ (i ∖ k) in
  let changed := if bool_decide (new_out ≠ old_out) then true else changed in
  Ok (in_sets, dict_set out_sets block_id new_out, changed).

(** One turn of the [while changed] loop: [changed = False], then the pass
    over the blocks. *)
Definition rd_pass (blocks : dict block_info) (predecessors : dict (list string))
    (gen kill : dict (gset string))
    (in_sets out_sets : dict (gset string)) : result rd_state :=
  foldM (rd_step predecessors gen kill) (in_sets, out_sets, false)
        (dict_keys blocks).

(** The [while changed] loop, with fuel. *)
Fixpoint rd_loop (fuel : nat) (blocks : dict block_info)
    (predecessors : dict (list string)) (gen kill : dict (gset string))
    (in_sets out_sets : dict (gset string))
  : option (result (dict (gset string) * dict (gset string))) :=
  match fuel with
  | 0 => None
  | S fuel' =>
      match rd_pass blocks predecessors gen kill in_sets out_sets with
      | Raise e => Some (Raise e)
      | Ok (in_sets', out_sets', changed) =>
          if changed
          then rd_loop fuel' blocks predecessors gen kill in_sets' out_sets'
          else Some (Ok (in_sets', out_sets'))
      end
  end.

Definition reaching_definitions_analysis (fuel : nat)
    (blocks : dict block_info) (cfg : dict (list string))
    (gen kill : dict (gset string))
  : option (result (dict (gset string) * dict (gset string))) :=
  let in_sets := dict_init (dict_keys blocks) (∅ : gset string) in
  let out_sets := dict_init (dict_keys blocks) (∅ : gset string) in
  match get_predecessors cfg with
  | Raise e => Some (Raise e)
  | Ok predecessors =>
      rd_loop fuel blocks predecessors gen kill in_sets out_sets
  end.

(** ** The run of [main], without its printing *)

Record analysis : Type := Analysis {
  a_blocks : dict block_info;
  a_cfg : dict (list string);
  a_metrics : Z * Z * Z;
  a_definitions : dict def_info;
  a_gen : dict (gset string);
  a_kill : dict (gset string);
  a_in : dict (gset string);
  a_out : dict (gset string)
}.

Definition main (fuel : nat) (lines : list string) : option (result analysis) :=
  match
    (leaders ← find_leaders lines;
     blocks ← create_basic_blocks lines leaders;
     cfg ← build_cfg blocks;
     dv ← find_definitions blocks;
     gk ← compute_gen_kill blocks dv.1 dv.2;
     Ok (blocks, cfg, dv.1, gk))
  with
  | Raise e => Some (Raise e)
  | Ok (blocks, cfg, definitions, (gen, kill)) =>
      match reaching_definitions_analysis fuel blocks cfg gen kill with
      | None => None
      | Some (Raise e) => Some (Raise e)
      | Some (Ok (in_sets, out_sets)) =>
          Some (Ok {| a_blocks := blocks; a_cfg := cfg;
                      a_metrics := calculate_metrics cfg;
                      a_definitions := definitions;
                      a_gen := gen; a_kill := kill;
                      a_in := in_sets; a_out := out_sets |})
      end
  end.

(** * Definitions used to state the properties *)

(** What the loops of [find_leaders] keep true of the set [leaders]: line 0
    is in it, and every other element is the index of a line. *)
Definition leaders_inv (lines : list string) (leaders : gset nat) : Prop :=
  0 ∈ leaders ∧ ∀ x, x ∈ leaders → x = 0 ∨ x < length lines.

(** The spans [(start, end)] of the blocks: each leader with the next one,
    and the last leader with the number of lines. *)
Fixpoint spans (n : nat) (leaders : list nat) : list (nat * nat) :=
  match leaders with
  | [] => []
  | a :: rest =>
      (a, match rest with [] => n | b :: _ => b end) :: spans n rest
  end.

Definition block_of (lines : list string) (se : nat * nat) : block_info :=
  {| code := slice lines se.1 se.2;
     start_line := Z.of_nat se.1;
     end_line := Z.of_nat se.2 - 1 |}.

Definition named_blocks (lines : list string) (from : nat)
    (l : list (nat * nat)) : dict block_info :=
  imap (λ k se, (block_name (from + k), block_of lines se)) l.

Definition if_else_scenario : list string :=
  ["if (x > 0)"; "y = 1;"; "else {"; "y = 2;"; "}"].

(** [for x in l: ys.append(f(x))], where [f] may raise. *)
Fixpoint mapM_r {A B : Type} (f : A → result B) (l : list A) : result (list B) :=
  match l with
  | [] => Ok []
  | x :: l' => y ← f x; ys ← mapM_r f l'; Ok (y :: ys)
  end.

Definition opt_list {A : Type} (o : option A) : list A :=
  match o with Some x => [x] | None => [] end.

(** The edges that [cfg_step] appends to [cfg[block_id]] for block [i]. *)
Definition block_edges (blocks : dict block_info) (block_ids : list string)
    (ib : nat * string) : result (list string) :=
  let '(i, block_id) := ib in
  b ← dict_get blocks block_id;
  last_line_of_block ← list_last (code b);
  if matches (re_match re_cond last_line_of_block) then
    found ← else_search blocks block_ids (range (i + 1) (length block_ids));
    Ok (opt_list (block_ids !! (i + 1))
        ++ match found with
           | Some bj => [bj]
           | None => opt_list (block_ids !! (i + 2))
           end)
  else
    first ← list_index (code b) 0;
    if str_in "else" first || str_in "case" first then
      Ok (match block_ids !! (i + 2) with
          | Some merge => [merge]
          | None => opt_list (block_ids !! (i + 1))
          end)
    else if negb (any_in ["return"; "break"; "goto"] last_line_of_block)
    then Ok (opt_list (block_ids !! (i + 1)))
    else Ok [].

(** The first line of the block contains [kw]. *)
Definition first_line_has (kw : string) (b : block_info) : bool :=
  match code b with
  | first :: _ => str_in kw first
  | [] => false
  end.

(** The strict order of Python on strings *)
Definition str_lt (s1 s2 : string) : Prop := str_le s1 s2 ∧ s1 ≠ s2.

(** What the second loop of [build_cfg] does to an entry *)
Definition clean_entry (kl : string * list string) : string * list string :=
  (kl.1, sorted_set kl.2).

(** Two assignments to variables whose names contain [break] and start
    with [default]: sequential code with no keyword in it. *)
Definition keyword_names_scenario : list string :=
  ["breakfast = 1;"; "default_value = 2;"].

(** The line neither opens an [if], [while] or [for] nor contains
    [return], [break] or [goto]. *)
Definition plain_line (ln : string) : Prop :=
  matches (re_match re_cond ln) = false
  ∧ any_in ["return"; "break"; "goto"] ln = false.

(** What the loops of [find_definitions] keep true of their state: the
    definitions made so far are [d1], ..., [d<def_count - 1>]; the entry of a
    variable in [var_to_defs] holds the ids of the definitions of that
    variable; every variable and every block of a definition is known. *)
Definition def_inv (keys : list string) (st : def_state) : Prop :=
  let '(definitions, def_count, var_to_defs) := st in
  (1 ≤ def_count ∧ dict_keys definitions = def_name <$> seq 1 (def_count - 1))
  ∧ (∀ v s d, dict_get var_to_defs v = Ok s →
              d ∈ s ↔ ∃ info, (d, info) ∈ definitions ∧ var info = v)
  ∧ (∀ d info, (d, info) ∈ definitions →
               block info ∈ keys ∧ ∃ s, dict_get var_to_defs (var info) = Ok s).

(** What the loop of [compute_gen_kill] keeps true of [gen] and [kill],
    where [P] are the definitions seen so far: [gen[b]] holds the
    definitions of block [b], and [kill[b]] holds, for each definition [d']
    of [b], the ids in the entry of its variable other than [d'] itself. *)
Definition gk_inv (keys : list string) (var_to_defs : dict (gset string))
    (P : dict def_info) (gk : dict (gset string) * dict (gset string)) : Prop :=
  let '(gen, kill) := gk in
  dict_keys gen = keys ∧ dict_keys kill = keys
  ∧ (∀ b g d, dict_get gen b = Ok g →
              d ∈ g ↔ ∃ info, (d, info) ∈ P ∧ block info = b)
  ∧ (∀ b k d, dict_get kill b = Ok k →
              d ∈ k ↔ ∃ d' info' vs,
                        (d', info') ∈ P ∧ block info' = b
                        ∧ dict_get var_to_defs (var info') = Ok vs
                        ∧ d ∈ vs ∧ d ≠ d').

(** One block with two assignments to [x] *)
Definition redefinition_scenario : list string := ["x = 1;"; "x = 2;"].

(** A pass over block [b] changes neither the sets nor the flag. *)
Definition stable (predecessors : dict (list string))
    (gen kill : dict (gset string)) (in_sets out_sets : dict (gset string))
    (b : string) : Prop :=
  rd_step predecessors gen kill (in_sets, out_sets, false) b
  = Ok (in_sets, out_sets, false).

(** The set of a block in a dictionary of sets, empty when the block has no
    entry, and the same for a dictionary of lists. *)
Definition set_at (d : dict (gset string)) (b : string) : gset string :=
  match dict_get d b with Ok s => s | Raise _ => ∅ end.

Definition list_at (d : dict (list string)) (b : string) : list string :=
  match dict_get d b with Ok l => l | Raise _ => [] end.

(** The transfer function of the pass at block [b]:
    [gen[b] ∪ ((union of out[p] for p in pred[b]) - kill[b])]. *)
Definition transfer (predecessors : dict (list string))
    (gen kill out_sets : dict (gset string)) (b : string) : gset string :=
  set_at gen b ∪ (⋃ (set_at out_sets <$> list_at predecessors b) ∖ set_at kill b).

(** The order of the lattice: inclusion, block by block. *)
Definition out_le (outs outs' : dict (gset string)) : Prop :=
  ∀ b, set_at outs b ⊆ set_at outs' b.

(** Every out set is below what the transfer function makes of it. *)
Definition pre_fixpoint (predecessors : dict (list string))
    (gen kill outs : dict (gset string)) : Prop :=
  ∀ b, set_at outs b ⊆ transfer predecessors gen kill outs b.

(** The definition ids of the run: all that a [gen] set holds. *)
Definition universe (gen : dict (gset string)) : gset string :=
  ⋃ (dict_values gen).

Definition bounded (gen outs : dict (gset string)) : Prop :=
  ∀ b, set_at outs b ⊆ universe gen.

(** The size of the out sets of the blocks, added up. *)
Definition measure (keys : list string) (outs : dict (gset string)) : nat :=
  sum_list ((λ b, size (set_at outs b)) <$> keys).

(** * Definitions used to state further properties *)

(** The rules of the leader detector, as a property of a line index [x]:
    line 0; a line that opens a branch or is a branch target; a line that
    starts with the label of some [goto]; the line after a jump or after a
    closing brace that is not the first line, unless it starts with a
    closing brace itself; the line after a ["} else {"] line. *)
Definition leader_rule (lines : list string) (x : nat) : Prop :=
  x = 0
  ∨ (∃ ln, lines !! x = Some ln
           ∧ (matches (re_match re_branch_open ln) = true
              ∨ matches (re_match re_branch_target ln) = true))
  ∨ (∃ i ln m t, lines !! i = Some ln ∧ re_search re_goto ln = Some m
                 ∧ lines !! x = Some t
                 ∧ startswith (group 1 m +:+ ":") t = true)
  ∨ (∃ i ln nx, x = i + 1 ∧ lines !! i = Some ln
                ∧ (matches (re_match re_jump ln) = true
                   ∨ (startswith "}" ln = true ∧ 0 < i))
                ∧ lines !! x = Some nx ∧ startswith "}" nx = false)
  ∨ (∃ i ln, x = i + 1 ∧ lines !! i = Some ln ∧ strip ln = "} else {"
             ∧ x < length lines).

(** The blocks of the if/else scenario *)
Definition if_else_blocks : dict block_info :=
  [("B0", {| code := ["if (x > 0)"]; start_line := 0; end_line := 0 |});
   ("B1", {| code := ["y = 1;"]; start_line := 1; end_line := 1 |});
   ("B2", {| code := ["else {"; "y = 2;"; "}"]; start_line := 2;
             end_line := 4 |})].



(** What the loops of [get_predecessors] keep true of [predecessors],
    where [P] are the entries of the graph seen so far and [extra] tells
    the edges of the entry at hand: every node has its list, and the list
    of [b] holds the nodes with an edge to [b]. *)
Definition preds_inv (keys : list string) (P : dict (list string))
    (extra : string → string → Prop) (predecessors : dict (list string))
  : Prop :=
  dict_keys predecessors = keys
  ∧ ∀ b ps p, dict_get predecessors b = Ok ps →
              p ∈ ps ↔ (∃ edges, (p, edges) ∈ P ∧ b ∈ edges) ∨ extra p b.


(** * Properties *)

Arguments leader_step : simpl never.
Arguments block_step : simpl never.
Arguments else_step : simpl never.
Arguments cfg_step : simpl never.
Arguments cfg_clean : simpl never.
Arguments def_step : simpl never.
Arguments gen_kill_step : simpl never.
Arguments kill_step : simpl never.
Arguments rd_step : simpl never.
Arguments dict_append : simpl never.

(** ** The monad and the loops *)

Lemma bind_Ok {A B : Type} (m : result A) (f : A → result B) (b : B) :
  m ≫= f = Ok b ↔ ∃ a, m = Ok a ∧ f a = Ok b.
Proof.
  destruct m as [a|e]; simpl.
  - split; [eauto | intros (a' & [= <-] & H); done].
  - split; [done | intros (a' & [=] & _)].
Qed.

Lemma foldM_app {A B : Type} (f : A → B → result A) (a : A) (l1 l2 : list B) :
  foldM f a (l1 ++ l2) = foldM f a l1 ≫= λ a', foldM f a' l2.
Proof.
  revert a. induction l1 as [|x l1 IH]; intros a; simpl; [done|].
  destruct (f a x) as [a'|e]; simpl; [apply IH | done].
Qed.

Lemma enumerate_lookup {A : Type} (l : list A) (i j : nat) (x : A) :
  enumerate l !! i = Some (j, x) ↔ j = i ∧ l !! i = Some x.
Proof.
  unfold enumerate. rewrite list_lookup_imap.
  destruct (l !! i) as [y|]; simpl; naive_solver.
Qed.

Lemma elem_of_enumerate {A : Type} (l : list A) (j : nat) (x : A) :
  (j, x) ∈ enumerate l ↔ l !! j = Some x.
Proof.
  rewrite list_elem_of_lookup. split.
  - intros (i & Hi). apply enumerate_lookup in Hi. naive_solver.
  - intros H. exists j. by apply enumerate_lookup.
Qed.

Lemma length_enumerate {A : Type} (l : list A) :
  length (enumerate l) = length l.
Proof. unfold enumerate. by rewrite length_imap. Qed.

Lemma list_index_Ok {A : Type} (l : list A) (i : nat) (x : A) :
  list_index l i = Ok x ↔ l !! i = Some x.
Proof. unfold list_index. destruct (l !! i); naive_solver. Qed.

Lemma list_index_lt {A : Type} (l : list A) (i : nat) :
  i < length l → ∃ x, list_index l i = Ok x ∧ l !! i = Some x.
Proof.
  intros [x Hx]%lookup_lt_is_Some_2. exists x. by rewrite list_index_Ok.
Qed.

(** ** Dictionaries *)

Section dict.
Context {V : Type}.
Implicit Types (d : dict V) (k : string) (v : V).

Lemma dict_get_set_eq d k v : dict_get (dict_set d k v) k = Ok v.
Proof.
  induction d as [|[k' v'] d IH]; simpl; repeat case_decide; simpl;
    repeat case_decide; done.
Qed.

Lemma dict_get_set_ne d k k' v :
  k ≠ k' → dict_get (dict_set d k v) k' = dict_get d k'.
Proof.
  intros Hne. induction d as [|[k0 v0] d IH]; simpl; repeat case_decide;
    simpl; repeat case_decide; congruence.
Qed.

Lemma dict_set_id d k v : dict_get d k = Ok v → dict_set d k v = d.
Proof.
  induction d as [|[k0 v0] d IH]; simpl; [done|].
  case_decide; [intros [= ->]; by subst | intros Hg; by rewrite IH].
Qed.

Lemma dict_get_Ok_elem d k v : dict_get d k = Ok v → (k, v) ∈ d.
Proof.
  induction d as [|[k0 v0] d IH]; simpl; [done|].
  case_decide; [intros [= ->]; subst; left | right; auto].
Qed.

Lemma dict_get_is_Ok d k : k ∈ dict_keys d ↔ ∃ v, dict_get d k = Ok v.
Proof.
  unfold dict_keys. induction d as [|[k0 v0] d IH]; simpl.
  - split; [by intros ?%elem_of_nil | by intros [? ?]].
  - case_decide; subst.
    + split; [eauto | intros _; left].
    + rewrite elem_of_cons, IH. naive_solver.
Qed.

Lemma dict_get_Raise d k e :
  dict_get d k = Raise e → e = KeyError ∧ k ∉ dict_keys d.
Proof.
  intros Hg. split.
  - induction d as [|[k0 v0] d IH]; simpl in Hg; [by injection Hg|].
    case_decide; [done | auto].
  - intros [v Hv]%dict_get_is_Ok. congruence.
Qed.

Lemma dict_keys_set d k v :
  k ∈ dict_keys d → dict_keys (dict_set d k v) = dict_keys d.
Proof.
  unfold dict_keys. induction d as [|[k0 v0] d IH]; simpl.
  - by intros ?%elem_of_nil.
  - case_decide; subst; simpl; [done|].
    intros [?|?]%elem_of_cons; [done|]. f_equal. by apply IH.
Qed.

Lemma dict_set_fresh d k v :
  k ∉ dict_keys d → dict_set d k v = d ++ [(k, v)].
Proof.
  unfold dict_keys. induction d as [|[k0 v0] d IH]; simpl; [done|].
  intros Hk. apply not_elem_of_cons in Hk as [? ?].
  case_decide; [done|]. by rewrite IH.
Qed.

Lemma dict_init_snoc (ks : list string) k v :
  dict_init (ks ++ [k]) v = dict_set (dict_init ks v) k v.
Proof. unfold dict_init. by rewrite foldl_snoc. Qed.

Lemma dict_keys_init_elem (ks : list string) k v :
  k ∈ dict_keys (dict_init ks v) ↔ k ∈ ks.
Proof.
  induction ks as [|k0 ks IH] using rev_ind.
  - done.
  - rewrite dict_init_snoc, elem_of_app, list_elem_of_singleton, <- IH.
    destruct (decide (k0 ∈ dict_keys (dict_init ks v))) as [Hin|Hout].
    + rewrite dict_keys_set by done. naive_solver.
    + rewrite dict_set_fresh by done. unfold dict_keys at 1.
      rewrite fmap_app, elem_of_app. simpl. rewrite list_elem_of_singleton.
      done.
Qed.

Lemma dict_init_NoDup (ks : list string) v :
  NoDup ks → dict_init ks v = (λ k, (k, v)) <$> ks.
Proof.
  induction ks as [|k0 ks IH] using rev_ind; [done|].
  intros [Hks [Hdisj _]]%NoDup_app. rewrite dict_init_snoc, IH by done.
  rewrite dict_set_fresh, fmap_app; [done|].
  rewrite <- IH by done. rewrite dict_keys_init_elem. intros Hin.
  apply (Hdisj _ Hin). left.
Qed.

Lemma dict_get_lookup d i k v :
  NoDup (dict_keys d) → d !! i = Some (k, v) → dict_get d k = Ok v.
Proof.
  unfold dict_keys. revert i. induction d as [|[k0 v0] d IH]; intros i; [done|].
  simpl. intros [Hk0 Hd]%NoDup_cons. destruct i as [|i]; simpl.
  - intros [= -> ->]. by case_decide.
  - intros Hi. case_decide; subst.
    + exfalso. apply Hk0. apply list_elem_of_fmap. exists (k0, v).
      split; [done|]. by eapply list_elem_of_lookup_2.
    + by eapply IH.
Qed.

End dict.

Lemma foldl_inv {A B : Type} (P : A → Prop) (f : A → B → A) (a : A) (l : list B) :
  P a → (∀ a x, x ∈ l → P a → P (f a x)) → P (foldl f a l).
Proof.
  revert a. induction l as [|x l IH]; intros a Ha Hf; simpl; [done|].
  apply IH; [apply Hf; [left | done] | intros; apply Hf; [by right | done]].
Qed.

(** ** Leaders *)

Lemma goto_targets_inv lines label leaders :
  leaders_inv lines leaders → leaders_inv lines (goto_targets lines label leaders).
Proof.
  intros Hinv. unfold goto_targets. apply foldl_inv; [done|].
  intros ld [j t] Hj%elem_of_enumerate [H0 Hlt].
  destruct (matches _); [|done]. split; [set_solver|].
  intros x [? | ->%elem_of_singleton]%elem_of_union; [auto|].
  right. by eapply lookup_lt_Some.
Qed.

Lemma leader_step_Ok lines leaders i ln :
  lines !! i = Some ln → leaders_inv lines leaders →
  ∃ leaders', leader_step lines leaders (i, ln) = Ok leaders'
              ∧ leaders_inv lines leaders'.
Proof.
  intros Hi Hinv. unfold leader_step.
  assert (Hlt : i < length lines) by by eapply lookup_lt_Some.
  set (ld1 := if _ || _ then leaders ∪ {[i]} else leaders).
  assert (H1 : leaders_inv lines ld1).
  { subst ld1. destruct (_ || _); [|done]. destruct Hinv as [H0 Hx].
    split; [set_solver|].
    intros x [? | ->%elem_of_singleton]%elem_of_union; auto. }
  set (ld2 := match re_search re_goto ln with
              | Some m => goto_targets lines (group 1 m) ld1
              | None => ld1 end).
  assert (H2 : leaders_inv lines ld2).
  { subst ld2. destruct (re_search re_goto ln); [|done].
    by apply goto_targets_inv. }
  clearbody ld2. clear H1 ld1.
  destruct (_ || _); [|eauto].
  destruct (i + 1 <? length lines) eqn:Hn; [|eauto].
  apply Nat.ltb_lt in Hn.
  destruct (list_index_lt lines (i + 1) Hn) as (nx & -> & _). simpl.
  destruct (negb _); [|eauto]. eexists; split; [done|].
  destruct H2 as [H0 Hx]. split; [set_solver|].
  intros x [? | ->%elem_of_singleton]%elem_of_union; auto.
Qed.

Lemma else_step_inv lines leaders i ln :
  leaders_inv lines leaders → leaders_inv lines (else_step lines leaders (i, ln)).
Proof.
  intros [H0 Hx]. unfold else_step. case_bool_decide; [|done].
  destruct (i + 1 <? length lines) eqn:Hn; [|done].
  apply Nat.ltb_lt in Hn. split; [set_solver|].
  intros x [? | ->%elem_of_singleton]%elem_of_union; auto.
Qed.

Lemma first_loop_Ok lines leaders (l : list (nat * string)) :
  (∀ i ln, (i, ln) ∈ l → lines !! i = Some ln) →
  leaders_inv lines leaders →
  ∃ leaders', foldM (leader_step lines) leaders l = Ok leaders'
              ∧ leaders_inv lines leaders'.
Proof.
  revert leaders. induction l as [|[i ln] l IH]; intros leaders Hl Hinv; simpl.
  - eauto.
  - destruct (leader_step_Ok lines leaders i ln) as (ld & -> & Hld);
      [apply Hl; left | done |]. simpl.
    apply IH; [|done]. intros. apply Hl. by right.
Qed.

(** The leader detector never raises, and the set it sorts satisfies
    [leaders_inv]. *)
Lemma find_leaders_Ok lines :
  ∃ leaders, find_leaders lines = Ok (sorted_nats leaders)
             ∧ leaders_inv lines leaders.
Proof.
  unfold find_leaders.
  destruct (first_loop_Ok lines {[0]} (enumerate lines)) as (ld & -> & Hld).
  - intros i ln. by rewrite elem_of_enumerate.
  - split; [set_solver|]. intros x ->%elem_of_singleton. by left.
  - simpl. eexists; split; [done|]. apply foldl_inv; [done|].
    intros a [i ln] _ Ha. by apply else_step_inv.
Qed.

Lemma sorted_nats_elem (s : gset nat) (x : nat) : x ∈ sorted_nats s ↔ x ∈ s.
Proof.
  unfold sorted_nats. rewrite merge_sort_Permutation. apply elem_of_elements.
Qed.

Lemma sorted_nats_lt (s : gset nat) : StronglySorted lt (sorted_nats s).
Proof.
  unfold sorted_nats.
  assert (Hs : StronglySorted Nat.le (merge_sort Nat.le (elements s))).
  { apply StronglySorted_merge_sort; apply _. }
  assert (Hn : NoDup (merge_sort Nat.le (elements s))).
  { rewrite merge_sort_Permutation. apply NoDup_elements. }
  induction Hs as [|x l Hl IH Hx]; [constructor|].
  apply NoDup_cons in Hn as [Hxl Hn]. constructor; [auto|].
  apply Forall_forall. intros y Hy.
  rewrite Forall_forall in Hx. specialize (Hx y Hy).
  assert (x ≠ y) by (intros ->; done). unfold Nat.le in Hx. lia.
Qed.

(** ** Basic blocks *)

Lemma block_name_inj (i j : nat) : block_name i = block_name j → i = j.
Proof.
  unfold block_name. intros H. injection H as H.
  change (pretty i = pretty j) in H. by apply (inj pretty) in H.
Qed.

Lemma spans_lookup n leaders k s e :
  spans n leaders !! k = Some (s, e)
  ↔ leaders !! k = Some s ∧ e = default n (leaders !! S k).
Proof.
  revert k. induction leaders as [|a rest IH]; intros k; simpl; [naive_solver|].
  destruct k as [|k]; simpl.
  - destruct rest; simpl; naive_solver.
  - apply IH.
Qed.

Lemma length_spans n leaders : length (spans n leaders) = length leaders.
Proof. induction leaders; simpl; auto. Qed.

Lemma create_basic_blocks_aux lines (full : list nat) :
  ∀ (Q P : list nat) (acc : dict block_info),
    full = P ++ Q →
    dict_keys acc = block_name <$> seq 0 (length P) →
    foldM (block_step lines full) acc (imap (λ i x, (length P + i, x)) Q)
    = Ok (acc ++ named_blocks lines (length P) (spans (length lines) Q)).
Proof.
  induction Q as [|x Q IH]; intros P acc Hfull Hkeys; simpl.
  - unfold named_blocks. simpl. by rewrite app_nil_r.
  - assert (Hstep : block_step lines full acc (length P + 0, x)
                    = Ok (acc ++ [(block_name (length P),
                                   block_of lines
                                     (x, match Q with
                                         | [] => length lines
                                         | b :: _ => b
                                         end))])).
    { unfold block_step. rewrite Nat.add_0_r.
      assert (Hend : (if length P + 1 <? length full
                      then list_index full (length P + 1)
                      else Ok (length lines))
                     = Ok (match Q with [] => length lines | b :: _ => b end)).
      { subst full. rewrite length_app. simpl. destruct Q as [|b Q]; simpl.
        - rewrite (proj2 (Nat.ltb_ge _ _)) by lia. done.
        - rewrite (proj2 (Nat.ltb_lt _ _)) by lia. apply list_index_Ok.
          rewrite lookup_app_r by lia.
          by replace (length P + 1 - length P) with 1 by lia. }
      rewrite Hend. simpl. rewrite dict_set_fresh; [done|].
      rewrite Hkeys. intros (j & Hj%block_name_inj & Hin)%list_elem_of_fmap.
      apply elem_of_seq in Hin. lia. }
    rewrite Hstep. simpl.
    rewrite (imap_ext _ (λ i y, (length (P ++ [x]) + i, y))).
    2:{ intros i y _. rewrite length_app. simpl. f_equal. lia. }
    rewrite (IH (P ++ [x])).
    + f_equal. rewrite <- app_assoc. f_equal. unfold named_blocks. simpl.
      rewrite Nat.add_0_r. f_equal. apply imap_ext. intros i se _. simpl.
      rewrite length_app. simpl. do 2 f_equal. lia.
    + by rewrite <- app_assoc.
    + unfold dict_keys in *. rewrite fmap_app, Hkeys, length_app. simpl.
      by rewrite seq_app, fmap_app.
Qed.

(** The block builder never raises: block [k] has the name [B<k>] and the
    [k]-th span. *)
Lemma create_basic_blocks_spans lines leaders :
  create_basic_blocks lines leaders
  = Ok (named_blocks lines 0 (spans (length lines) leaders)).
Proof.
  unfold create_basic_blocks, enumerate.
  by apply (create_basic_blocks_aux lines leaders leaders [] []).
Qed.

Lemma named_blocks_lookup lines l k id b :
  named_blocks lines 0 l !! k = Some (id, b)
  ↔ id = block_name k ∧ ∃ se, l !! k = Some se ∧ b = block_of lines se.
Proof.
  unfold named_blocks. rewrite list_lookup_imap.
  destruct (l !! k) as [se|]; simpl; naive_solver.
Qed.

Lemma named_blocks_keys lines l :
  dict_keys (named_blocks lines 0 l) = block_name <$> seq 0 (length l).
Proof.
  unfold dict_keys, named_blocks. apply list_eq. intros i.
  rewrite !list_lookup_fmap, list_lookup_imap.
  destruct (l !! i) as [se|] eqn:Hi; simpl.
  - rewrite lookup_seq_lt; [done | by eapply lookup_lt_Some].
  - apply lookup_ge_None in Hi. by rewrite lookup_seq_ge.
Qed.

Lemma named_blocks_NoDup lines l : NoDup (dict_keys (named_blocks lines 0 l)).
Proof.
  rewrite named_blocks_keys. apply NoDup_fmap_2; [|apply NoDup_seq].
  intros i j. apply block_name_inj.
Qed.

Lemma sorted_lookup_lt (l : list nat) (i j x y : nat) :
  StronglySorted lt l → i < j → l !! i = Some x → l !! j = Some y → x < y.
Proof.
  intros Hs. revert i j. induction Hs as [|a l Hl IH Ha]; intros i j Hij; [done|].
  destruct j as [|j]; [lia|]. destruct i as [|i]; simpl.
  - intros [= ->] Hy. rewrite Forall_forall in Ha. apply Ha.
    by eapply list_elem_of_lookup_2.
  - apply IH. lia.
Qed.

(** The slices of consecutive leaders, put together, are the lines from
    the first leader on. *)
Lemma spans_concat (lines : list string) (a : nat) (rest : list nat) :
  StronglySorted lt (a :: rest) →
  Forall (λ x, x ≤ length lines) (a :: rest) →
  concat ((λ se : nat * nat, slice lines se.1 se.2)
            <$> spans (length lines) (a :: rest))
  = drop a lines.
Proof.
  revert a. induction rest as [|b rest IH]; intros a Hs Hle.
  - simpl. rewrite app_nil_r. unfold slice. apply take_ge.
    rewrite length_drop. lia.
  - apply StronglySorted_inv in Hs as [Hs Ha].
    apply Forall_cons in Hle as [Hale Hle].
    apply Forall_cons in Ha as [Hab _].
    specialize (IH b Hs Hle).
    change (slice lines a b
            ++ concat ((λ se : nat * nat, slice lines se.1 se.2)
                         <$> spans (length lines) (b :: rest))
            = drop a lines).
    rewrite IH. unfold slice.
    replace (drop b lines) with (drop (b - a) (drop a lines)).
    + apply take_drop.
    + rewrite drop_drop. f_equal. lia.
Qed.

Lemma named_blocks_code lines from l :
  code <$> dict_values (named_blocks lines from l)
  = (λ se : nat * nat, slice lines se.1 se.2) <$> l.
Proof.
  unfold dict_values, named_blocks. apply list_eq. intros i.
  rewrite !list_lookup_fmap, list_lookup_imap. by destruct (l !! i).
Qed.

Lemma length_named_blocks lines from l :
  length (named_blocks lines from l) = length l.
Proof. unfold named_blocks. by rewrite length_imap. Qed.

(** The sorted leaders of a non-empty program: they start with 0, increase
    strictly and are indices of lines. *)
Lemma sorted_leaders_shape lines leaders :
  lines ≠ [] → leaders_inv lines leaders →
  ∃ rest, sorted_nats leaders = 0 :: rest
          ∧ StronglySorted lt (0 :: rest)
          ∧ Forall (λ x, x < length lines) (0 :: rest).
Proof.
  intros Hne [H0 Hx].
  assert (Hn : 0 < length lines) by (destruct lines; [done | simpl; lia]).
  pose proof (sorted_nats_lt leaders) as Hs.
  assert (Hall : Forall (λ x, x < length lines) (sorted_nats leaders)).
  { apply Forall_forall. intros x Hin%sorted_nats_elem.
    destruct (Hx x Hin); lia. }
  apply sorted_nats_elem in H0.
  destruct (sorted_nats leaders) as [|a rest]; [by apply elem_of_nil in H0|].
  assert (a = 0) as ->; [|eauto].
  apply elem_of_cons in H0 as [->|Hin]; [done|].
  apply StronglySorted_inv in Hs as [_ Ha]. rewrite Forall_forall in Ha.
  specialize (Ha 0 Hin). lia.
Qed.

(** C3: for every non-empty line sequence the leader set contains 0 and the
    blocks partition the line range: put together in order they are the
    lines (every line exactly once); block [k] is named [B<k>], is not
    empty and holds the lines from its start line to its end line; the
    first block starts at line 0, each next block starts right after the
    end of the block before it (so the blocks are contiguous, do not
    overlap and are in start-line order), and the last block ends at the
    last line. *)
Theorem blocks_partition_lines (lines : list string) :
  lines ≠ [] →
  ∃ leaders blocks,
    find_leaders lines = Ok leaders
    ∧ create_basic_blocks lines leaders = Ok blocks
    ∧ 0 ∈ leaders
    ∧ length blocks = length leaders
    ∧ concat (code <$> dict_values blocks) = lines
    ∧ (∀ k id b, blocks !! k = Some (id, b) →
         id = block_name k
         ∧ (0 ≤ start_line b ≤ end_line b)%Z
         ∧ (end_line b < Z.of_nat (length lines))%Z
         ∧ code b = slice lines (Z.to_nat (start_line b))
                      (Z.to_nat (end_line b) + 1))
    ∧ (∀ id b, blocks !! 0 = Some (id, b) → start_line b = 0%Z)
    ∧ (∀ k id b id' b',
         blocks !! k = Some (id, b) → blocks !! S k = Some (id', b') →
         start_line b' = (end_line b + 1)%Z)
    ∧ (∀ id b, last blocks = Some (id, b) →
         end_line b = (Z.of_nat (length lines) - 1)%Z).
Proof.
  intros Hne.
  destruct (find_leaders_Ok lines) as (S0 & Hfind & Hinv).
  destruct (sorted_leaders_shape lines S0 Hne Hinv) as (rest & HL & Hs & Hlt).
  exists (sorted_nats S0), (named_blocks lines 0 (spans (length lines) (sorted_nats S0))).
  rewrite create_basic_blocks_spans. rewrite HL in *.
  set (n := length lines) in *. set (L := 0 :: rest) in *.
  assert (Hspan : ∀ k s e, spans n L !! k = Some (s, e) → s < e ∧ e ≤ n).
  { intros k s e [Hk ->]%spans_lookup.
    destruct (L !! S k) as [e|] eqn:He; simpl.
    - split; [eapply (sorted_lookup_lt L k (S k)); eauto|].
      rewrite Forall_forall in Hlt.
      apply Nat.lt_le_incl, Hlt. by eapply list_elem_of_lookup_2.
    - split; [|done]. rewrite Forall_forall in Hlt. apply Hlt.
      by eapply list_elem_of_lookup_2. }
  split_and!; try done.
  - left.
  - by rewrite length_named_blocks, length_spans.
  - rewrite named_blocks_code. subst L. rewrite spans_concat; [done|done|].
    eapply Forall_impl; [exact Hlt|]. simpl. intros. lia.
  - intros k id b (-> & [s e] & Hse & ->)%named_blocks_lookup.
    destruct (Hspan _ _ _ Hse). simpl. split_and!; try lia; [done|].
    f_equal; lia.
  - intros id b (_ & [s e] & Hse & ->)%named_blocks_lookup.
    apply spans_lookup in Hse as [[= <-] _]. done.
  - intros k id b id' b' (_ & [s e] & Hse & ->)%named_blocks_lookup
      (_ & [s' e'] & Hse' & ->)%named_blocks_lookup. simpl.
    apply spans_lookup in Hse as [_ ->]. apply spans_lookup in Hse' as [-> _].
    simpl. lia.
  - intros id b. rewrite last_lookup, length_named_blocks, length_spans.
    intros (_ & [s e] & Hse & ->)%named_blocks_lookup. simpl.
    apply spans_lookup in Hse as [_ ->].
    rewrite (proj2 (lookup_ge_None L _)); [done|]. simpl. lia.
Qed.

Lemma blocks_partition_lines_witness :
  ∃ leaders blocks,
    find_leaders ["x = 1;"; "}"; "y = 2;"] = Ok leaders
    ∧ create_basic_blocks ["x = 1;"; "}"; "y = 2;"] leaders = Ok blocks
    ∧ 0 ∈ leaders.
Proof.
  destruct (blocks_partition_lines ["x = 1;"; "}"; "y = 2;"])
    as (leaders & blocks & H1 & H2 & H3 & _); [done|].
  exists leaders, blocks. auto.
Defined.

(** ** Labels and the goto rule *)

Lemma prefix_nil (s : string) : String.prefix "" s = true.
Proof. by destruct s. Qed.

(** The pattern of a label matches the lines that start with the label
    and a colon. *)
Lemma lit_colon_startswith (label ln : string) (prev : option ascii) :
  matches (rmatch (lit label) prev (chars ln) []
             (λ p s g, rmatch (RChar ":") p s g accept))
  = startswith (label +:+ ":") ln.
Proof.
  unfold startswith. revert ln prev.
  induction label as [|a label IH]; intros ln prev.
  - destruct ln as [|b ln]; [done|].
    change (matches (if Ascii.eqb b ":" then Some [] else None)
            = (if ascii_dec ":" b then String.prefix "" ln else false)).
    rewrite prefix_nil.
    destruct (Ascii.eqb_spec b ":") as [->|Hne]; destruct (ascii_dec _ _);
      done || congruence.
  - destruct ln as [|b ln]; [done|].
    change (lit (String a label)) with (RSeq (RChar a) (lit label)).
    change (chars (String b ln)) with (b :: chars ln). cbn [rmatch].
    change (String.prefix (String a label +:+ ":") (String b ln))
      with (if ascii_dec a b then String.prefix (label +:+ ":") ln else false).
    destruct (Ascii.eqb_spec b a) as [->|Hne].
    + destruct (ascii_dec a a); [|done]. apply IH.
    + destruct (ascii_dec a b); [by subst|done].
Qed.

Lemma re_label_startswith (label ln : string) :
  matches (re_match (re_label label) ln) = startswith (label +:+ ":") ln.
Proof. apply lit_colon_startswith. Qed.

Lemma goto_targets_unresolved (lines : list string) (label : string)
    (leaders : gset nat) :
  (∀ t, t ∈ lines → startswith (label +:+ ":") t = false) →
  goto_targets lines label leaders = leaders.
Proof.
  intros Hno. unfold goto_targets.
  apply (foldl_inv (λ ld, ld = leaders)); [done|].
  intros ld [j t] Hj%elem_of_enumerate ->.
  rewrite re_label_startswith, Hno; [done|]. by eapply list_elem_of_lookup_2.
Qed.

(** C9: when a line holds a [goto] whose label begins no line of the file,
    the leader detector returns (it raises nothing); the goto rule leaves
    the set of leaders as it is; and the step of the detector at that line
    adds no leader but the line itself and the line after it, which the
    other rules may add: no line becomes a leader on account of the
    label. *)
Theorem goto_undefined_label (lines : list string) (i : nat) (ln : string)
    (m : groups) :
  lines !! i = Some ln →
  re_search re_goto ln = Some m →
  (∀ t, t ∈ lines → startswith (group 1 m +:+ ":") t = false) →
  (∃ leaders, find_leaders lines = Ok leaders)
  ∧ (∀ leaders, goto_targets lines (group 1 m) leaders = leaders)
  ∧ ∀ leaders, ∃ leaders',
      leader_step lines leaders (i, ln) = Ok leaders'
      ∧ ∀ x, x ∈ leaders' → x ∈ leaders ∨ x = i ∨ x = i + 1.
Proof.
  intros Hi Hm Hno. split; [|split].
  - destruct (find_leaders_Ok lines) as (ld & H & _). eauto.
  - intros leaders. by apply goto_targets_unresolved.
  - intros leaders. unfold leader_step. rewrite Hm.
    rewrite goto_targets_unresolved by done.
    set (ld1 := if _ || _ then leaders ∪ {[i]} else leaders).
    assert (H1 : ∀ x, x ∈ ld1 → x ∈ leaders ∨ x = i ∨ x = i + 1).
    { subst ld1. destruct (_ || _); set_solver. }
    clearbody ld1.
    destruct (_ || _); [|eauto].
    destruct (i + 1 <? length lines) eqn:Hn; [|eauto].
    apply Nat.ltb_lt in Hn.
    destruct (list_index_lt lines (i + 1) Hn) as (nx & -> & _). simpl.
    destruct (negb _); [|eauto]. eexists; split; [done|]. set_solver.
Qed.

Lemma goto_undefined_label_witness :
  re_search re_goto "goto nowhere;" = Some [(1, chars "nowhere")]
  ∧ (∃ leaders, find_leaders ["goto nowhere;"; "x = 1;"] = Ok leaders)
  ∧ (∀ leaders,
       goto_targets ["goto nowhere;"; "x = 1;"] "nowhere" leaders = leaders)
  ∧ ∀ leaders, ∃ leaders',
      leader_step ["goto nowhere;"; "x = 1;"] leaders (0, "goto nowhere;")
      = Ok leaders'
      ∧ ∀ x, x ∈ leaders' → x ∈ leaders ∨ x = 0 ∨ x = 0 + 1.
Proof.
  split; [reflexivity|].
  apply (goto_undefined_label ["goto nowhere;"; "x = 1;"] 0 "goto nowhere;"
           [(1, chars "nowhere")]).
  - reflexivity.
  - reflexivity.
  - intros t Ht.
    repeat (apply elem_of_cons in Ht as [->|Ht]); [reflexivity..|].
    by apply elem_of_nil in Ht.
Defined.

(** ** The scenarios *)

(** C8, as amended: on the if/else scenario the leaders are the [if] line,
    the line after it and the [else] line, and no other: the closing brace
    is the last line, so there is no line after it to be a leader. The
    blocks are B0, B1 and B2, and the [if] block B0 has exactly the two
    edges to B1 (the body) and B2 (the else block). *)
Theorem if_else_scenario_cfg :
  find_leaders if_else_scenario = Ok [0; 1; 2]
  ∧ ∃ blocks cfg,
      create_basic_blocks if_else_scenario [0; 1; 2] = Ok blocks
      ∧ dict_keys blocks = ["B0"; "B1"; "B2"]
      ∧ code <$> dict_values blocks
        = [["if (x > 0)"]; ["y = 1;"]; ["else {"; "y = 2;"; "}"]]
      ∧ build_cfg blocks = Ok cfg
      ∧ dict_get cfg "B0" = Ok ["B1"; "B2"].
Proof.
  split; [by vm_compute|].
  eexists _, _. split; [by vm_compute|].
  split; [by vm_compute|]. split; [by vm_compute|].
  split; by vm_compute.
Qed.

(** C8, as stated, fails: there is no fourth leader. No line after the
    [else] line is a leader, and line 5, after the closing brace, is not
    even a line of the input. *)
Lemma if_else_scenario_leader_after_brace :
  ¬ ∃ leaders x, find_leaders if_else_scenario = Ok leaders
                 ∧ x ∈ leaders ∧ 2 < x.
Proof.
  intros (leaders & x & H & Hx & Hlt).
  assert (Hl : find_leaders if_else_scenario = Ok [0; 1; 2]) by by vm_compute.
  rewrite Hl in H. injection H as <-.
  repeat (apply elem_of_cons in Hx as [->|Hx]; [lia|]).
  by apply elem_of_nil in Hx.
Qed.

(** C2: the empty input has the leader set {0} and one block with no
    code, and on that block the CFG builder raises [IndexError] at
    [blocks[block_id]['code'][-1]]; so does the whole run. *)
Theorem empty_input_build_cfg_raises :
  find_leaders [] = Ok [0]
  ∧ create_basic_blocks [] [0]
    = Ok [("B0", {| code := []; start_line := 0; end_line := -1 |})]
  ∧ build_cfg [("B0", {| code := []; start_line := 0; end_line := -1 |})]
    = Raise IndexError
  ∧ ∀ fuel, main fuel [] = Some (Raise IndexError).
Proof.
  split; [by vm_compute|]. split; [by vm_compute|].
  split; [by vm_compute|]. intros fuel. by vm_compute.
Qed.

(** C10: the line [x == y;] is a comparison, and the definition finder
    records it as a definition of [x]: the pattern of an assignment takes
    the first [=] of [==] as its operator. *)
Theorem comparison_recorded_as_definition :
  (λ m, (group 1 m, group 4 m)) <$> re_match re_assign "x == y;"
  = Some ("x", "=")
  ∧ ∃ leaders blocks,
      find_leaders ["x == y;"] = Ok leaders
      ∧ create_basic_blocks ["x == y;"] leaders = Ok blocks
      ∧ find_definitions blocks
        = Ok ([("d1", {| var := "x"; block := "B0"; line := "x == y;" |})],
              [("x", {["d1"]})]).
Proof.
  split; [by vm_compute|].
  eexists _, _. split; [by vm_compute|]. split; by vm_compute.
Qed.

(** ** The control-flow graph *)

Section dict_more.
Context {V : Type}.
Implicit Types (d : dict V) (k : string) (v : V).

Lemma dict_set_set d k v v' : dict_set (dict_set d k v) k v' = dict_set d k v'.
Proof.
  induction d as [|[k0 v0] d IH]; simpl; repeat case_decide; simpl;
    repeat case_decide; try done. by rewrite IH.
Qed.

Lemma dict_get_app_r (d1 d2 : dict V) k :
  k ∉ dict_keys d1 → dict_get (d1 ++ d2) k = dict_get d2 k.
Proof.
  unfold dict_keys. induction d1 as [|[k0 v0] d1 IH]; simpl; [done|].
  intros [? ?]%not_elem_of_cons. case_decide; [done | auto].
Qed.

Lemma dict_set_app_r (d1 d2 : dict V) k v :
  k ∉ dict_keys d1 → dict_set (d1 ++ d2) k v = d1 ++ dict_set d2 k v.
Proof.
  unfold dict_keys. induction d1 as [|[k0 v0] d1 IH]; simpl; [done|].
  intros [? ?]%not_elem_of_cons. case_decide; [done|]. f_equal. auto.
Qed.
End dict_more.

Lemma mapM_r_Ok {A B : Type} (f : A → result B) (l : list A) (ys : list B) :
  mapM_r f l = Ok ys ↔ Forall2 (λ x y, f x = Ok y) l ys.
Proof.
  revert ys. induction l as [|x l IH]; intros ys; simpl.
  - split; [intros [= <-]; constructor | by intros ->%Forall2_nil_inv_l].
  - split.
    + intros (y & Hy & (ys' & Hys & [= <-])%bind_Ok)%bind_Ok.
      constructor; [done | by apply IH].
    + intros (y & ys' & Hy & Hys & ->)%Forall2_cons_inv_l.
      rewrite Hy. simpl. apply IH in Hys. by rewrite Hys.
Qed.

Lemma guard_index (ids : list string) (j : nat) {B : Type}
    (f : string → result B) (z : result B) :
  (if j <? length ids then x ← list_index ids j; f x else z)
  = match ids !! j with Some x => f x | None => z end.
Proof.
  destruct (j <? length ids) eqn:Hj.
  - apply Nat.ltb_lt in Hj. destruct (list_index_lt ids j Hj) as (x & -> & ->).
    done.
  - apply Nat.ltb_ge in Hj. by rewrite (proj2 (lookup_ge_None ids j)).
Qed.

(** [cfg_step] appends the edges of the block to its entry. *)
Lemma cfg_step_edges blocks ids cfg i id l :
  dict_get cfg id = Ok l →
  cfg_step blocks ids cfg (i, id)
  = es ← block_edges blocks ids (i, id); Ok (dict_set cfg id (l ++ es)).
Proof.
  intros Hl. unfold cfg_step, block_edges.
  assert (Hid : dict_set cfg id (l ++ []) = cfg).
  { rewrite app_nil_r. by apply dict_set_id. }
  assert (Happ : ∀ x, dict_append cfg id x = Ok (dict_set cfg id (l ++ [x]))).
  { intros x. unfold dict_append. by rewrite Hl. }
  assert (Happ2 : ∀ x y, dict_append (dict_set cfg id (l ++ [x])) id y
                         = Ok (dict_set cfg id (l ++ [x; y]))).
  { intros x y. unfold dict_append. rewrite dict_get_set_eq. simpl.
    by rewrite dict_set_set, <- app_assoc. }
  destruct (dict_get blocks id) as [b|e]; simpl; [|done].
  destruct (list_last (code b)) as [ll|e]; simpl; [|done].
  destruct (matches (re_match re_cond ll)).
  - rewrite (guard_index ids (i + 1) (λ x, dict_append cfg id x)).
    destruct (ids !! (i + 1)) as [nx|]; simpl.
    + rewrite Happ. simpl.
      destruct (else_search _ _ _) as [[bj|]|e]; simpl; [by rewrite Happ2| |done].
      rewrite (guard_index ids (i + 2)
                 (λ x, dict_append (dict_set cfg id (l ++ [nx])) id x)).
      destruct (ids !! (i + 2)) as [mg|]; simpl; [by rewrite Happ2|done].
    + destruct (else_search _ _ _) as [[bj|]|e]; simpl; [by rewrite Happ| |done].
      rewrite (guard_index ids (i + 2) (λ x, dict_append cfg id x)).
      destruct (ids !! (i + 2)) as [mg|]; simpl; [by rewrite Happ|by rewrite Hid].
  - destruct (list_index (code b) 0) as [first|e]; simpl; [|done].
    destruct (str_in "else" first || str_in "case" first).
    + rewrite (guard_index ids (i + 2) (λ x, dict_append cfg id x)).
      destruct (ids !! (i + 2)) as [mg|]; simpl; [by rewrite Happ|].
      rewrite (guard_index ids (i + 1) (λ x, dict_append cfg id x)).
      destruct (ids !! (i + 1)) as [nx|]; simpl; [by rewrite Happ|by rewrite Hid].
    + destruct (negb _); simpl; [|by rewrite Hid].
      rewrite (guard_index ids (i + 1) (λ x, dict_append cfg id x)).
      destruct (ids !! (i + 1)) as [nx|]; simpl; [by rewrite Happ|by rewrite Hid].
Qed.

Lemma mapM_r_length {A B : Type} (f : A → result B) (l : list A) (ys : list B) :
  mapM_r f l = Ok ys → length ys = length l.
Proof. intros H%mapM_r_Ok. symmetry. by eapply Forall2_length. Qed.

Lemma first_loop_edges blocks (ids : list string) :
  NoDup ids →
  ∀ (Q P : list string) (done : list (list string)),
    ids = P ++ Q → length done = length P →
    foldM (cfg_step blocks ids) (zip P done ++ ((λ k, (k, [])) <$> Q))
          (imap (λ i x, (length P + i, x)) Q)
    = ess ← mapM_r (block_edges blocks ids) (imap (λ i x, (length P + i, x)) Q);
      Ok (zip P done ++ zip Q ess).
Proof.
  intros Hnd. induction Q as [|id Q IH]; intros P dn Hids Hlen; [done|].
  assert (Hfresh : id ∉ dict_keys (zip P dn)).
  { unfold dict_keys. rewrite fst_zip by lia. subst ids.
    apply NoDup_app in Hnd as (_ & Hdisj & _). intros Hin.
    apply (Hdisj _ Hin). left. }
  cbn [imap fmap list_fmap foldM mapM_r].
  rewrite (cfg_step_edges _ _ _ _ _ []).
  2:{ rewrite dict_get_app_r by done. simpl. by case_decide. }
  destruct (block_edges blocks ids (length P + 0, id)) as [es|e]; [|done].
  cbn [mbind result_bind]. rewrite dict_set_app_r by done.
  cbn [dict_set app]. case_decide; [|done].
  rewrite (imap_ext _ (λ i y, (length (P ++ [id]) + i, y))).
  2:{ intros i y _. rewrite length_app. simpl. f_equal. lia. }
  specialize (IH (P ++ [id]) (dn ++ [es])).
  rewrite zip_with_app in IH by done.
  cbn [zip_with] in IH. rewrite <- !app_assoc in IH. cbn [app] in IH.
  rewrite IH.
  - destruct (mapM_r _ _); [|done]. simpl. by rewrite <- app_assoc.
  - done.
  - rewrite !length_app. simpl. lia.
Qed.

Lemma second_loop_clean :
  ∀ (Q P : dict (list string)),
    NoDup (dict_keys (P ++ Q)) →
    foldM cfg_clean ((clean_entry <$> P) ++ Q) (dict_keys Q)
    = Ok (clean_entry <$> (P ++ Q)).
Proof.
  induction Q as [|[k l] Q IH]; intros P Hnd.
  - simpl. by rewrite !app_nil_r.
  - assert (Hfresh : k ∉ dict_keys (clean_entry <$> P)).
    { unfold dict_keys in *. rewrite <- list_fmap_compose.
      rewrite fmap_app in Hnd. apply NoDup_app in Hnd as (_ & Hdisj & _).
      intros Hin. apply (Hdisj k); [done|left]. }
    assert (Hstep : cfg_clean ((clean_entry <$> P) ++ (k, l) :: Q) k
                    = Ok ((clean_entry <$> P) ++ (k, sorted_set l) :: Q)).
    { unfold cfg_clean. rewrite dict_get_app_r by done. cbn [dict_get].
      case_decide; [|done]. cbn [mbind result_bind].
      rewrite dict_set_app_r by done. cbn [dict_set]. by case_decide. }
    change (dict_keys ((k, l) :: Q)) with (k :: dict_keys Q).
    cbn [foldM]. rewrite Hstep. cbn [mbind result_bind].
    specialize (IH (P ++ [(k, l)])).
    rewrite fmap_app, <- !app_assoc in IH. by apply IH.
Qed.

Lemma clean_zip (ids : list string) (ess : list (list string)) :
  clean_entry <$> zip ids ess = zip ids (sorted_set <$> ess).
Proof.
  revert ess. induction ids as [|id ids IH]; intros [|es ess]; simpl; try done.
  f_equal. apply IH.
Qed.

(** The CFG builder, loop by loop: it computes the edges of each block, in
    order, and gives each block the sorted set of its edges; it raises what
    the first block that raises does. *)
Lemma build_cfg_edges (blocks : dict block_info) :
  NoDup (dict_keys blocks) →
  build_cfg blocks
  = ess ← mapM_r (block_edges blocks (dict_keys blocks))
                 (enumerate (dict_keys blocks));
    Ok (zip (dict_keys blocks) (sorted_set <$> ess)).
Proof.
  intros Hnd. unfold build_cfg. rewrite dict_init_NoDup by done.
  pose proof (first_loop_edges blocks (dict_keys blocks) Hnd
                (dict_keys blocks) [] [] eq_refl eq_refl) as H1.
  cbn [zip_with app length Nat.add] in H1. unfold enumerate. rewrite H1.
  destruct (mapM_r _ _) as [ess|e] eqn:Hess; [|done].
  cbn [mbind result_bind]. apply mapM_r_length in Hess.
  rewrite length_imap in Hess.
  assert (Hk : dict_keys (zip (dict_keys blocks) ess) = dict_keys blocks).
  { unfold dict_keys at 1. rewrite fst_zip; [done|lia]. }
  pose proof (second_loop_clean (zip (dict_keys blocks) ess) []) as H2.
  cbn [fmap list_fmap app] in H2. rewrite H2, clean_zip; [done|].
  by rewrite Hk.
Qed.

(** The order of Python on strings is a total order. *)
Lemma string_compare_trans (s1 s2 s3 : string) :
  String.compare s1 s2 ≠ Gt → String.compare s2 s3 ≠ Gt →
  String.compare s1 s3 ≠ Gt.
Proof.
  revert s2 s3. induction s1 as [|a s1 IH]; intros [|b s2] [|c s3]; simpl;
    try done.
  unfold Ascii.compare.
  destruct (N.compare_spec (N_of_ascii a) (N_of_ascii b)) as [Hab|Hab|Hab],
           (N.compare_spec (N_of_ascii b) (N_of_ascii c)) as [Hbc|Hbc|Hbc],
           (N.compare_spec (N_of_ascii a) (N_of_ascii c)) as [Hac|Hac|Hac];
    try done; try lia.
  apply IH.
Qed.

Global Instance str_le_trans : Transitive str_le.
Proof.
  intros s1 s2 s3. unfold str_le, String.leb. intros H1 H2.
  pose proof (string_compare_trans s1 s2 s3) as H.
  destruct (String.compare s1 s2), (String.compare s2 s3),
    (String.compare s1 s3); try done; exfalso; by apply H.
Qed.

Global Instance str_le_total : Total str_le.
Proof. intros s1 s2. apply String.leb_total. Qed.

Lemma elem_of_sorted_set (l : list string) (x : string) :
  x ∈ sorted_set l ↔ x ∈ l.
Proof.
  unfold sorted_set.
  by rewrite merge_sort_Permutation, elem_of_elements, elem_of_list_to_set.
Qed.

Lemma NoDup_sorted_set (l : list string) : NoDup (sorted_set l).
Proof. unfold sorted_set. rewrite merge_sort_Permutation. apply NoDup_elements. Qed.

(** [sorted(list(set(l)))] increases strictly: it is sorted and has no
    duplicate. *)
Lemma sorted_set_lt (l : list string) : StronglySorted str_lt (sorted_set l).
Proof.
  pose proof (NoDup_sorted_set l) as Hn.
  assert (Hs : StronglySorted str_le (sorted_set l)).
  { apply StronglySorted_merge_sort; apply _. }
  induction Hs as [|x l' Hl IH Hx]; [constructor|].
  apply NoDup_cons in Hn as [Hxl Hn]. constructor; [auto|].
  apply Forall_forall. intros y Hy. rewrite Forall_forall in Hx.
  split; [by apply Hx | by intros ->].
Qed.

Lemma length_sorted_set_singleton (x : string) : length (sorted_set [x]) = 1.
Proof.
  unfold sorted_set. rewrite merge_sort_Permutation. simpl.
  rewrite union_empty_r_L, elements_singleton. done.
Qed.

Lemma blocks_lookup_key (blocks : dict block_info) (j : nat) (id : string) :
  dict_keys blocks !! j = Some id ↔ ∃ b, blocks !! j = Some (id, b).
Proof.
  unfold dict_keys. rewrite list_lookup_fmap.
  destruct (blocks !! j) as [[id' b']|]; simpl; naive_solver.
Qed.

Lemma first_line_index (b : block_info) (first kw : string) :
  list_index (code b) 0 = Ok first → first_line_has kw b = str_in kw first.
Proof.
  unfold first_line_has. rewrite list_index_Ok. destruct (code b); [done|].
  by intros [= ->].
Qed.

(** The search of the false branch finds the first later block whose first
    line contains [else]. *)
Lemma else_search_seq (blocks : dict block_info) (len a : nat) (r : option string) :
  NoDup (dict_keys blocks) →
  else_search blocks (dict_keys blocks) (seq a len) = Ok r →
  match r with
  | Some bj =>
      ∃ j b, a ≤ j < a + len ∧ blocks !! j = Some (bj, b)
             ∧ first_line_has "else" b = true
             ∧ ∀ j' id' b', a ≤ j' < j → blocks !! j' = Some (id', b') →
                            first_line_has "else" b' = false
  | None =>
      ∀ j' id' b', a ≤ j' < a + len → blocks !! j' = Some (id', b') →
                   first_line_has "else" b' = false
  end.
Proof.
  intros Hnd. revert a. induction len as [|len IH]; intros a; simpl.
  - intros [= <-]. intros. lia.
  - intros (bj & Hbj%list_index_Ok & (b & Hb & (first & Hfirst & Hr)%bind_Ok)
                                        %bind_Ok)%bind_Ok.
    apply blocks_lookup_key in Hbj as [b0 Hb0].
    rewrite (dict_get_lookup _ _ _ _ Hnd Hb0) in Hb. injection Hb as ->.
    pose proof (first_line_index b first "else" Hfirst) as Hfl.
    destruct (str_in "else" first) eqn:Helse.
    + injection Hr as <-. exists a, b. split_and!; [lia|lia|done|done|].
      intros. lia.
    + specialize (IH (S a) Hr). destruct r as [bk|].
      * destruct IH as (j & bjk & Hj & Hlk & Hhas & Hbefore).
        exists j, bjk. split_and!; [lia|lia|done|done|].
        intros j' id' b' Hj' Hl'. destruct (decide (j' = a)) as [->|Hne].
        -- rewrite Hb0 in Hl'. by injection Hl' as _ <-.
        -- eapply Hbefore; [|done]. lia.
      * intros j' id' b' Hj' Hl'. destruct (decide (j' = a)) as [->|Hne].
        -- rewrite Hb0 in Hl'. by injection Hl' as _ <-.
        -- eapply IH; [|done]. lia.
Qed.

(** What [build_cfg] returns for block [i]: the sorted set of its edges. *)
Lemma build_cfg_lookup (blocks : dict block_info) (cfg : dict (list string))
    (i : nat) (id : string) (b : block_info) :
  NoDup (dict_keys blocks) →
  build_cfg blocks = Ok cfg →
  blocks !! i = Some (id, b) →
  ∃ es, block_edges blocks (dict_keys blocks) (i, id) = Ok es
        ∧ cfg !! i = Some (id, sorted_set es)
        ∧ dict_get cfg id = Ok (sorted_set es).
Proof.
  intros Hnd Hcfg Hi. rewrite build_cfg_edges in Hcfg by done.
  apply bind_Ok in Hcfg as (ess & Hess & [= <-]).
  pose proof (mapM_r_length _ _ _ Hess) as Hlen.
  rewrite length_enumerate in Hlen.
  apply mapM_r_Ok in Hess.
  assert (Hid : dict_keys blocks !! i = Some id)
    by (apply blocks_lookup_key; eauto).
  assert (He : enumerate (dict_keys blocks) !! i = Some (i, id))
    by by apply enumerate_lookup.
  destruct (Forall2_lookup_l _ _ _ _ _ Hess He) as (es & Hes & Hedges).
  exists es. split; [done|].
  assert (Hl : zip (dict_keys blocks) (sorted_set <$> ess) !! i
               = Some (id, sorted_set es)).
  { apply lookup_zip_with_Some. exists id, (sorted_set es).
    split_and!; [done|done|]. by rewrite list_lookup_fmap, Hes. }
  split; [done|]. eapply dict_get_lookup; [|done].
  unfold dict_keys at 1. rewrite fst_zip; [done|].
  rewrite length_fmap. lia.
Qed.

(** C7: for a block whose last line opens an [if], [while] or [for], the
    CFG builder records the edge to the next block (when there is one) and
    then the edge of the false branch: to the first later block whose first
    line contains [else] when there is such a block, and otherwise to the
    block two positions ahead when that block exists. The edge list of the
    block is the sorted set of these edges, and the edge list of every
    block is strictly increasing in the order of strings: it is sorted and
    has no duplicate. *)
Theorem cond_header_edges (blocks : dict block_info) (cfg : dict (list string))
    (i : nat) (id : string) (b : block_info) (last_line : string) :
  NoDup (dict_keys blocks) →
  build_cfg blocks = Ok cfg →
  blocks !! i = Some (id, b) →
  last (code b) = Some last_line →
  matches (re_match re_cond last_line) = true →
  (∃ es false_edge,
     dict_get cfg id = Ok es
     ∧ es = sorted_set (opt_list (dict_keys blocks !! (i + 1)) ++ false_edge)
     ∧ (∀ x, x ∈ es
             ↔ x ∈ opt_list (dict_keys blocks !! (i + 1)) ++ false_edge)
     ∧ ((∃ j idj bj,
           i < j ∧ blocks !! j = Some (idj, bj)
           ∧ first_line_has "else" bj = true
           ∧ (∀ j' id' b', i < j' < j → blocks !! j' = Some (id', b') →
                           first_line_has "else" b' = false)
           ∧ false_edge = [idj])
        ∨ ((∀ j' id' b', i < j' → blocks !! j' = Some (id', b') →
                         first_line_has "else" b' = false)
           ∧ false_edge = opt_list (dict_keys blocks !! (i + 2)))))
  ∧ (∀ id' es', dict_get cfg id' = Ok es' →
                StronglySorted str_lt es' ∧ NoDup es').
Proof.
  intros Hnd Hcfg Hi Hlast Hcond. split.
  - destruct (build_cfg_lookup blocks cfg i id b Hnd Hcfg Hi)
      as (es & Hes & _ & Hget).
    unfold block_edges in Hes.
    rewrite (dict_get_lookup _ _ _ _ Hnd Hi) in Hes. cbn [mbind result_bind] in Hes.
    unfold list_last in Hes. rewrite Hlast in Hes. cbn [mbind result_bind] in Hes.
    rewrite Hcond in Hes.
    apply bind_Ok in Hes as (found & Hfound & [= <-]).
    unfold range in Hfound. apply else_search_seq in Hfound; [|done].
    eexists _, _. split; [exact Hget|]. split; [done|].
    split; [intros x; apply elem_of_sorted_set|].
    destruct found as [bj|].
    + left. destruct Hfound as (j & bjk & Hj & Hlk & Hhas & Hbefore).
      exists j, bj, bjk. split_and!; [lia|done|done| |done].
      intros j' id' b' Hj'. apply Hbefore. lia.
    + right. split; [|done]. intros j' id' b' Hj' Hl'.
      eapply Hfound; [|done]. split; [lia|].
      apply lookup_lt_Some in Hl'. unfold dict_keys. rewrite length_fmap. lia.
  - intros id' es' Hget. rewrite build_cfg_edges in Hcfg by done.
    apply bind_Ok in Hcfg as (ess & Hess & [= <-]).
    apply dict_get_Ok_elem in Hget.
    apply list_elem_of_lookup in Hget as [k Hk].
    apply lookup_zip_with_Some in Hk as (x & y & [= <- <-] & _ & Hy).
    rewrite list_lookup_fmap in Hy.
    destruct (ess !! k) as [es0|]; [|done]. injection Hy as <-.
    split; [apply sorted_set_lt | apply NoDup_sorted_set].
Qed.

Lemma cond_header_edges_witness :
  ∃ blocks cfg,
    create_basic_blocks if_else_scenario [0; 1; 2] = Ok blocks
    ∧ build_cfg blocks = Ok cfg
    ∧ (∃ es false_edge,
         dict_get cfg "B0" = Ok es
         ∧ es = sorted_set (opt_list (dict_keys blocks !! 1) ++ false_edge)
         ∧ (∀ x, x ∈ es ↔ x ∈ opt_list (dict_keys blocks !! 1) ++ false_edge)
         ∧ ((∃ j idj bj,
               0 < j ∧ blocks !! j = Some (idj, bj)
               ∧ first_line_has "else" bj = true
               ∧ (∀ j' id' b', 0 < j' < j → blocks !! j' = Some (id', b') →
                               first_line_has "else" b' = false)
               ∧ false_edge = [idj])
            ∨ ((∀ j' id' b', 0 < j' → blocks !! j' = Some (id', b') →
                             first_line_has "else" b' = false)
               ∧ false_edge = opt_list (dict_keys blocks !! 2))))
    ∧ (∀ id' es', dict_get cfg id' = Ok es' →
                  StronglySorted str_lt es' ∧ NoDup es').
Proof.
  eexists _, _. split; [by vm_compute|]. split; [by vm_compute|].
  apply (cond_header_edges _ _ 0 "B0"
           {| code := ["if (x > 0)"]; start_line := 0; end_line := 0 |}
           "if (x > 0)").
  - by vm_compute; repeat constructor; set_solver.
  - by vm_compute.
  - reflexivity.
  - reflexivity.
  - reflexivity.
Defined.

(** ** Metrics *)

Lemma spans_bounds (n : nat) (L : list nat) (k s e : nat) :
  StronglySorted lt L → Forall (λ x, x < n) L →
  spans n L !! k = Some (s, e) → s < e ∧ e ≤ n.
Proof.
  intros Hs Hlt [Hk ->]%spans_lookup. rewrite Forall_forall in Hlt.
  destruct (L !! S k) as [e|] eqn:He; simpl.
  - split; [eapply (sorted_lookup_lt L k (S k)); eauto|].
    apply Nat.lt_le_incl, Hlt. by eapply list_elem_of_lookup_2.
  - split; [|done]. apply Hlt. by eapply list_elem_of_lookup_2.
Qed.

Lemma slice_lookup {A : Type} (l : list A) (s e i : nat) (x : A) :
  slice l s e !! i = Some x → l !! (s + i) = Some x.
Proof.
  unfold slice. intros [H _]%lookup_take_Some. by rewrite lookup_drop in H.
Qed.

Lemma length_slice {A : Type} (l : list A) (s e : nat) :
  e ≤ length l → length (slice l s e) = e - s.
Proof. intros. unfold slice. rewrite length_take, length_drop. lia. Qed.

(** A block of a non-empty span has a first and a last line, and both are
    lines of the program. *)
Lemma slice_first_last (lines : list string) (s e : nat) :
  s < e → e ≤ length lines →
  ∃ first ll, list_index (slice lines s e) 0 = Ok first
              ∧ list_last (slice lines s e) = Ok ll
              ∧ first ∈ lines ∧ ll ∈ lines.
Proof.
  intros Hse He. pose proof (length_slice lines s e He) as Hlen.
  destruct (lookup_lt_is_Some_2 (slice lines s e) 0) as [first Hf]; [lia|].
  destruct (lookup_lt_is_Some_2 (slice lines s e) (pred (e - s))) as [ll Hl];
    [lia|].
  exists first, ll. split_and!.
  - by apply list_index_Ok.
  - unfold list_last. by rewrite last_lookup, Hlen, Hl.
  - apply slice_lookup in Hf. by eapply list_elem_of_lookup_2.
  - apply slice_lookup in Hl. by eapply list_elem_of_lookup_2.
Qed.

Lemma mapM_r_total {A B : Type} (P : A → B → Prop) (f : A → result B) (l : list A) :
  (∀ x, x ∈ l → ∃ y, f x = Ok y ∧ P x y) →
  ∃ ys, mapM_r f l = Ok ys ∧ Forall2 P l ys.
Proof.
  induction l as [|x l IH]; intros Hf; simpl.
  - exists []. by split.
  - destruct (Hf x) as (y & Hy & HP); [left|].
    destruct IH as (ys & Hys & HF); [intros; apply Hf; by right|].
    exists (y :: ys). rewrite Hy, Hys. split; [done | by constructor].
Qed.

Lemma sum_Z_ones {A : Type} (g : A → Z) (l : list A) :
  (∀ x, x ∈ l → g x = 1%Z) → sum_Z (g <$> l) = Z.of_nat (length l).
Proof.
  induction l as [|x l IH]; intros Hg; [done|].
  cbn [fmap list_fmap sum_Z foldr length].
  rewrite Hg by left. fold (sum_Z (g <$> l)).
  rewrite IH; [lia|]. intros. apply Hg. by right.
Qed.

Lemma sum_Z_app (l1 l2 : list Z) : sum_Z (l1 ++ l2) = (sum_Z l1 + sum_Z l2)%Z.
Proof. unfold sum_Z. induction l1; simpl; lia. Qed.

(** One edge from every block but the last *)
Lemma sum_Z_chain (N : nat) :
  0 < N →
  sum_Z ((λ i, if i + 1 <? N then 1%Z else 0%Z) <$> seq 0 N)
  = (Z.of_nat N - 1)%Z.
Proof.
  intros HN.
  assert (Hseq : seq 0 N = seq 0 (N - 1) ++ seq (0 + (N - 1)) 1).
  { rewrite <- seq_app. f_equal. lia. }
  rewrite Hseq, fmap_app, sum_Z_app, sum_Z_ones.
  - rewrite length_seq. simpl.
    rewrite (proj2 (Nat.ltb_ge _ _)) by lia. unfold sum_Z. simpl. lia.
  - intros i Hi%elem_of_seq. rewrite (proj2 (Nat.ltb_lt _ _)); [done|lia].
Qed.

Lemma length_opt_list_keys (ids : list string) (j : nat) :
  length (opt_list (ids !! j)) = if j <? length ids then 1 else 0.
Proof.
  destruct (j <? length ids) eqn:Hj.
  - apply Nat.ltb_lt in Hj.
    by destruct (lookup_lt_is_Some_2 ids j Hj) as [x ->].
  - apply Nat.ltb_ge in Hj. by rewrite (proj2 (lookup_ge_None ids j)).
Qed.

Lemma length_sorted_set_short (es : list string) :
  length es ≤ 1 → length (sorted_set es) = length es.
Proof.
  destruct es as [|x [|y es]]; simpl; [done| |lia].
  intros _. apply length_sorted_set_singleton.
Qed.

(** The edges of a block whose lines are plain: one edge when a block
    follows, none at the end. *)
Lemma plain_block_edges (blocks : dict block_info) (i : nat) (id : string)
    (b : block_info) (first ll : string) :
  NoDup (dict_keys blocks) →
  blocks !! i = Some (id, b) →
  list_index (code b) 0 = Ok first →
  list_last (code b) = Ok ll →
  plain_line ll →
  ∃ es, block_edges blocks (dict_keys blocks) (i, id) = Ok es
        ∧ length es = if i + 1 <? length blocks then 1 else 0.
Proof.
  intros Hnd Hi Hfirst Hlast [Hcond Hkw]. unfold block_edges.
  rewrite (dict_get_lookup _ _ _ _ Hnd Hi). cbn [mbind result_bind].
  rewrite Hlast. cbn [mbind result_bind]. rewrite Hcond, Hfirst.
  cbn [mbind result_bind]. rewrite Hkw. cbn [negb].
  assert (Hlen : length (dict_keys blocks) = length blocks)
    by (unfold dict_keys; by rewrite length_fmap).
  pose proof (length_opt_list_keys (dict_keys blocks) (i + 1)) as H1.
  rewrite Hlen in H1.
  destruct (str_in "else" first || str_in "case" first); [|eauto].
  destruct (dict_keys blocks !! (i + 2)) as [mg|] eqn:Hmg; [|eauto].
  eexists; split; [done|]. apply lookup_lt_Some in Hmg.
  rewrite (proj2 (Nat.ltb_lt _ _)); [done|lia].
Qed.

(** C6, as amended: for every graph that the CFG builder computes, the
    metrics are N, the number of blocks, E, the sum of the lengths of the
    edge lists, and E - N + 2; and for every non-empty input in which no
    line opens an [if], [while] or [for] and no line contains [return],
    [break] or [goto], the graph has E = N - 1 and the complexity is 1. *)
Theorem metrics_complexity :
  (∀ (blocks : dict block_info) (cfg : dict (list string)),
     NoDup (dict_keys blocks) → build_cfg blocks = Ok cfg →
     let N := Z.of_nat (length blocks) in
     let E := sum_Z ((λ edges, Z.of_nat (length edges)) <$> dict_values cfg) in
     calculate_metrics cfg = (N, E, (E - N + 2)%Z))
  ∧ (∀ lines : list string,
       lines ≠ [] → Forall plain_line lines →
       ∃ leaders blocks cfg,
         find_leaders lines = Ok leaders
         ∧ create_basic_blocks lines leaders = Ok blocks
         ∧ build_cfg blocks = Ok cfg
         ∧ calculate_metrics cfg
           = (Z.of_nat (length blocks), (Z.of_nat (length blocks) - 1)%Z, 1%Z)).
Proof.
  split.
  - intros blocks cfg Hnd Hcfg N E. unfold calculate_metrics.
    rewrite build_cfg_edges in Hcfg by done.
    apply bind_Ok in Hcfg as (ess & Hess & [= <-]).
    apply mapM_r_length in Hess. rewrite length_enumerate in Hess.
    subst N E. rewrite length_zip_with, length_fmap, Hess.
    unfold dict_keys. rewrite length_fmap, Nat.min_id. done.
  - intros lines Hne Hplain.
    destruct (find_leaders_Ok lines) as (S0 & Hfind & Hinv).
    destruct (sorted_leaders_shape lines S0 Hne Hinv) as (rest & HL & Hs & Hlt).
    set (L := sorted_nats S0) in *.
    set (blocks := named_blocks lines 0 (spans (length lines) L)).
    exists L, blocks.
    assert (Hnd : NoDup (dict_keys blocks)) by apply named_blocks_NoDup.
    assert (HN : length blocks = length L)
      by (subst blocks; by rewrite length_named_blocks, length_spans).
    assert (Hpos : 0 < length blocks) by (rewrite HN, HL; simpl; lia).
    destruct (mapM_r_total
                (λ (ib : nat * string) (es : list string),
                   length (sorted_set es)
                   = if ib.1 + 1 <? length blocks then 1 else 0)
                (block_edges blocks (dict_keys blocks))
                (enumerate (dict_keys blocks))) as (ess & Hess & HF).
    { intros [i id] Hin%elem_of_enumerate.
      apply blocks_lookup_key in Hin as [b Hb].
      pose proof Hb as Hb'. subst blocks.
      apply named_blocks_lookup in Hb' as (-> & [s e] & Hse & ->).
      rewrite HL in Hse.
      destruct (spans_bounds _ _ _ _ _ Hs Hlt Hse) as [Hlt' Hle].
      destruct (slice_first_last lines s e Hlt' Hle)
        as (first & ll & Hf & Hl & _ & Hin).
      rewrite Forall_forall in Hplain.
      destruct (plain_block_edges _ i _ _ first ll Hnd Hb Hf Hl (Hplain _ Hin))
        as (es & Hes & Hlen).
      exists es. split; [done|]. simpl. rewrite <- Hlen.
      apply length_sorted_set_short. rewrite Hlen. destruct (_ <? _); lia. }
    exists (zip (dict_keys blocks) (sorted_set <$> ess)).
    split; [done|]. split; [apply create_basic_blocks_spans|].
    split; [rewrite build_cfg_edges by done; by rewrite Hess|].
    pose proof (mapM_r_length _ _ _ Hess) as Hlen.
    rewrite length_enumerate in Hlen.
    assert (Hk : length (dict_keys blocks) = length blocks)
      by (unfold dict_keys; by rewrite length_fmap).
    unfold calculate_metrics.
    rewrite length_zip_with, length_fmap, Hlen, Hk, Nat.min_id.
    unfold dict_values. rewrite snd_zip by (rewrite length_fmap; lia).
    assert (Hsum : (λ edges : list string, Z.of_nat (length edges))
                     <$> (sorted_set <$> ess)
                   = (λ i, if i + 1 <? length blocks then 1%Z else 0%Z)
                       <$> seq 0 (length blocks)).
    { apply list_eq. intros i. rewrite !list_lookup_fmap.
      destruct (ess !! i) as [es|] eqn:Hi; simpl.
      - assert (Hlti : i < length blocks)
          by (apply lookup_lt_Some in Hi; lia).
        rewrite lookup_seq_lt by done. simpl.
        destruct (lookup_lt_is_Some_2 (enumerate (dict_keys blocks)) i)
          as [[i' id] Hid]; [rewrite length_enumerate; lia|].
        pose proof (Forall2_lookup_lr _ _ _ _ _ _ HF Hid Hi) as Hl.
        apply enumerate_lookup in Hid as [-> _]. simpl in Hl. rewrite Hl.
        by destruct (_ <? _).
      - apply lookup_ge_None in Hi. rewrite lookup_seq_ge by lia. done. }
    rewrite Hsum, sum_Z_chain by done. f_equal. lia.
Qed.

Lemma metrics_complexity_witness :
  (∃ cfg, build_cfg [("B0", {| code := ["x = 1;"]; start_line := 0;
                             end_line := 0 |})] = Ok cfg
          ∧ calculate_metrics cfg = (1, 0, 1)%Z)
  ∧ ∃ leaders blocks cfg,
      find_leaders ["x = 1;"; "}"; "y = 2;"] = Ok leaders
      ∧ create_basic_blocks ["x = 1;"; "}"; "y = 2;"] leaders = Ok blocks
      ∧ build_cfg blocks = Ok cfg
      ∧ calculate_metrics cfg
        = (Z.of_nat (length blocks), (Z.of_nat (length blocks) - 1)%Z, 1%Z).
Proof.
  split.
  - eexists. split; [by vm_compute|].
    apply (proj1 metrics_complexity
             [("B0", {| code := ["x = 1;"]; start_line := 0; end_line := 0 |})]).
    + apply NoDup_singleton.
    + by vm_compute.
  - apply (proj2 metrics_complexity ["x = 1;"; "}"; "y = 2;"]); [done|].
    repeat constructor; by vm_compute.
Defined.

(** C6, as stated, fails: two assignments, none of whose lines contains
    [if], [while] or [for], make two blocks and no edge, so that E is not
    N - 1 and the complexity is 0. *)
Lemma keyword_names_scenario_metrics :
  Forall (λ ln, any_in ["if"; "while"; "for"] ln = false) keyword_names_scenario
  ∧ ∃ leaders blocks cfg,
      find_leaders keyword_names_scenario = Ok leaders
      ∧ create_basic_blocks keyword_names_scenario leaders = Ok blocks
      ∧ build_cfg blocks = Ok cfg
      ∧ calculate_metrics cfg = (2, 0, 0)%Z
      ∧ (0 ≠ 2 - 1)%Z ∧ (0 ≠ 1)%Z.
Proof.
  split; [repeat constructor|].
  eexists _, _, _. split; [by vm_compute|]. split; [by vm_compute|].
  split; [by vm_compute|]. split; [by vm_compute|]. done.
Qed.

(** ** Definitions, gen and kill *)

(** A loop whose body keeps an invariant and does not raise under it
    returns, with the invariant. *)
Lemma foldM_total {A B : Type} (P : A → Prop) (f : A → B → result A)
    (a : A) (l : list B) :
  P a → (∀ a x, x ∈ l → P a → ∃ a', f a x = Ok a' ∧ P a') →
  ∃ a', foldM f a l = Ok a' ∧ P a'.
Proof.
  revert a. induction l as [|x l IH]; intros a Ha Hf; simpl; [eauto|].
  destruct (Hf a x) as (a1 & -> & H1); [left|done|]. simpl.
  apply IH; [done|]. intros. apply Hf; [by right|done].
Qed.

Lemma def_name_inj (i j : nat) : def_name i = def_name j → i = j.
Proof.
  unfold def_name. intros H. injection H as H.
  change (pretty i = pretty j) in H. by apply (inj pretty) in H.
Qed.

Lemma dict_get_elem {V : Type} (d : dict V) (k : string) (v : V) :
  NoDup (dict_keys d) → (k, v) ∈ d ↔ dict_get d k = Ok v.
Proof.
  intros Hnd. split; [|apply dict_get_Ok_elem].
  intros [i Hi]%list_elem_of_lookup. by eapply dict_get_lookup.
Qed.

Lemma def_step_inv (keys : list string) (block_id : string) (st : def_state)
    (ln : string) :
  block_id ∈ keys → def_inv keys st →
  ∃ st', def_step block_id st ln = Ok st' ∧ def_inv keys st'.
Proof.
  destruct st as [[D c] VD]. intros Hb ((Hc & Hkeys) & Hvd & Hdef).
  unfold def_step. destruct (re_match re_assign ln) as [m|];
    [|by eexists; split; [done|]].
  set (v := before_bracket (group 1 m)).
  set (d0 := def_name c).
  set (info0 := {| var := v; block := block_id; line := ln |}).
  assert (Hfresh : d0 ∉ dict_keys D).
  { rewrite Hkeys. intros (j & Hj%def_name_inj & Hin%elem_of_seq)%list_elem_of_fmap.
    lia. }
  rewrite (dict_set_fresh D) by done.
  set (VD1 := if negb (dict_mem VD v) then dict_set VD v ∅ else VD).
  assert (H1 : ∃ s, dict_get VD1 v = Ok s
                    ∧ (∀ d, d ∈ s ↔ ∃ info, (d, info) ∈ D ∧ var info = v)
                    ∧ ∀ v', v' ≠ v → dict_get VD1 v' = dict_get VD v').
  { subst VD1. unfold dict_mem. case_bool_decide as Hin; simpl.
    - apply dict_get_is_Ok in Hin as [s Hs]. exists s.
      split; [done|]. split; [|done]. intros d. by apply Hvd.
    - exists ∅. split; [apply dict_get_set_eq|]. split.
      + intros d. split; [set_solver|]. intros (info & Hd & Hv).
        destruct (Hdef _ _ Hd) as [_ [s Hs]]. rewrite Hv in Hs.
        exfalso. apply Hin. apply dict_get_is_Ok. eauto.
      + intros v' Hv'. by apply dict_get_set_ne. }
  destruct H1 as (s & Hs & Hs_elem & Hother). rewrite Hs.
  eexists. split; [done|]. split_and!.
  - lia.
  - unfold dict_keys in *. rewrite fmap_app, Hkeys. simpl.
    replace (c + 1 - 1) with ((c - 1) + 1) by lia.
    rewrite seq_app, fmap_app. simpl. do 3 f_equal. lia.
  - intros v' s' d. destruct (decide (v' = v)) as [->|Hne].
    + rewrite dict_get_set_eq. intros [= <-].
      rewrite elem_of_union, elem_of_singleton, Hs_elem. split.
      * intros [(info & Hd & Hv) | ->].
        -- exists info. split; [|done]. apply elem_of_app. by left.
        -- exists info0. split; [|done]. apply elem_of_app. right. left.
      * intros (info & [Hd | [= -> ->]%list_elem_of_singleton]%elem_of_app & Hv);
          [left; eauto | by right].
    + rewrite dict_get_set_ne, Hother by done. intros Hs'.
      rewrite (Hvd _ _ d Hs'). split.
      * intros (info & Hd & Hv). exists info. split; [|done].
        apply elem_of_app. by left.
      * intros (info & [Hd | [= -> ->]%list_elem_of_singleton]%elem_of_app & Hv);
          [eauto | done].
  - intros d info [Hd | [= -> ->]%list_elem_of_singleton]%elem_of_app.
    + destruct (Hdef _ _ Hd) as [Hblk [s' Hs']]. split; [done|].
      destruct (decide (var info = v)) as [->|Hne].
      * rewrite dict_get_set_eq. eauto.
      * rewrite dict_get_set_ne, Hother by done. eauto.
    + split; [done|]. simpl. rewrite dict_get_set_eq. eauto.
Qed.

(** The definition finder never raises, and [def_inv] holds of what it
    returns. *)
Lemma find_definitions_Ok (blocks : dict block_info) :
  ∃ definitions var_to_defs def_count,
    find_definitions blocks = Ok (definitions, var_to_defs)
    ∧ def_inv (dict_keys blocks) (definitions, def_count, var_to_defs).
Proof.
  unfold find_definitions.
  destruct (foldM_total (def_inv (dict_keys blocks))
              (λ st '(block_id, info),
                 foldM (def_step block_id) st (code info))
              ([], 1, []) blocks) as ([[D c] VD] & -> & Hinv).
  - split_and!; [done|done| |by intros ? ? ?%elem_of_nil].
    intros v s d [=].
  - intros st [id info] Hin Hst.
    apply foldM_total; [done|]. intros st' ln _ Hst'.
    apply def_step_inv; [|done].
    apply list_elem_of_fmap. exists (id, info). by split.
  - simpl. eauto.
Qed.

(** The inner loop of [compute_gen_kill] leaves [kill] as it is over the
    blocks whose [gen] set does not hold the definition. *)
Lemma kill_loop_skip (gen kill : dict (gset string)) (def_id : string)
    (other_defs : gset string) (l : list string) :
  (∀ b, b ∈ l → ∃ gb, dict_get gen b = Ok gb ∧ def_id ∉ gb) →
  foldM (kill_step gen def_id other_defs) kill l = Ok kill.
Proof.
  induction l as [|b l IH]; intros Hl; [done|].
  destruct (Hl b) as (gb & Hgb & Hnot); [left|].
  assert (Hstep : kill_step gen def_id other_defs kill b = Ok kill).
  { unfold kill_step. rewrite Hgb. cbn [mbind result_bind].
    by rewrite bool_decide_eq_false_2. }
  cbn [foldM]. rewrite Hstep. cbn [mbind result_bind].
  apply IH. intros. apply Hl. by right.
Qed.

(** The inner loop updates the [kill] set of the one block whose [gen] set
    holds the definition. *)
Lemma kill_loop_one (gen kill : dict (gset string)) (def_id b0 : string)
    (other_defs g0 k0 : gset string) (keys : list string) :
  NoDup keys → b0 ∈ keys →
  dict_get gen b0 = Ok g0 → def_id ∈ g0 → dict_get kill b0 = Ok k0 →
  (∀ b, b ∈ keys → b ≠ b0 → ∃ gb, dict_get gen b = Ok gb ∧ def_id ∉ gb) →
  foldM (kill_step gen def_id other_defs) kill keys
  = Ok (dict_set kill b0 (k0 ∪ other_defs)).
Proof.
  intros Hnd Hin Hg0 Hd Hk0 Hothers.
  apply list_elem_of_split in Hin as (l1 & l2 & ->).
  apply NoDup_app in Hnd as (_ & Hdisj & [Hb0 _]%NoDup_cons).
  rewrite foldM_app, kill_loop_skip.
  - assert (Hstep : kill_step gen def_id other_defs kill b0
                    = Ok (dict_set kill b0 (k0 ∪ other_defs))).
    { unfold kill_step. rewrite Hg0. cbn [mbind result_bind].
      rewrite bool_decide_eq_true_2 by done. by rewrite Hk0. }
    cbn [mbind result_bind foldM]. rewrite Hstep. cbn [mbind result_bind].
    apply kill_loop_skip. intros b Hb. apply Hothers.
    + apply elem_of_app. right. by right.
    + by intros ->.
  - intros b Hb. apply Hothers.
    + apply elem_of_app. by left.
    + intros ->. apply (Hdisj _ Hb). left.
Qed.

Lemma gen_kill_step_inv (blocks : dict block_info) (var_to_defs : dict (gset string))
    (P : dict def_info) (gk : dict (gset string) * dict (gset string))
    (d0 : string) (info0 : def_info) :
  NoDup (dict_keys blocks) →
  d0 ∉ dict_keys P →
  block info0 ∈ dict_keys blocks →
  (∃ vs, dict_get var_to_defs (var info0) = Ok vs) →
  gk_inv (dict_keys blocks) var_to_defs P gk →
  ∃ gk', gen_kill_step blocks var_to_defs gk (d0, info0) = Ok gk'
         ∧ gk_inv (dict_keys blocks) var_to_defs (P ++ [(d0, info0)]) gk'.
Proof.
  destruct gk as [gen kill].
  intros Hnd Hfresh Hblk [vs Hvs] (Hkg & Hkk & Hgen & Hkill).
  unfold gen_kill_step.
  assert (Hg : ∃ g, dict_get gen (block info0) = Ok g)
    by (apply dict_get_is_Ok; by rewrite Hkg).
  assert (Hk : ∃ k, dict_get kill (block info0) = Ok k)
    by (apply dict_get_is_Ok; by rewrite Hkk).
  destruct Hg as [g0 Hg0]. destruct Hk as [k0 Hk0].
  rewrite Hg0. cbn [mbind result_bind]. rewrite Hvs. cbn [mbind result_bind].
  set (gen' := dict_set gen (block info0) (g0 ∪ {[d0]})).
  rewrite (kill_loop_one gen' kill d0 (block info0) (vs ∖ {[d0]})
             (g0 ∪ {[d0]}) k0); try done.
  - cbn [mbind result_bind]. eexists. split; [done|].
    assert (Hin0 : block info0 ∈ dict_keys gen) by by rewrite Hkg.
    assert (Hin1 : block info0 ∈ dict_keys kill) by by rewrite Hkk.
    split_and!.
    + subst gen'. by rewrite dict_keys_set.
    + by rewrite dict_keys_set.
    + intros b g d. subst gen'.
      destruct (decide (block info0 = b)) as [<-|Hne].
      * rewrite dict_get_set_eq. intros [= <-].
        rewrite elem_of_union, elem_of_singleton, (Hgen _ _ d Hg0). split.
        -- intros [(info & Hd & Hb) | ->].
           ++ exists info. split; [|done]. apply elem_of_app. by left.
           ++ exists info0. split; [|done]. apply elem_of_app. right. left.
        -- intros (info & [Hd | [= -> ->]%list_elem_of_singleton]%elem_of_app
                   & Hb); [left; eauto | by right].
      * rewrite dict_get_set_ne by done. intros Hg.
        rewrite (Hgen _ _ d Hg). split.
        -- intros (info & Hd & Hb). exists info. split; [|done].
           apply elem_of_app. by left.
        -- intros (info & [Hd | [= -> ->]%list_elem_of_singleton]%elem_of_app
                   & Hb); [eauto | done].
    + intros b k d.
      destruct (decide (block info0 = b)) as [<-|Hne].
      * rewrite dict_get_set_eq. intros [= <-].
        rewrite elem_of_union, elem_of_difference, elem_of_singleton,
          (Hkill _ _ d Hk0). split.
        -- intros [(d' & info' & vs' & Hd & Hb & Hv & Hin & Hdd) | [Hin Hdd]].
           ++ exists d', info', vs'. split_and!; try done.
              apply elem_of_app. by left.
           ++ exists d0, info0, vs. split_and!; try done.
              apply elem_of_app. right. left.
        -- intros (d' & info' & vs' &
                   [Hd | [= -> ->]%list_elem_of_singleton]%elem_of_app
                   & Hb & Hv & Hin & Hdd).
           ++ left. exists d', info', vs'. done.
           ++ right. rewrite Hvs in Hv. injection Hv as <-. done.
      * rewrite dict_get_set_ne by done. intros Hk.
        rewrite (Hkill _ _ d Hk). split.
        -- intros (d' & info' & vs' & Hd & Hb & Hrest).
           exists d', info', vs'. split; [|done]. apply elem_of_app. by left.
        -- intros (d' & info' & vs' &
                   [Hd | [= -> ->]%list_elem_of_singleton]%elem_of_app
                   & Hb & Hrest); [|done].
           exists d', info', vs'. done.
  - subst gen'. apply dict_get_set_eq.
  - set_solver.
  - intros b Hb Hne. subst gen'. rewrite dict_get_set_ne by done.
    assert (Hgb : ∃ gb, dict_get gen b = Ok gb)
      by (apply dict_get_is_Ok; by rewrite Hkg).
    destruct Hgb as [gb Hgb]. exists gb. split; [done|].
    intros Hin. apply (Hgen _ _ d0 Hgb) in Hin as (info & Hd & _).
    apply Hfresh. apply list_elem_of_fmap. exists (d0, info). by split.
Qed.

Lemma gen_kill_loop (blocks : dict block_info) (var_to_defs : dict (gset string)) :
  NoDup (dict_keys blocks) →
  ∀ (Q P : dict def_info) (gk : dict (gset string) * dict (gset string)),
    NoDup (dict_keys (P ++ Q)) →
    (∀ d info, (d, info) ∈ Q →
               block info ∈ dict_keys blocks
               ∧ ∃ vs, dict_get var_to_defs (var info) = Ok vs) →
    gk_inv (dict_keys blocks) var_to_defs P gk →
    ∃ gk', foldM (gen_kill_step blocks var_to_defs) gk Q = Ok gk'
           ∧ gk_inv (dict_keys blocks) var_to_defs (P ++ Q) gk'.
Proof.
  intros Hnd. induction Q as [|[d0 info0] Q IH]; intros P gk HndD HQ Hinv.
  - simpl. rewrite app_nil_r. eauto.
  - destruct (HQ d0 info0) as [Hblk Hvs]; [left|].
    destruct (gen_kill_step_inv blocks var_to_defs P gk d0 info0)
      as (gk1 & Hstep & Hinv1); try done.
    { unfold dict_keys in HndD. rewrite fmap_app in HndD.
      apply NoDup_app in HndD as (_ & Hdisj & _). intros Hin.
      apply (Hdisj _ Hin). left. }
    cbn [foldM]. rewrite Hstep. cbn [mbind result_bind].
    destruct (IH (P ++ [(d0, info0)]) gk1) as (gk' & Hfold & Hinv').
    + by rewrite <- app_assoc.
    + intros d info Hd. apply (HQ d). by right.
    + done.
    + exists gk'. split; [done|]. by rewrite <- app_assoc in Hinv'.
Qed.

Lemma dict_keys_init_NoDup {V : Type} (ks : list string) (v : V) :
  NoDup ks → dict_keys (dict_init ks v) = ks.
Proof.
  intros Hnd. rewrite dict_init_NoDup by done. unfold dict_keys.
  apply list_eq. intros i. rewrite !list_lookup_fmap. by destruct (ks !! i).
Qed.

Lemma dict_get_init_inv {V : Type} (ks : list string) (k : string) (v w : V) :
  dict_get (dict_init ks v) k = Ok w → w = v.
Proof.
  induction ks as [|k0 ks IH] using rev_ind; [done|].
  rewrite dict_init_snoc. destruct (decide (k0 = k)) as [->|Hne].
  - rewrite dict_get_set_eq. by intros [= <-].
  - by rewrite dict_get_set_ne.
Qed.

Lemma gk_inv_init (keys : list string) (var_to_defs : dict (gset string)) :
  NoDup keys →
  gk_inv keys var_to_defs [] (dict_init keys ∅, dict_init keys ∅).
Proof.
  intros Hnd. split_and!.
  - by apply dict_keys_init_NoDup.
  - by apply dict_keys_init_NoDup.
  - intros b g d Hg%dict_get_init_inv. subst g.
    split; [set_solver|]. by intros (info & ?%elem_of_nil & _).
  - intros b k d Hk%dict_get_init_inv. subst k.
    split; [set_solver|]. by intros (d' & info' & vs & ?%elem_of_nil & _).
Qed.

(** The gen/kill computer never raises on what the definition finder
    returns, and [gk_inv] holds of its result over all the definitions. *)
Lemma compute_gen_kill_Ok (blocks : dict block_info) (definitions : dict def_info)
    (var_to_defs : dict (gset string)) (def_count : nat) :
  NoDup (dict_keys blocks) →
  def_inv (dict_keys blocks) (definitions, def_count, var_to_defs) →
  NoDup (dict_keys definitions)
  ∧ ∃ gen kill,
      compute_gen_kill blocks definitions var_to_defs = Ok (gen, kill)
      ∧ gk_inv (dict_keys blocks) var_to_defs definitions (gen, kill).
Proof.
  intros Hnd ((Hc & Hkeys) & Hvd & Hdef).
  assert (HndD : NoDup (dict_keys definitions)).
  { rewrite Hkeys. apply NoDup_fmap_2; [|apply NoDup_seq].
    intros i j. apply def_name_inj. }
  split; [done|]. unfold compute_gen_kill.
  destruct (gen_kill_loop blocks var_to_defs Hnd definitions []
              (dict_init (dict_keys blocks) ∅, dict_init (dict_keys blocks) ∅))
    as ([gen kill] & Hfold & Hinv).
  - done.
  - intros d info Hd. by apply (Hdef d).
  - by apply gk_inv_init.
  - eauto.
Qed.


(** C1, as amended: the run of the definition finder and of the gen/kill
    computer returns, and a definition is in both [gen[B]] and [kill[B]]
    exactly when it is a definition of block [B] and [B] holds another
    definition of the same variable. So [gen[B]] and [kill[B]] are disjoint
    for every block that defines no variable twice, and they share every
    definition of a variable that the block defines twice or more. *)
Theorem gen_kill_overlap (blocks : dict block_info) :
  NoDup (dict_keys blocks) →
  ∃ definitions var_to_defs gen kill,
    find_definitions blocks = Ok (definitions, var_to_defs)
    ∧ compute_gen_kill blocks definitions var_to_defs = Ok (gen, kill)
    ∧ ∀ B g k d,
        dict_get gen B = Ok g → dict_get kill B = Ok k →
        (d ∈ g ∧ d ∈ k)
        ↔ ∃ info d' info',
            dict_get definitions d = Ok info ∧ block info = B
            ∧ d' ≠ d ∧ dict_get definitions d' = Ok info'
            ∧ block info' = B ∧ var info' = var info.
Proof.
  intros Hnd.
  destruct (find_definitions_Ok blocks) as (D & VD & c & Hfind & Hinv).
  destruct (compute_gen_kill_Ok blocks D VD c Hnd Hinv)
    as (HndD & gen & kill & Hgk & _ & _ & Hgen & Hkill).
  destruct Hinv as (_ & Hvd & Hdef).
  exists D, VD, gen, kill. split; [done|]. split; [done|].
  intros B g k d Hg Hk. rewrite (Hgen _ _ d Hg), (Hkill _ _ d Hk). split.
  - intros [(info & Hd & Hb) (d' & info' & vs & Hd' & Hb' & Hvs & Hin & Hne)].
    exists info, d', info'.
    apply (Hvd _ _ d Hvs) in Hin as (info2 & Hd2 & Hv2).
    apply dict_get_elem in Hd, Hd', Hd2; try done.
    rewrite Hd in Hd2. injection Hd2 as <-. done.
  - intros (info & d' & info' & Hd & Hb & Hne & Hd' & Hb' & Hv).
    apply dict_get_elem in Hd, Hd'; try done. split; [eauto|].
    destruct (Hdef _ _ Hd') as [_ [vs Hvs]].
    exists d', info', vs.
    split_and!;
      first [done | by intros -> | by apply (Hvd _ _ d Hvs); eauto].
Qed.

Lemma gen_kill_overlap_witness :
  ∃ definitions var_to_defs gen kill,
    find_definitions
      [("B0", {| code := ["x = 1;"; "y = 2;"]; start_line := 0; end_line := 1 |})]
    = Ok (definitions, var_to_defs)
    ∧ compute_gen_kill
        [("B0", {| code := ["x = 1;"; "y = 2;"]; start_line := 0;
                   end_line := 1 |})]
        definitions var_to_defs
      = Ok (gen, kill).
Proof.
  destruct (gen_kill_overlap
              [("B0", {| code := ["x = 1;"; "y = 2;"]; start_line := 0;
                         end_line := 1 |})])
    as (D & VD & gen & kill & H1 & H2 & _); [apply NoDup_singleton|].
  exists D, VD, gen, kill. by split.
Defined.

(** C1, as stated, fails: in a block with two assignments to [x], both
    definitions are in [gen[B0]] and in [kill[B0]]. *)
Lemma redefinition_scenario_gen_kill :
  ∃ leaders blocks definitions var_to_defs gen kill,
    find_leaders redefinition_scenario = Ok leaders
    ∧ create_basic_blocks redefinition_scenario leaders = Ok blocks
    ∧ find_definitions blocks = Ok (definitions, var_to_defs)
    ∧ compute_gen_kill blocks definitions var_to_defs = Ok (gen, kill)
    ∧ dict_get gen "B0" = Ok {["d1"; "d2"]}
    ∧ dict_get kill "B0" = Ok {["d1"; "d2"]}
    ∧ ({["d1"; "d2"]} ∩ {["d1"; "d2"]} : gset string) ≠ ∅.
Proof.
  eexists _, _, _, _, _, _. split; [by vm_compute|]. split; [by vm_compute|].
  split; [by vm_compute|]. split; [by vm_compute|].
  split; [by vm_compute|]. split; [by vm_compute|]. set_solver.
Qed.

(** ** The solver *)

Section solver.
Context (predecessors : dict (list string)) (gen kill : dict (gset string)).
Implicit Types (ins outs : dict (gset string)) (b : string) (ch : bool).

Local Notation step := (rd_step predecessors gen kill).

Local Ltac rd_raise :=
  split; [done | intros (? & ? & ? & ? & ? & ? & ? & ? & ? & ? & ?);
                 simplify_eq; congruence].

(** The body of the pass, read off its result. *)
Lemma rd_step_Ok ins outs ch b ins' outs' ch' :
  step (ins, outs, ch) b = Ok (ins', outs', ch')
  ↔ ∃ ps new_in old_out g k,
      dict_get predecessors b = Ok ps
      ∧ union_out outs ps = Ok new_in
      ∧ dict_get outs b = Ok old_out
      ∧ dict_get gen b = Ok g
      ∧ dict_get kill b = Ok k
      ∧ ins' = dict_set ins b new_in
      ∧ outs' = dict_set outs b (g ∪ (new_in ∖ k))
      ∧ ch' = if bool_decide (g ∪ (new_in ∖ k) ≠ old_out) then true else ch.
Proof.
  unfold rd_step.
  destruct (dict_get predecessors b) as [ps|] eqn:Hps; simpl; [|rd_raise].
  destruct (union_out outs ps) as [ni|] eqn:Hni; simpl; [|rd_raise].
  destruct (dict_get outs b) as [oo|] eqn:Hoo; simpl; [|rd_raise].
  destruct (dict_get gen b) as [g|] eqn:Hg; simpl; [|rd_raise].
  rewrite dict_get_set_eq. simpl.
  destruct (dict_get kill b) as [k|] eqn:Hk; simpl; [|rd_raise].
  split.
  - intros [= <- <- <-]. by exists ps, ni, oo, g, k.
  - intros (ps' & ni' & oo' & g' & k' & [= <-] & Hni' & [= <-] & [= <-]
            & [= <-] & -> & -> & ->).
    rewrite Hni in Hni'. by injection Hni' as <-.
Qed.

(** Once [changed] is set it stays set. *)
Lemma rd_step_flag ins outs b st' :
  step (ins, outs, true) b = Ok st' → st'.2 = true.
Proof.
  destruct st' as [[ins' outs'] ch']. intros H%rd_step_Ok.
  destruct H as (ps & ni & oo & g & k & _ & _ & _ & _ & _ & _ & _ & ->).
  simpl. by case_bool_decide.
Qed.

Lemma rd_fold_flag (l : list string) ins outs st' :
  foldM step (ins, outs, true) l = Ok st' → st'.2 = true.
Proof.
  revert ins outs. induction l as [|b l IH]; intros ins outs; simpl.
  - by intros [= <-].
  - intros ([[ins1 outs1] ch1] & Hstep & Hfold)%bind_Ok.
    apply rd_step_flag in Hstep. simpl in Hstep. subst ch1. by eapply IH.
Qed.

(** A step that leaves [changed] unset leaves the out sets as they are,
    and is stable from then on. *)
Lemma rd_step_unchanged ins outs b ins' outs' :
  step (ins, outs, false) b = Ok (ins', outs', false) →
  outs' = outs ∧ stable predecessors gen kill ins' outs b.
Proof.
  intros H%rd_step_Ok.
  destruct H as (ps & ni & oo & g & k & Hps & Hni & Hoo & Hg & Hk & -> & -> & Hch).
  case_bool_decide as Heq; [done|].
  rewrite Heq, (dict_set_id outs b oo) by done. split; [done|].
  apply rd_step_Ok. exists ps, ni, oo, g, k. split_and!; try done.
  - by rewrite dict_set_set.
  - rewrite Heq. by rewrite dict_set_id.
  - rewrite bool_decide_eq_false_2; [done|]. by intros ?.
Qed.

(** Stability at [b] survives a step at another block that changes no
    out set. *)
Lemma stable_step ins outs b b' ins' :
  stable predecessors gen kill ins outs b →
  step (ins, outs, false) b' = Ok (ins', outs, false) →
  stable predecessors gen kill ins' outs b.
Proof.
  intros Hst Hstep. destruct (decide (b = b')) as [->|Hne].
  - by apply rd_step_unchanged in Hstep as [_ ?].
  - apply rd_step_Ok in Hst
      as (ps & ni & oo & g & k & Hps & Hni & Hoo & Hg & Hk & Hins & Houts & Hch).
    apply rd_step_Ok in Hstep
      as (ps' & ni' & oo' & g' & k' & _ & _ & _ & _ & _ & -> & _ & _).
    apply rd_step_Ok. exists ps, ni, oo, g, k. split_and!; try done.
    symmetry. apply dict_set_id. rewrite dict_get_set_ne by done.
    rewrite Hins. apply dict_get_set_eq.
Qed.

Lemma stable_fold (l : list string) ins outs b ins' outs' :
  stable predecessors gen kill ins outs b →
  foldM step (ins, outs, false) l = Ok (ins', outs', false) →
  outs' = outs ∧ stable predecessors gen kill ins' outs b.
Proof.
  revert ins. induction l as [|b' l IH]; intros ins Hst; simpl.
  - by intros [= <- <-].
  - intros ([[ins1 outs1] ch1] & Hstep & Hfold)%bind_Ok.
    destruct ch1; [by apply rd_fold_flag in Hfold|].
    apply rd_step_unchanged in Hstep as Hun. destruct Hun as [-> _].
    eapply IH; [|done]. by eapply stable_step.
Qed.

(** A pass that ends with [changed] unset has changed no out set, and
    every block of the pass is stable at its end. *)
Lemma rd_fold_unchanged (l : list string) ins outs ins' outs' :
  foldM step (ins, outs, false) l = Ok (ins', outs', false) →
  outs' = outs ∧ ∀ b, b ∈ l → stable predecessors gen kill ins' outs b.
Proof.
  revert ins. induction l as [|b' l IH]; intros ins; simpl.
  - intros [= <- <-]. split; [done|]. by intros b ?%elem_of_nil.
  - intros ([[ins1 outs1] ch1] & Hstep & Hfold)%bind_Ok.
    destruct ch1; [by apply rd_fold_flag in Hfold|].
    apply rd_step_unchanged in Hstep as [-> Hst].
    destruct (IH _ Hfold) as [-> Hrest]. split; [done|].
    intros b [->|Hb]%elem_of_cons; [|by apply Hrest].
    by destruct (stable_fold l ins1 outs b' ins' outs Hst Hfold).
Qed.

Lemma stable_pass (l : list string) ins outs :
  (∀ b, b ∈ l → stable predecessors gen kill ins outs b) →
  foldM step (ins, outs, false) l = Ok (ins, outs, false).
Proof.
  induction l as [|b l IH]; intros Hl; simpl; [done|].
  rewrite (Hl b) by left. simpl. apply IH. intros. apply Hl. by right.
Qed.

(** When the loop returns, its last pass left [changed] unset. *)
Lemma rd_loop_last (fuel : nat) (blocks : dict block_info) ins outs ins' outs' :
  rd_loop fuel blocks predecessors gen kill ins outs = Some (Ok (ins', outs')) →
  ∃ ins0 outs0,
    rd_pass blocks predecessors gen kill ins0 outs0 = Ok (ins', outs', false).
Proof.
  revert ins outs. induction fuel as [|fuel IH]; intros ins outs; simpl; [done|].
  destruct (rd_pass _ _ _ _ _ _) as [[[ins1 outs1] ch]|e] eqn:Hpass; [|done].
  destruct ch; [apply IH|]. intros [= <- <-]. eauto.
Qed.
End solver.

(** C4: when the solver returns [in_sets] and [out_sets], one more full pass
    over the blocks from these sets returns the same [in_sets] and
    [out_sets] and leaves [changed] unset; and at every block the sets
    satisfy the two equations of the pass. *)
Theorem solver_idempotent (fuel : nat) (blocks : dict block_info)
    (cfg : dict (list string)) (gen kill in_sets out_sets : dict (gset string)) :
  reaching_definitions_analysis fuel blocks cfg gen kill
  = Some (Ok (in_sets, out_sets)) →
  ∃ predecessors,
    get_predecessors cfg = Ok predecessors
    ∧ rd_pass blocks predecessors gen kill in_sets out_sets
      = Ok (in_sets, out_sets, false)
    ∧ ∀ b, b ∈ dict_keys blocks →
        ∃ ps i o g k,
          dict_get predecessors b = Ok ps
          ∧ dict_get in_sets b = Ok i ∧ union_out out_sets ps = Ok i
          ∧ dict_get out_sets b = Ok o
          ∧ dict_get gen b = Ok g ∧ dict_get kill b = Ok k
          ∧ o = g ∪ (i ∖ k).
Proof.
  unfold reaching_definitions_analysis.
  destruct (get_predecessors cfg) as [preds|e]; [|done].
  intros (ins0 & outs0 & Hpass)%rd_loop_last. exists preds. split; [done|].
  unfold rd_pass in *.
  apply rd_fold_unchanged in Hpass as [-> Hst].
  split; [by apply stable_pass|].
  intros b Hb. specialize (Hst b Hb). apply rd_step_Ok in Hst
    as (ps & ni & oo & g & k & Hps & Hni & Hoo & Hg & Hk & Hins & Houts & Hch).
  exists ps, ni, oo, g, k. split_and!; try done.
  - rewrite Hins. apply dict_get_set_eq.
  - by case_bool_decide as Heq.
Qed.

Lemma solver_idempotent_witness :
  ∃ predecessors,
    get_predecessors [("B0", [])] = Ok predecessors
    ∧ rd_pass [("B0", {| code := ["x = 1;"]; start_line := 0; end_line := 0 |})]
        predecessors [("B0", {["d1"]})] [("B0", ∅)]
        [("B0", ∅)] [("B0", {["d1"]})]
      = Ok ([("B0", ∅)], [("B0", {["d1"]})], false).
Proof.
  destruct (solver_idempotent 3
              [("B0", {| code := ["x = 1;"]; start_line := 0; end_line := 0 |})]
              [("B0", [])] [("B0", {["d1"]})] [("B0", ∅)]
              [("B0", ∅)] [("B0", {["d1"]})])
    as (preds & H1 & H2 & _); [by vm_compute|].
  exists preds. by split.
Defined.

(** ** Termination of the solver *)

Lemma set_at_set (d : dict (gset string)) (b b' : string) (v : gset string) :
  set_at (dict_set d b v) b' = if decide (b = b') then v else set_at d b'.
Proof.
  unfold set_at. case_decide as Hb.
  - subst. by rewrite dict_get_set_eq.
  - by rewrite dict_get_set_ne.
Qed.

Lemma set_at_init (keys : list string) (b : string) :
  set_at (dict_init keys ∅) b = ∅.
Proof.
  unfold set_at. destruct (dict_get _ b) as [s|] eqn:H; [|done].
  by apply dict_get_init_inv in H.
Qed.

Lemma union_out_acc (outs : dict (gset string)) (ps : list string)
    (acc new_in : gset string) :
  foldM (λ new_in p, o ← dict_get outs p; Ok (new_in ∪ o)) acc ps = Ok new_in →
  new_in = acc ∪ ⋃ (set_at outs <$> ps).
Proof.
  revert acc. induction ps as [|p ps IH]; intros acc; simpl.
  - intros [= <-]. by rewrite union_empty_r_L.
  - intros (acc' & (o & Ho & [= <-])%bind_Ok & Hfold)%bind_Ok.
    apply IH in Hfold. rewrite Hfold. unfold set_at at 2. rewrite Ho.
    symmetry. apply (assoc_L (∪)).
Qed.

Lemma union_out_Ok (outs : dict (gset string)) (ps : list string)
    (new_in : gset string) :
  union_out outs ps = Ok new_in → new_in = ⋃ (set_at outs <$> ps).
Proof. intros H%union_out_acc. by rewrite union_empty_l_L in H. Qed.

Section termination.
Context (predecessors : dict (list string)) (gen kill : dict (gset string)).
Implicit Types (ins outs : dict (gset string)) (b : string) (ch : bool).

Local Notation step := (rd_step predecessors gen kill).
Local Notation F := (transfer predecessors gen kill).

(** A step that returns has put the value of the transfer function in
    [out_sets[b]], and has set [changed] when that value is new. *)
Lemma rd_step_transfer ins outs ch b ins' outs' ch' :
  step (ins, outs, ch) b = Ok (ins', outs', ch') →
  outs' = dict_set outs b (F outs b)
  ∧ ch' = if bool_decide (F outs b ≠ set_at outs b) then true else ch.
Proof.
  intros H%rd_step_Ok.
  destruct H as (ps & ni & oo & g & k & Hps & Hni & Hoo & Hg & Hk & _ & -> & ->).
  apply union_out_Ok in Hni. unfold transfer, set_at, list_at.
  by rewrite Hps, Hg, Hk, Hoo, Hni.
Qed.

(** The transfer function is monotone. *)
Lemma transfer_mono outs outs' b :
  out_le outs outs' → F outs b ⊆ F outs' b.
Proof.
  intros Hle. unfold transfer.
  assert (⋃ (set_at outs <$> list_at predecessors b)
          ⊆ ⋃ (set_at outs' <$> list_at predecessors b)); [|set_solver].
  intros x (X & (p & -> & Hp)%list_elem_of_fmap & Hx)%elem_of_union_list.
  apply elem_of_union_list. exists (set_at outs' p).
  split; [apply list_elem_of_fmap; eauto | by apply Hle].
Qed.

Lemma transfer_bounded outs b : bounded gen outs → F outs b ⊆ universe gen.
Proof.
  intros Hb. unfold transfer.
  assert (set_at gen b ⊆ universe gen).
  { unfold set_at. destruct (dict_get gen b) as [g|] eqn:Hg; [|set_solver].
    intros x Hx. apply elem_of_union_list. exists g. split; [|done].
    apply dict_get_Ok_elem in Hg. apply list_elem_of_fmap.
    by exists (b, g). }
  assert (⋃ (set_at outs <$> list_at predecessors b) ⊆ universe gen);
    [|set_solver].
  intros x (X & (p & -> & Hp)%list_elem_of_fmap & Hx)%elem_of_union_list.
  by apply (Hb p).
Qed.

(** Putting the value of the transfer function in [out_sets[b]] moves up
    in the lattice, and keeps the out sets below their transfer and
    inside the universe. *)
Lemma update_le outs b :
  pre_fixpoint predecessors gen kill outs →
  out_le outs (dict_set outs b (F outs b)).
Proof.
  intros Hpre b'. rewrite set_at_set. case_decide; [subst; apply Hpre|done].
Qed.

Lemma update_pre_fixpoint outs b :
  pre_fixpoint predecessors gen kill outs →
  pre_fixpoint predecessors gen kill (dict_set outs b (F outs b)).
Proof.
  intros Hpre b'. pose proof (update_le outs b Hpre) as Hle.
  rewrite set_at_set. case_decide.
  - subst. by apply transfer_mono.
  - etrans; [apply Hpre | by apply transfer_mono].
Qed.

Lemma update_bounded outs b :
  bounded gen outs → bounded gen (dict_set outs b (F outs b)).
Proof.
  intros Hb b'. rewrite set_at_set. case_decide; [|done].
  by apply transfer_bounded.
Qed.

Lemma measure_cons (keys : list string) outs b :
  measure (b :: keys) outs = size (set_at outs b) + measure keys outs.
Proof. done. Qed.

Lemma measure_mono (keys : list string) outs outs' :
  out_le outs outs' → measure keys outs ≤ measure keys outs'.
Proof.
  intros Hle. induction keys as [|b keys IH]; [done|].
  rewrite !measure_cons. pose proof (subseteq_size _ _ (Hle b)). lia.
Qed.

Lemma measure_strict (keys : list string) outs outs' b :
  out_le outs outs' → b ∈ keys → set_at outs b ≠ set_at outs' b →
  measure keys outs < measure keys outs'.
Proof.
  intros Hle Hb Hne. induction keys as [|b' keys IH];
    [by apply elem_of_nil in Hb|].
  pose proof (measure_mono keys outs outs' Hle) as Hm.
  rewrite !measure_cons.
  pose proof (subseteq_size _ _ (Hle b')) as Hs.
  apply elem_of_cons in Hb as [<-|Hb].
  - assert (set_at outs b ⊂ set_at outs' b) as Hsub%subset_size; [|lia].
    split; [apply Hle|]. intros Hrev. apply Hne.
    apply (anti_symm (⊆)); [apply Hle | done].
  - specialize (IH Hb). lia.
Qed.

Lemma measure_bound (keys : list string) outs :
  bounded gen outs → measure keys outs ≤ length keys * size (universe gen).
Proof.
  intros Hb. induction keys as [|b keys IH]; [done|].
  rewrite measure_cons. cbn [length].
  pose proof (subseteq_size _ _ (Hb b)). lia.
Qed.

(** A run of steps over blocks of [keys]: the out sets move up, and when
    the run sets [changed] the measure has grown. *)
Lemma rd_fold_grows (keys l : list string) ins outs ch ins' outs' ch' :
  (∀ b, b ∈ l → b ∈ keys) →
  pre_fixpoint predecessors gen kill outs → bounded gen outs →
  foldM step (ins, outs, ch) l = Ok (ins', outs', ch') →
  pre_fixpoint predecessors gen kill outs' ∧ bounded gen outs'
  ∧ out_le outs outs'
  ∧ (ch' = true → ch = true ∨ measure keys outs < measure keys outs').
Proof.
  revert ins outs ch. induction l as [|b l IH]; intros ins outs ch Hl Hpre Hbd.
  - intros [= <- <- <-]. split_and!; [done|done|by intros b|auto].
  - cbn [foldM]. intros ([[ins1 outs1] ch1] & Hstep & Hfold)%bind_Ok.
    apply rd_step_transfer in Hstep as [-> ->].
    pose proof (update_le outs b Hpre) as Hle1.
    destruct (IH _ _ _ (λ b' Hb', Hl b' (list_elem_of_further _ _ _ Hb'))
                (update_pre_fixpoint outs b Hpre)
                (update_bounded outs b Hbd) Hfold)
      as (Hpre' & Hbd' & Hle' & Hch).
    split_and!; try done.
    + intros b'. etrans; [apply Hle1 | apply Hle'].
    + intros Hch'. specialize (Hch Hch').
      pose proof (measure_mono keys _ _ Hle') as Hm2.
      pose proof (measure_mono keys _ _ Hle1) as Hm1.
      case_bool_decide as Hnew.
      * right. eapply Nat.lt_le_trans; [|exact Hm2].
        apply (measure_strict keys _ _ b); [done|apply Hl; left|].
        rewrite set_at_set. case_decide; [|done]. by intros Heq.
      * destruct Hch as [?|?]; [by left | right; lia].
Qed.

(** The loop ends within as many passes as the lattice is high, plus
    one: each pass but the last makes the measure grow. *)
Lemma rd_loop_terminates (blocks : dict block_info) (n : nat) :
  ∀ ins outs,
    pre_fixpoint predecessors gen kill outs → bounded gen outs →
    length blocks * size (universe gen) - measure (dict_keys blocks) outs ≤ n →
    ∃ r, rd_loop (S n) blocks predecessors gen kill ins outs = Some r.
Proof.
  induction n as [|n IH]; intros ins outs Hpre Hbd Hn; cbn [rd_loop].
  - destruct (rd_pass _ _ _ _ _ _) as [[[ins1 outs1] ch]|e] eqn:Hpass; [|eauto].
    destruct ch; [|eauto]. exfalso. unfold rd_pass in Hpass.
    destruct (rd_fold_grows (dict_keys blocks) _ _ _ _ _ _ _
                (λ b Hb, Hb) Hpre Hbd Hpass) as (_ & Hbd' & _ & Hch).
    destruct (Hch eq_refl) as [?|Hlt]; [done|].
    pose proof (measure_bound (dict_keys blocks) outs1 Hbd') as Hb1.
    unfold dict_keys in Hb1 at 2. rewrite length_fmap in Hb1. lia.
  - destruct (rd_pass _ _ _ _ _ _) as [[[ins1 outs1] ch]|e] eqn:Hpass; [|eauto].
    destruct ch; [|eauto]. unfold rd_pass in Hpass.
    destruct (rd_fold_grows (dict_keys blocks) _ _ _ _ _ _ _
                (λ b Hb, Hb) Hpre Hbd Hpass) as (Hpre' & Hbd' & _ & Hch).
    destruct (Hch eq_refl) as [?|Hlt]; [done|].
    apply IH; [done|done|lia].
Qed.
End termination.

(** The solver ends, for all its arguments: the loop makes at most
    (number of blocks) * (number of definition ids) + 1 passes. *)
Lemma solver_terminates_general (blocks : dict block_info)
    (cfg : dict (list string)) (gen kill : dict (gset string)) :
  ∃ r, reaching_definitions_analysis
         (length blocks * size (universe gen) + 1) blocks cfg gen kill
       = Some r.
Proof.
  unfold reaching_definitions_analysis.
  destruct (get_predecessors cfg) as [preds|e]; [|eauto].
  rewrite Nat.add_1_r. apply rd_loop_terminates.
  - intros b. rewrite set_at_init. set_solver.
  - intros b. rewrite set_at_init. set_solver.
  - lia.
Qed.

(** ** The run never raises on a non-empty input *)

Lemma dict_keys_set_mono {V : Type} (d : dict V) (k b : string) (v : V) :
  b ∈ dict_keys d → b ∈ dict_keys (dict_set d k v).
Proof.
  rewrite !dict_get_is_Ok. intros [w Hw]. destruct (decide (k = b)) as [->|Hne].
  - rewrite dict_get_set_eq. eauto.
  - rewrite dict_get_set_ne by done. eauto.
Qed.

Lemma else_search_total (blocks : dict block_info) (ids : list string)
    (js : list nat) :
  (∀ j, j ∈ js → ∃ id b first,
      ids !! j = Some id ∧ dict_get blocks id = Ok b
      ∧ list_index (code b) 0 = Ok first) →
  ∃ r, else_search blocks ids js = Ok r ∧ ∀ bj, r = Some bj → bj ∈ ids.
Proof.
  induction js as [|j js IH]; intros Hjs; simpl.
  - exists None. by split.
  - destruct (Hjs j) as (id & b & first & Hid & Hb & Hf); [left|].
    rewrite (proj2 (list_index_Ok ids j id) Hid). simpl.
    rewrite Hb. simpl. rewrite Hf. simpl.
    destruct (str_in "else" first).
    + exists (Some id). split; [done|]. intros bj [= <-].
      by eapply list_elem_of_lookup_2.
    + apply IH. intros. apply Hjs. by right.
Qed.

Lemma opt_list_keys_elem (ids : list string) (j : nat) (x : string) :
  x ∈ opt_list (ids !! j) → x ∈ ids.
Proof.
  destruct (ids !! j) as [y|] eqn:Hj; simpl; [|by intros ?%elem_of_nil].
  intros ->%list_elem_of_singleton. by eapply list_elem_of_lookup_2.
Qed.

(** The edges of a block are computed when no block is empty, and they are
    ids of blocks. *)
Lemma block_edges_total (blocks : dict block_info) (i : nat) (id : string)
    (b : block_info) :
  NoDup (dict_keys blocks) →
  (∀ j id' b', blocks !! j = Some (id', b') → code b' ≠ []) →
  blocks !! i = Some (id, b) →
  ∃ es, block_edges blocks (dict_keys blocks) (i, id) = Ok es
        ∧ ∀ x, x ∈ es → x ∈ dict_keys blocks.
Proof.
  intros Hnd Hne Hi.
  assert (Hfirst : ∀ j id' b', blocks !! j = Some (id', b') →
                     ∃ first, list_index (code b') 0 = Ok first).
  { intros j id' b' Hj. specialize (Hne _ _ _ Hj).
    destruct (code b') as [|f c]; [done|]. by exists f. }
  unfold block_edges. rewrite (dict_get_lookup _ _ _ _ Hnd Hi). simpl.
  assert (Hlast : ∃ ll, list_last (code b) = Ok ll).
  { unfold list_last. specialize (Hne _ _ _ Hi).
    destruct (last (code b)) as [ll|] eqn:Hl; [eauto|].
    by apply last_None in Hl. }
  destruct Hlast as [ll ->]. simpl.
  destruct (Hfirst _ _ _ Hi) as [first ->]. simpl.
  destruct (matches (re_match re_cond ll)).
  - destruct (else_search_total blocks (dict_keys blocks)
                (range (i + 1) (length (dict_keys blocks))))
      as (r & -> & Hr).
    { intros j Hj%elem_of_seq.
      destruct (lookup_lt_is_Some_2 blocks j) as [[idj bj] Hbj].
      { unfold dict_keys in Hj. rewrite length_fmap in Hj. lia. }
      destruct (Hfirst _ _ _ Hbj) as [f Hf]. exists idj, bj, f.
      split_and!; [apply blocks_lookup_key; eauto| |done].
      by eapply dict_get_lookup. }
    simpl. eexists. split; [done|].
    intros x [Hx|Hx]%elem_of_app; [by eapply opt_list_keys_elem|].
    destruct r as [bj|]; [|by eapply opt_list_keys_elem].
    apply list_elem_of_singleton in Hx as ->. by apply Hr.
  - destruct (str_in "else" first || str_in "case" first).
    + eexists. split; [done|]. intros x Hx.
      destruct (dict_keys blocks !! (i + 2)) as [mg|] eqn:Hmg;
        [|by eapply opt_list_keys_elem].
      apply list_elem_of_singleton in Hx as ->. by eapply list_elem_of_lookup_2.
    + destruct (negb _); eexists; (split; [done|]); intros x Hx;
        [by eapply opt_list_keys_elem | by apply elem_of_nil in Hx].
Qed.

(** The CFG builder returns when no block is empty: the graph has the
    blocks as its nodes, in order, and its edges lead to blocks. *)
Lemma build_cfg_total (blocks : dict block_info) :
  NoDup (dict_keys blocks) →
  (∀ j id' b', blocks !! j = Some (id', b') → code b' ≠ []) →
  ∃ cfg, build_cfg blocks = Ok cfg
         ∧ dict_keys cfg = dict_keys blocks
         ∧ ∀ node edges x, (node, edges) ∈ cfg → x ∈ edges →
                           x ∈ dict_keys blocks.
Proof.
  intros Hnd Hne. rewrite build_cfg_edges by done.
  destruct (mapM_r_total
              (λ (_ : nat * string) (es : list string),
                 ∀ x, x ∈ es → x ∈ dict_keys blocks)
              (block_edges blocks (dict_keys blocks))
              (enumerate (dict_keys blocks))) as (ess & Hess & HF).
  { intros [i id] Hin%elem_of_enumerate.
    apply blocks_lookup_key in Hin as [b Hb].
    by eapply block_edges_total. }
  rewrite Hess. simpl. eexists. split; [done|].
  pose proof (mapM_r_length _ _ _ Hess) as Hlen.
  rewrite length_enumerate in Hlen. split.
  - unfold dict_keys at 1. rewrite fst_zip; [done|]. rewrite length_fmap. lia.
  - intros node edges x [k Hk]%list_elem_of_lookup Hx.
    apply lookup_zip_with_Some in Hk as (n' & e' & [= <- <-] & Hn & He).
    rewrite list_lookup_fmap in He.
    destruct (ess !! k) as [es|] eqn:Hes; [|done]. injection He as <-.
    rewrite elem_of_sorted_set in Hx.
    destruct (lookup_lt_is_Some_2 (enumerate (dict_keys blocks)) k)
      as [ib Hib].
    { rewrite length_enumerate. by eapply lookup_lt_Some. }
    by apply (Forall2_lookup_lr _ _ _ _ _ _ HF Hib Hes).
Qed.

(** The predecessors are computed when the edges lead to nodes: every node
    has an entry, and the predecessors are nodes. *)
Lemma get_predecessors_total (cfg : dict (list string)) :
  (∀ node edges x, (node, edges) ∈ cfg → x ∈ edges → x ∈ dict_keys cfg) →
  ∃ predecessors,
    get_predecessors cfg = Ok predecessors
    ∧ (∀ b, b ∈ dict_keys cfg → b ∈ dict_keys predecessors)
    ∧ ∀ b ps p, dict_get predecessors b = Ok ps → p ∈ ps → p ∈ dict_keys cfg.
Proof.
  intros Hedges. unfold get_predecessors.
  set (P := λ preds : dict (list string),
         (∀ b, b ∈ dict_keys cfg → b ∈ dict_keys preds)
         ∧ ∀ b ps p, dict_get preds b = Ok ps → p ∈ ps → p ∈ dict_keys cfg).
  apply (foldM_total P).
  - split.
    + intros b Hb. by apply dict_keys_init_elem.
    + intros b ps p Hps%dict_get_init_inv Hp. subst ps.
      by apply elem_of_nil in Hp.
  - intros preds [node edges] Hin HP.
    assert (Hnode : node ∈ dict_keys cfg).
    { apply list_elem_of_fmap. by exists (node, edges). }
    apply foldM_total; [done|].
    intros preds' edge Hedge [Hk Hv].
    assert (He : edge ∈ dict_keys preds') by (apply Hk; eauto).
    apply dict_get_is_Ok in He as [l Hl]. unfold dict_append. rewrite Hl.
    simpl. eexists. split; [done|]. split.
    + intros b Hb. by apply dict_keys_set_mono, Hk.
    + intros b ps p. destruct (decide (edge = b)) as [->|Hneq].
      * rewrite dict_get_set_eq. intros [= <-] [Hp|Hp]%elem_of_app; [eauto|].
        by apply list_elem_of_singleton in Hp as ->.
      * rewrite dict_get_set_ne by done. eauto.
Qed.

Section pass_total.
Context (keys : list string) (predecessors : dict (list string))
        (gen kill : dict (gset string)).
Hypothesis Hpreds : ∀ b, b ∈ keys → b ∈ dict_keys predecessors.
Hypothesis Hnodes :
  ∀ b ps p, dict_get predecessors b = Ok ps → p ∈ ps → p ∈ keys.
Hypothesis Hgen : ∀ b, b ∈ keys → b ∈ dict_keys gen.
Hypothesis Hkill : ∀ b, b ∈ keys → b ∈ dict_keys kill.

Lemma union_out_total (outs : dict (gset string)) (ps : list string) :
  (∀ p, p ∈ ps → p ∈ dict_keys outs) → ∃ new_in, union_out outs ps = Ok new_in.
Proof.
  intros Hps. unfold union_out.
  destruct (foldM_total (λ _, True)
              (λ (new_in : gset string) p,
                 o ← dict_get outs p; Ok (new_in ∪ o)) ∅ ps)
    as (ni & Hni & _); [done| |eauto].
  intros a p Hp _. apply Hps, dict_get_is_Ok in Hp as [o ->]. simpl. eauto.
Qed.

Lemma rd_step_total (st : rd_state) (b : string) :
  b ∈ keys → (∀ b', b' ∈ keys → b' ∈ dict_keys st.1.2) →
  ∃ st', rd_step predecessors gen kill st b = Ok st'
         ∧ ∀ b', b' ∈ keys → b' ∈ dict_keys st'.1.2.
Proof.
  destruct st as [[ins outs] ch]. simpl. intros Hb Houts.
  destruct (proj1 (dict_get_is_Ok _ _) (Hpreds b Hb)) as [ps Hps].
  destruct (union_out_total outs ps) as [ni Hni].
  { intros p Hp. apply Houts. by eapply Hnodes. }
  destruct (proj1 (dict_get_is_Ok _ _) (Houts b Hb)) as [oo Hoo].
  destruct (proj1 (dict_get_is_Ok _ _) (Hgen b Hb)) as [g Hg].
  destruct (proj1 (dict_get_is_Ok _ _) (Hkill b Hb)) as [k Hk].
  eexists (_, _, _). split.
  - apply rd_step_Ok. exists ps, ni, oo, g, k. by split_and!.
  - simpl. intros b' Hb'. by apply dict_keys_set_mono, Houts.
Qed.

Lemma rd_loop_Ok (blocks : dict block_info) (fuel : nat) :
  dict_keys blocks = keys →
  ∀ ins outs r,
    (∀ b', b' ∈ keys → b' ∈ dict_keys outs) →
    rd_loop fuel blocks predecessors gen kill ins outs = Some r →
    ∃ io, r = Ok io.
Proof.
  intros Hkeys. induction fuel as [|fuel IH]; intros ins outs r Houts; [done|].
  cbn [rd_loop]. unfold rd_pass. rewrite Hkeys.
  destruct (foldM_total (λ st : rd_state, ∀ b', b' ∈ keys → b' ∈ dict_keys st.1.2)
              (rd_step predecessors gen kill) (ins, outs, false) keys)
    as ([[ins1 outs1] ch] & -> & Houts1); [done| |].
  { intros st b Hb Hst. by apply rd_step_total. }
  destruct ch; [by apply IH|]. intros [= <-]. eauto.
Qed.
End pass_total.

(** The blocks of a non-empty input have distinct names and no block is
    empty. *)
Lemma pipeline_blocks (lines : list string) :
  lines ≠ [] →
  ∃ leaders blocks,
    find_leaders lines = Ok leaders
    ∧ create_basic_blocks lines leaders = Ok blocks
    ∧ NoDup (dict_keys blocks)
    ∧ ∀ j id b, blocks !! j = Some (id, b) → code b ≠ [].
Proof.
  intros Hne.
  destruct (find_leaders_Ok lines) as (S0 & Hfind & Hinv).
  destruct (sorted_leaders_shape lines S0 Hne Hinv) as (rest & HL & Hs & Hlt).
  exists (sorted_nats S0), (named_blocks lines 0 (spans (length lines) (sorted_nats S0))).
  split; [done|]. split; [apply create_basic_blocks_spans|].
  split; [apply named_blocks_NoDup|].
  intros j id b (_ & [s e] & Hse & ->)%named_blocks_lookup. rewrite HL in Hse.
  destruct (spans_bounds _ _ _ _ _ Hs Hlt Hse) as [Hlt' Hle].
  intros Hcode. apply (f_equal length) in Hcode. simpl in Hcode.
  rewrite length_slice in Hcode by done. lia.
Qed.

(** C5: the solver ends. For all its arguments the loop makes at most
    (number of blocks) * (number of definition ids) + 1 passes, since the
    out sets start empty, the transfer function is monotone and every pass
    but the last makes some out set grow inside the finite set of the
    definition ids; and on every non-empty input the whole run returns its
    result, with enough fuel. *)
Theorem solver_terminates :
  (∀ (blocks : dict block_info) (cfg : dict (list string))
     (gen kill : dict (gset string)),
     ∃ r, reaching_definitions_analysis
            (length blocks * size (universe gen) + 1) blocks cfg gen kill
          = Some r)
  ∧ (∀ lines : list string,
       lines ≠ [] → ∃ fuel a, main fuel lines = Some (Ok a)).
Proof.
  split; [apply solver_terminates_general|].
  intros lines Hne.
  destruct (pipeline_blocks lines Hne) as (L & blocks & HL & Hblocks & Hnd & Hcode).
  destruct (build_cfg_total blocks Hnd Hcode) as (cfg & Hcfg & Hkeys & Hedges).
  destruct (find_definitions_Ok blocks) as (D & VD & c & Hfind & Hinv).
  destruct (compute_gen_kill_Ok blocks D VD c Hnd Hinv)
    as (_ & gen & kill & Hgk & Hkg & Hkk & _).
  destruct (get_predecessors_total cfg) as (preds & Hpreds & Hp1 & Hp2).
  { intros node edges x Hin Hx. rewrite Hkeys. eauto. }
  destruct (solver_terminates_general blocks cfg gen kill) as [r Hr].
  exists (length blocks * size (universe gen) + 1).
  assert (H1 : ∀ b, b ∈ dict_keys blocks → b ∈ dict_keys preds).
  { intros b Hb. apply Hp1. by rewrite Hkeys. }
  assert (H2 : ∀ b ps p, dict_get preds b = Ok ps → p ∈ ps →
                         p ∈ dict_keys blocks).
  { intros b ps p Hb Hp. rewrite <- Hkeys. eauto. }
  assert (H3 : ∀ b, b ∈ dict_keys blocks → b ∈ dict_keys gen).
  { intros b Hb. by rewrite Hkg. }
  assert (H4 : ∀ b, b ∈ dict_keys blocks → b ∈ dict_keys kill).
  { intros b Hb. by rewrite Hkk. }
  assert (H5 : ∀ b, b ∈ dict_keys blocks →
                    b ∈ dict_keys (dict_init (dict_keys blocks) (∅ : gset string))).
  { intros b Hb. by apply dict_keys_init_elem. }
  unfold main. rewrite HL. simpl. rewrite Hblocks. simpl. rewrite Hcfg. simpl.
  rewrite Hfind. simpl. rewrite Hgk. simpl. rewrite Hr.
  unfold reaching_definitions_analysis in Hr. rewrite Hpreds in Hr.
  destruct (rd_loop_Ok (dict_keys blocks) preds gen kill H1 H2 H3 H4 blocks _
              eq_refl _ _ r H5 Hr) as [[ins outs] ->].
  eauto.
Qed.

Lemma solver_terminates_witness :
  ∃ fuel a, main fuel ["x = 1;"; "x = 2;"] = Some (Ok a).
Proof. apply (proj2 solver_terminates ["x = 1;"; "x = 2;"]). done. Defined.

(** * Further properties *)

(** ** The rules of the leader detector *)

(** A loop whose body only adds to a set: what is in the set at the end. *)
Lemma foldM_adds {B : Type} (f : gset nat → B → result (gset nat))
    (R : B → nat → Prop) (l : list B) :
  (∀ ld x, x ∈ l → ∃ ld', f ld x = Ok ld' ∧ ∀ y, y ∈ ld' ↔ y ∈ ld ∨ R x y) →
  ∀ ld, ∃ ld', foldM f ld l = Ok ld'
               ∧ ∀ y, y ∈ ld' ↔ y ∈ ld ∨ ∃ x, x ∈ l ∧ R x y.
Proof.
  induction l as [|x l IH]; intros Hf ld.
  - exists ld. split; [done|]. intros y. split; [auto|].
    intros [?|(x & ?%elem_of_nil & _)]; done.
  - destruct (Hf ld x) as (ld1 & Hstep & H1); [left|].
    destruct (IH (λ ld x Hx, Hf ld x (list_elem_of_further _ _ _ Hx)) ld1)
      as (ld' & Hfold & H').
    exists ld'. cbn [foldM]. rewrite Hstep. split; [done|].
    intros y. rewrite H', H1. split.
    + intros [[?|?]|(x' & Hx' & ?)]; [by left| |].
      * right. exists x. split; [left|done].
      * right. exists x'. split; [by right|done].
    + intros [?|(x' & [-> |Hx']%elem_of_cons & ?)]; [by left; left| |].
      * left. by right.
      * right. eauto.
Qed.

Lemma foldl_adds {B : Type} (f : gset nat → B → gset nat)
    (R : B → nat → Prop) (l : list B) :
  (∀ ld x, x ∈ l → ∀ y, y ∈ f ld x ↔ y ∈ ld ∨ R x y) →
  ∀ ld y, y ∈ foldl f ld l ↔ y ∈ ld ∨ ∃ x, x ∈ l ∧ R x y.
Proof.
  intros Hf ld.
  destruct (foldM_adds (λ ld x, Ok (f ld x)) R l) with (ld := ld)
    as (ld' & Hfold & H').
  { intros ld0 x Hx. eexists. split; [done|]. by apply Hf. }
  assert (Heq : ∀ ld0, foldM (λ ld x, Ok (f ld x)) ld0 l = Ok (foldl f ld0 l)).
  { clear. induction l as [|x l IH]; intros ld0; [done|]. apply IH. }
  rewrite Heq in Hfold. by injection Hfold as <-.
Qed.

Lemma goto_targets_elem (lines : list string) (label : string)
    (leaders : gset nat) (y : nat) :
  y ∈ goto_targets lines label leaders
  ↔ y ∈ leaders
    ∨ ∃ t, lines !! y = Some t ∧ startswith (label +:+ ":") t = true.
Proof.
  unfold goto_targets.
  rewrite (foldl_adds _
             (λ (jt : nat * string) y,
                y = jt.1 ∧ startswith (label +:+ ":") jt.2 = true)).
  - split; (intros [?|H]; [by left|right]).
    + destruct H as ([j t] & Hin%elem_of_enumerate & -> & Hm). eauto.
    + destruct H as (t & Hy & Hm). exists (y, t).
      split; [by apply elem_of_enumerate | done].
  - intros ld [j t] _ y'. rewrite re_label_startswith. simpl.
    destruct (startswith _ t); set_solver.
Qed.

(** The step of the first loop at line [i]: it returns, and it adds what
    the rules say for this line. *)
Lemma leader_step_adds (lines : list string) (leaders : gset nat) (i : nat)
    (ln : string) :
  lines !! i = Some ln →
  ∃ leaders',
    leader_step lines leaders (i, ln) = Ok leaders'
    ∧ ∀ y, y ∈ leaders'
           ↔ y ∈ leaders
             ∨ (y = i ∧ (matches (re_match re_branch_open ln) = true
                         ∨ matches (re_match re_branch_target ln) = true))
             ∨ (∃ m t, re_search re_goto ln = Some m ∧ lines !! y = Some t
                       ∧ startswith (group 1 m +:+ ":") t = true)
             ∨ (y = i + 1
                ∧ (matches (re_match re_jump ln) = true
                   ∨ (startswith "}" ln = true ∧ 0 < i))
                ∧ ∃ nx, lines !! y = Some nx ∧ startswith "}" nx = false).
Proof.
  intros Hi. unfold leader_step.
  set (ld1 := if _ || _ then leaders ∪ {[i]} else leaders).
  assert (H1 : ∀ y, y ∈ ld1
                    ↔ y ∈ leaders
                      ∨ (y = i ∧ (matches (re_match re_branch_open ln) = true
                                  ∨ matches (re_match re_branch_target ln) = true))).
  { subst ld1. intros y.
    destruct (matches (re_match re_branch_open ln)),
             (matches (re_match re_branch_target ln)); simpl; set_solver. }
  clearbody ld1.
  set (ld2 := match re_search re_goto ln with
              | Some m => goto_targets lines (group 1 m) ld1
              | None => ld1 end).
  assert (H2 : ∀ y, y ∈ ld2
                    ↔ y ∈ ld1
                      ∨ ∃ m t, re_search re_goto ln = Some m
                               ∧ lines !! y = Some t
                               ∧ startswith (group 1 m +:+ ":") t = true).
  { subst ld2. intros y. destruct (re_search re_goto ln) as [m|].
    - rewrite goto_targets_elem. split; (intros [?|H]; [by left|right]).
      + destruct H as (t & ? & ?). eauto.
      + destruct H as (m' & t & [= <-] & ? & ?). eauto.
    - split; [auto|]. intros [?|(m & t & [=] & _)]. done. }
  clearbody ld2.
  assert (Hjump : matches (re_match re_jump ln) || (startswith "}" ln && (0 <? i))
                  = true
                  ↔ matches (re_match re_jump ln) = true
                    ∨ (startswith "}" ln = true ∧ 0 < i)).
  { rewrite orb_true_iff, andb_true_iff, Nat.ltb_lt. done. }
  assert (Hfinal : ∀ ld3 : gset nat,
            (∀ y, y ∈ ld3
                  ↔ y ∈ ld2
                    ∨ (y = i + 1
                       ∧ (matches (re_match re_jump ln) = true
                          ∨ (startswith "}" ln = true ∧ 0 < i))
                       ∧ ∃ nx, lines !! y = Some nx
                               ∧ startswith "}" nx = false)) →
            ∀ y, y ∈ ld3
                 ↔ y ∈ leaders
                   ∨ (y = i ∧ (matches (re_match re_branch_open ln) = true
                               ∨ matches (re_match re_branch_target ln) = true))
                   ∨ (∃ m t, re_search re_goto ln = Some m
                             ∧ lines !! y = Some t
                             ∧ startswith (group 1 m +:+ ":") t = true)
                   ∨ (y = i + 1
                      ∧ (matches (re_match re_jump ln) = true
                         ∨ (startswith "}" ln = true ∧ 0 < i))
                      ∧ ∃ nx, lines !! y = Some nx
                              ∧ startswith "}" nx = false)).
  { intros ld3 H3 y. rewrite H3, H2, H1. tauto. }
  destruct (matches (re_match re_jump ln) || (startswith "}" ln && (0 <? i))).
  - pose proof (proj1 Hjump eq_refl) as Hj.
    destruct (i + 1 <? length lines) eqn:Hn.
    + apply Nat.ltb_lt in Hn.
      destruct (list_index_lt lines (i + 1) Hn) as (nx & -> & Hnx). simpl.
      destruct (startswith "}" nx) eqn:Hb; simpl;
        (eexists; split; [done|]); apply Hfinal; intros y.
      * split; [auto|]. intros [?|(-> & _ & nx' & Hnx' & Hb')]; [done|].
        rewrite Hnx in Hnx'. injection Hnx' as <-. congruence.
      * rewrite elem_of_union, elem_of_singleton. split.
        -- intros [?| ->]; [by left|]. right. eauto.
        -- intros [?|(-> & _)]; auto.
    + apply Nat.ltb_ge in Hn. eexists. split; [done|]. apply Hfinal.
      intros y. split; [auto|]. intros [?|(-> & _ & nx & Hnx & _)]; [done|].
      apply lookup_lt_Some in Hnx. lia.
  - eexists. split; [done|]. apply Hfinal. intros y. split; [auto|].
    intros [?|(_ & Hc & _)]; [done|]. by apply Hjump in Hc.
Qed.

Lemma else_step_adds (lines : list string) (leaders : gset nat) (i : nat)
    (ln : string) (y : nat) :
  y ∈ else_step lines leaders (i, ln)
  ↔ y ∈ leaders
    ∨ (y = i + 1 ∧ strip ln = "} else {" ∧ y < length lines).
Proof.
  unfold else_step. case_bool_decide as Hs.
  - destruct (i + 1 <? length lines) eqn:Hn.
    + apply Nat.ltb_lt in Hn. rewrite elem_of_union, elem_of_singleton.
      split; [intros [?| ->]; auto | intros [?|(-> & _)]; auto].
    + apply Nat.ltb_ge in Hn. split; [auto|]. intros [?|(-> & _ & ?)]; [done|lia].
  - split; [auto|]. intros [?|(_ & ? & _)]; done.
Qed.

Lemma find_leaders_elem (lines : list string) :
  ∃ leaders,
    find_leaders lines = Ok leaders
    ∧ StronglySorted lt leaders
    ∧ ∀ x, x ∈ leaders ↔ leader_rule lines x.
Proof.
  unfold find_leaders.
  destruct (foldM_adds (leader_step lines)
              (λ (il : nat * string) y,
                 lines !! il.1 = Some il.2
                 ∧ ((y = il.1
                     ∧ (matches (re_match re_branch_open il.2) = true
                        ∨ matches (re_match re_branch_target il.2) = true))
                    ∨ (∃ m t, re_search re_goto il.2 = Some m
                              ∧ lines !! y = Some t
                              ∧ startswith (group 1 m +:+ ":") t = true)
                    ∨ (y = il.1 + 1
                       ∧ (matches (re_match re_jump il.2) = true
                          ∨ (startswith "}" il.2 = true ∧ 0 < il.1))
                       ∧ ∃ nx, lines !! y = Some nx
                               ∧ startswith "}" nx = false)))
              (enumerate lines)) with (ld := ({[0]} : gset nat))
    as (ld1 & -> & H1).
  { intros ld [i ln] Hin%elem_of_enumerate.
    destruct (leader_step_adds lines ld i ln Hin) as (ld' & Hstep & Hld').
    exists ld'. split; [done|]. intros y. rewrite Hld'. simpl. tauto. }
  simpl. eexists. split; [done|]. split; [apply sorted_nats_lt|].
  intros x. rewrite sorted_nats_elem.
  rewrite (foldl_adds (else_step lines)
             (λ (il : nat * string) y,
                lines !! il.1 = Some il.2
                ∧ y = il.1 + 1 ∧ strip il.2 = "} else {" ∧ y < length lines)).
  2:{ intros ld [i ln] Hin%elem_of_enumerate y. rewrite else_step_adds.
      simpl. tauto. }
  rewrite H1, elem_of_singleton. unfold leader_rule. split.
  - intros [[-> |([i ln] & _ & Hi & Hr)]|([i ln] & _ & Hi & Hr)]; simpl in *.
    + by left.
    + destruct Hr as [(-> & Hr)|[(m & t & Hm & Ht & Hs)|(-> & Hr & nx & Hnx & Hb)]].
      * right. left. eauto.
      * right. right. left. exists i, ln, m, t. done.
      * right. right. right. left. exists i, ln, nx. done.
    + destruct Hr as (-> & Hs & Hlt). right. right. right. right.
      exists i, ln. done.
  - intros [-> |[(ln & Hx & Hr)|[(i & ln & m & t & Hi & Hm & Ht & Hs)
                 |[(i & ln & nx & -> & Hi & Hr & Hnx & Hb)
                  |(i & ln & -> & Hi & Hs & Hlt)]]]].
    + by left; left.
    + left. right. exists (x, ln).
      split; [by apply elem_of_enumerate|]. simpl. split; [done|]. by left.
    + left. right. exists (i, ln).
      split; [by apply elem_of_enumerate|]. simpl. split; [done|].
      right. left. eauto.
    + left. right. exists (i, ln).
      split; [by apply elem_of_enumerate|]. simpl. split; [done|].
      right. right. eauto.
    + right. exists (i, ln). split; [by apply elem_of_enumerate|]. done.
Qed.


(** ** The blocks of any list of leaders *)

(** X2: For every list of leaders, sorted or not, the block builder returns:
    one block per leader, block [k] under the name [B<k>], with the [k]-th
    leader as its start, the next leader (or the number of lines) as its
    end and the lines in between as its code; the names are distinct, so
    that no block overwrites another and [blocks["B<k>"]] is block [k]. *)
Theorem create_basic_blocks_shape (lines : list string) (leaders : list nat) :
  ∃ blocks,
    create_basic_blocks lines leaders = Ok blocks
    ∧ length blocks = length leaders
    ∧ NoDup (dict_keys blocks)
    ∧ ∀ k s, leaders !! k = Some s →
        let e := default (length lines) (leaders !! S k) in
        let b := {| code := slice lines s e;
                    start_line := Z.of_nat s;
                    end_line := Z.of_nat e - 1 |} in
        blocks !! k = Some (block_name k, b)
        ∧ dict_get blocks (block_name k) = Ok b.
Proof.
  exists (named_blocks lines 0 (spans (length lines) leaders)).
  split; [apply create_basic_blocks_spans|].
  split; [by rewrite length_named_blocks, length_spans|].
  split; [apply named_blocks_NoDup|].
  intros k s Hk e b.
  assert (Hl : named_blocks lines 0 (spans (length lines) leaders) !! k
               = Some (block_name k, b)).
  { apply named_blocks_lookup. split; [done|]. exists (s, e).
    split; [|done]. by apply spans_lookup. }
  split; [done|]. eapply dict_get_lookup; [apply named_blocks_NoDup|done].
Qed.

(** ** Conditional headers start a block of their own *)

(** A line that opens an [if], [while] or [for] for the CFG builder opens
    a branch for the leader detector. *)
Lemma rmatch_group_alt (X Y r2 r3 : regex) (cs : list ascii) :
  matches (rmatch (RBol · RGroup 1 X · r2 · r3) None cs [] accept) = true →
  matches (rmatch (RBol · RGroup 1 (X ||| Y) · r2 · r3) None cs [] accept)
  = true.
Proof.
  cbn [rmatch].
  by destruct (rmatch X None cs []
                 (λ p' s' g',
                    rmatch r2 p' s' ((1, take (length cs - length s') cs) :: g')
                      (λ p'0 s'0 g'0, rmatch r3 p'0 s'0 g'0 accept))).
Qed.

Lemma re_cond_branch_open (ln : string) :
  matches (re_match re_cond ln) = true →
  matches (re_match re_branch_open ln) = true.
Proof. apply rmatch_group_alt. Qed.

Lemma find_leaders_inj (lines : list string) (l1 l2 : list nat) :
  find_leaders lines = Ok l1 → find_leaders lines = Ok l2 → l1 = l2.
Proof. intros H1 H2. rewrite H1 in H2. by injection H2. Qed.

Lemma slice_one {A : Type} (l : list A) (s : nat) (x : A) :
  l !! s = Some x → slice l s (s + 1) = [x].
Proof.
  intros Hs. unfold slice. replace (s + 1 - s) with 1 by lia.
  apply lookup_lt_Some in Hs as Hlt.
  rewrite (drop_S l x s Hs). simpl. by rewrite take_0.
Qed.

(** X3: In the blocks of a program, a block whose last line opens an [if],
    [while] or [for] holds that line only: the conditional rule of the CFG
    builder fires on one-line blocks and on no other. *)
Theorem cond_header_block_single (lines : list string) (leaders : list nat)
    (blocks : dict block_info) (k : nat) (id : string) (b : block_info)
    (last_line : string) :
  find_leaders lines = Ok leaders →
  create_basic_blocks lines leaders = Ok blocks →
  blocks !! k = Some (id, b) →
  last (code b) = Some last_line →
  matches (re_match re_cond last_line) = true →
  code b = [last_line].
Proof.
  intros Hfind Hblocks Hk Hlast Hcond.
  destruct (find_leaders_Ok lines) as (S0 & Hfind0 & Hinv).
  destruct (find_leaders_elem lines) as (L & HfindL & _ & Hrules).
  pose proof (find_leaders_inj _ _ _ Hfind HfindL) as ->.
  pose proof (find_leaders_inj _ _ _ Hfind0 HfindL) as HLS.
  rewrite create_basic_blocks_spans in Hblocks. injection Hblocks as <-.
  apply named_blocks_lookup in Hk as (-> & [s e] & Hse & ->). simpl in *.
  destruct (decide (lines = [])) as [->|Hne].
  { unfold slice in Hlast. by rewrite drop_nil, take_nil in Hlast. }
  destruct (sorted_leaders_shape lines S0 Hne Hinv) as (rest & HL & Hs & Hlt).
  rewrite HLS in HL. rewrite HL in Hse.
  destruct (spans_bounds _ _ _ _ _ Hs Hlt Hse) as [Hlt' Hle].
  pose proof (length_slice lines s e Hle) as Hlen.
  rewrite last_lookup, Hlen in Hlast. apply slice_lookup in Hlast.
  replace (s + pred (e - s)) with (e - 1) in Hlast by lia.
  assert (Hin : e - 1 ∈ L).
  { apply Hrules. right. left. exists last_line. split; [done|].
    left. by apply re_cond_branch_open. }
  rewrite HL in Hin. apply list_elem_of_lookup in Hin as [j Hj].
  apply spans_lookup in Hse as [Hsk He].
  assert (Hjs : e - 1 = s).
  { destruct (decide (j = k)) as [->|Hjk]; [congruence|].
    destruct (decide (j < k)) as [Hlt1|Hge].
    - pose proof (sorted_lookup_lt _ _ _ _ _ Hs Hlt1 Hj Hsk). lia.
    - destruct ((0 :: rest) !! S k) as [e'|] eqn:He'; simpl in He; subst e.
      + destruct (decide (j = S k)) as [->|Hjk'].
        * rewrite He' in Hj. injection Hj as Hj. lia.
        * assert (Hlt2 : S k < j) by lia.
          pose proof (sorted_lookup_lt _ _ _ _ _ Hs Hlt2 He' Hj). lia.
      + apply lookup_ge_None in He'. apply lookup_lt_Some in Hj. lia. }
  rewrite Hjs in Hlast. replace e with (s + 1) by lia.
  by apply slice_one.
Qed.

Lemma cond_header_block_single_witness :
  create_basic_blocks if_else_scenario [0; 1; 2] = Ok if_else_blocks
  ∧ code {| code := ["if (x > 0)"]; start_line := 0; end_line := 0 |}
    = ["if (x > 0)"].
Proof.
  split; [by vm_compute|].
  apply (cond_header_block_single if_else_scenario [0; 1; 2] if_else_blocks
           0 "B0" _ "if (x > 0)").
  - by vm_compute.
  - by vm_compute.
  - reflexivity.
  - reflexivity.
  - reflexivity.
Defined.

(** ** The shape of the control-flow graph *)

Lemma length_sorted_set_le (l : list string) : length (sorted_set l) ≤ length l.
Proof.
  unfold sorted_set. rewrite merge_sort_Permutation.
  change (size (list_to_set l : gset string) ≤ length l).
  induction l as [|x l IH]; [done|].
  cbn [list_to_set length]. rewrite size_union_alt, size_singleton.
  assert (Hsub : list_to_set l ∖ {[x]} ⊆ (list_to_set l : gset string))
    by set_solver.
  apply subseteq_size in Hsub. lia.
Qed.

Lemma sorted_set_short (l : list string) : length l ≤ 1 → sorted_set l = l.
Proof.
  destruct l as [|x [|y l]]; simpl; [done| |lia]. intros _.
  unfold sorted_set. simpl. by rewrite union_empty_r_L, elements_singleton.
Qed.

Lemma else_search_Raise (blocks : dict block_info) (js : list nat) (e : exn) :
  NoDup (dict_keys blocks) →
  (∀ j, j ∈ js → j < length blocks) →
  else_search blocks (dict_keys blocks) js = Raise e →
  e = IndexError ∧ ∃ j id b, blocks !! j = Some (id, b) ∧ code b = [].
Proof.
  intros Hnd. induction js as [|j js IH]; intros Hjs; simpl; [done|].
  destruct (lookup_lt_is_Some_2 blocks j) as [[id b] Hb]; [apply Hjs; left|].
  assert (Hid : dict_keys blocks !! j = Some id)
    by (apply blocks_lookup_key; eauto).
  rewrite (proj2 (list_index_Ok _ _ _) Hid). simpl.
  rewrite (dict_get_lookup _ _ _ _ Hnd Hb). simpl.
  destruct (code b) as [|first c] eqn:Hc.
  - intros [= <-]. split; [done|]. eauto.
  - simpl. destruct (str_in "else" first); [done|].
    apply IH. intros. apply Hjs. by right.
Qed.

(** The edges of block [i] fail only with [IndexError], on an empty block,
    and they do fail on an empty block. *)
Lemma block_edges_Raise (blocks : dict block_info) (i : nat) (id : string)
    (b : block_info) (e : exn) :
  NoDup (dict_keys blocks) → blocks !! i = Some (id, b) →
  block_edges blocks (dict_keys blocks) (i, id) = Raise e →
  e = IndexError ∧ ∃ j id' b', blocks !! j = Some (id', b') ∧ code b' = [].
Proof.
  intros Hnd Hi. unfold block_edges.
  rewrite (dict_get_lookup _ _ _ _ Hnd Hi). simpl. unfold list_last.
  destruct (last (code b)) as [ll|] eqn:Hl; simpl.
  - assert (Hf : ∃ first, list_index (code b) 0 = Ok first).
    { destruct (code b) as [|f c]; [done|]. by exists f. }
    destruct Hf as [first ->]. simpl.
    destruct (matches (re_match re_cond ll)).
    + destruct (else_search _ _ _) as [r|e'] eqn:Hs; simpl; [done|].
      intros [= <-]. eapply else_search_Raise; [done| |done].
      intros j Hj%elem_of_seq. unfold dict_keys in Hj.
      rewrite length_fmap in Hj. lia.
    + destruct (_ || _); [by destruct (_ !! _)|]. by destruct (negb _).
  - apply last_None in Hl. intros [= <-]. split; [done|]. eauto.
Qed.

Lemma block_edges_empty (blocks : dict block_info) (i : nat) (id : string)
    (b : block_info) :
  NoDup (dict_keys blocks) → blocks !! i = Some (id, b) → code b = [] →
  block_edges blocks (dict_keys blocks) (i, id) = Raise IndexError.
Proof.
  intros Hnd Hi Hc. unfold block_edges.
  rewrite (dict_get_lookup _ _ _ _ Hnd Hi). simpl. by rewrite Hc.
Qed.

Lemma mapM_r_Raise {A B : Type} (f : A → result B) (l : list A) (e : exn) :
  mapM_r f l = Raise e → ∃ x, x ∈ l ∧ f x = Raise e.
Proof.
  induction l as [|x l IH]; simpl; [done|].
  destruct (f x) as [y|e'] eqn:Hx; simpl.
  - destruct (mapM_r f l) as [ys|e'']; simpl; [done|]. intros [= <-].
    destruct IH as (x' & Hin & Hr); [done|]. exists x'. split; [by right|done].
  - intros [= <-]. exists x. split; [left|done].
Qed.

(** X4: The CFG builder raises exactly when some block has no code, and then
    it raises [IndexError]; it never raises [KeyError]. *)
Theorem build_cfg_raises (blocks : dict block_info) :
  NoDup (dict_keys blocks) →
  match build_cfg blocks with
  | Ok cfg => ∀ j id b, blocks !! j = Some (id, b) → code b ≠ []
  | Raise e => e = IndexError
               ∧ ∃ j id b, blocks !! j = Some (id, b) ∧ code b = []
  end.
Proof.
  intros Hnd. rewrite build_cfg_edges by done.
  destruct (mapM_r _ _) as [ess|e] eqn:Hess; simpl.
  - intros j id b Hj Hc. apply mapM_r_Ok in Hess.
    assert (He : enumerate (dict_keys blocks) !! j = Some (j, id)).
    { apply enumerate_lookup. split; [done|]. apply blocks_lookup_key. eauto. }
    destruct (Forall2_lookup_l _ _ _ _ _ Hess He) as (es & _ & Hes).
    by rewrite (block_edges_empty blocks j id b) in Hes.
  - apply mapM_r_Raise in Hess as ([i id] & Hin%elem_of_enumerate & Hr).
    apply blocks_lookup_key in Hin as [b Hb].
    by eapply block_edges_Raise.
Qed.

Lemma build_cfg_raises_witness :
  match build_cfg if_else_blocks with
  | Ok cfg => ∀ j id b, if_else_blocks !! j = Some (id, b) → code b ≠ []
  | Raise e => e = IndexError
               ∧ ∃ j id b, if_else_blocks !! j = Some (id, b) ∧ code b = []
  end.
Proof.
  apply (build_cfg_raises if_else_blocks).
  by vm_compute; repeat constructor; set_solver.
Defined.

(** The edges of a block lead to later blocks, and there are at most two
    of them. *)
Lemma block_edges_forward (blocks : dict block_info) (i : nat) (id : string)
    (es : list string) :
  NoDup (dict_keys blocks) →
  block_edges blocks (dict_keys blocks) (i, id) = Ok es →
  length es ≤ 2
  ∧ ∀ x, x ∈ es → ∃ j, i < j ∧ dict_keys blocks !! j = Some x.
Proof.
  intros Hnd. unfold block_edges.
  assert (H1 : ∀ n x, 0 < n → x ∈ opt_list (dict_keys blocks !! (i + n)) →
                 ∃ j, i < j ∧ dict_keys blocks !! j = Some x).
  { intros n x Hn Hx. destruct (dict_keys blocks !! (i + n)) as [y|] eqn:Hy;
      simpl in Hx; [|by apply elem_of_nil in Hx].
    apply list_elem_of_singleton in Hx as ->. exists (i + n). split; [lia|done]. }
  assert (H2 : ∀ n, length (opt_list (dict_keys blocks !! n)) ≤ 1).
  { intros n. by destruct (dict_keys blocks !! n); simpl; lia. }
  destruct (dict_get blocks id) as [b|]; simpl; [|done].
  destruct (list_last (code b)) as [ll|]; simpl; [|done].
  destruct (matches (re_match re_cond ll)).
  - destruct (else_search _ _ _) as [found|] eqn:Hs; simpl; [|done].
    intros [= <-]. unfold range in Hs. apply else_search_seq in Hs; [|done].
    split.
    + rewrite length_app. pose proof (H2 (i + 1)).
      destruct found; simpl; [lia|]. pose proof (H2 (i + 2)). lia.
    + intros x [Hx|Hx]%elem_of_app; [by apply (H1 1); [lia|]|].
      destruct found as [bj|]; [|by apply (H1 2); [lia|]].
      apply list_elem_of_singleton in Hx as ->.
      destruct Hs as (j & bjk & Hj & Hl & _). exists j. split; [lia|].
      apply blocks_lookup_key. eauto.
  - destruct (list_index (code b) 0) as [first|]; simpl; [|done].
    destruct (_ || _).
    + intros [= <-]. destruct (dict_keys blocks !! (i + 2)) as [mg|] eqn:Hmg.
      * split; [simpl; lia|]. intros x ->%list_elem_of_singleton.
        exists (i + 2). split; [lia|done].
      * split; [pose proof (H2 (i + 1)); lia|]. intros x Hx.
        by apply (H1 1); [lia|].
    + destruct (negb _); intros [= <-].
      * split; [pose proof (H2 (i + 1)); lia|]. intros x Hx.
        by apply (H1 1); [lia|].
      * split; [simpl; lia|]. by intros x ?%elem_of_nil.
Qed.

Lemma build_cfg_keys (blocks : dict block_info) (cfg : dict (list string)) :
  NoDup (dict_keys blocks) → build_cfg blocks = Ok cfg →
  dict_keys cfg = dict_keys blocks.
Proof.
  intros Hnd Hcfg. rewrite build_cfg_edges in Hcfg by done.
  apply bind_Ok in Hcfg as (ess & Hess & [= <-]).
  apply mapM_r_length in Hess. rewrite length_enumerate in Hess.
  unfold dict_keys at 1. rewrite fst_zip; [done|]. rewrite length_fmap. lia.
Qed.

(** An entry of the graph, read back: it is the sorted set of the edges of
    the block at the same position. *)
Lemma build_cfg_entry (blocks : dict block_info) (cfg : dict (list string))
    (i : nat) (id : string) (es : list string) :
  NoDup (dict_keys blocks) → build_cfg blocks = Ok cfg →
  cfg !! i = Some (id, es) →
  ∃ b es0, blocks !! i = Some (id, b)
           ∧ block_edges blocks (dict_keys blocks) (i, id) = Ok es0
           ∧ es = sorted_set es0.
Proof.
  intros Hnd Hcfg Hi.
  pose proof (build_cfg_keys blocks cfg Hnd Hcfg) as Hk.
  assert (Hid : dict_keys blocks !! i = Some id).
  { rewrite <- Hk. unfold dict_keys. by rewrite list_lookup_fmap, Hi. }
  apply blocks_lookup_key in Hid as [b Hb].
  destruct (build_cfg_lookup blocks cfg i id b Hnd Hcfg Hb) as (es0 & He & Hl & _).
  exists b, es0. rewrite Hi in Hl. by injection Hl as ->.
Qed.

(** X5: The graph that the CFG builder returns has the blocks as its nodes, in
    the order of the blocks; every block has at most two edges, and every
    edge leads to a later block. So the graph has no self-loop and no back
    edge, not even for a [while] or a [for], and its last block has no
    edge. *)
Theorem build_cfg_forward (blocks : dict block_info) (cfg : dict (list string)) :
  NoDup (dict_keys blocks) →
  build_cfg blocks = Ok cfg →
  dict_keys cfg = dict_keys blocks
  ∧ ∀ i id es, cfg !! i = Some (id, es) →
      length es ≤ 2
      ∧ ∀ x, x ∈ es → ∃ j, i < j ∧ dict_keys blocks !! j = Some x.
Proof.
  intros Hnd Hcfg. split; [by apply build_cfg_keys|].
  intros i id es Hi.
  destruct (build_cfg_entry blocks cfg i id es Hnd Hcfg Hi)
    as (b & es0 & Hb & He & ->).
  destruct (block_edges_forward blocks i id es0 Hnd He) as [Hlen Hfwd].
  split; [pose proof (length_sorted_set_le es0); lia|].
  intros x Hx. apply Hfwd. by apply elem_of_sorted_set.
Qed.

Lemma build_cfg_forward_witness :
  ∃ cfg,
    build_cfg if_else_blocks = Ok cfg
    ∧ dict_keys cfg = dict_keys if_else_blocks
    ∧ ∀ i id es, cfg !! i = Some (id, es) →
        length es ≤ 2
        ∧ ∀ x, x ∈ es → ∃ j, i < j ∧ dict_keys if_else_blocks !! j = Some x.
Proof.
  eexists. split; [by vm_compute|].
  apply (build_cfg_forward if_else_blocks).
  - by vm_compute; repeat constructor; set_solver.
  - by vm_compute.
Defined.

(** ** The two other rules of the CFG builder *)

(** X6: For a block whose last line opens no [if], [while] or [for] and whose
    first line contains [else] or [case], the graph has the one edge to the
    block two positions ahead when that block exists, otherwise the one
    edge to the next block when that exists, and otherwise no edge. *)
Theorem else_case_block_edges (blocks : dict block_info)
    (cfg : dict (list string)) (i : nat) (id : string) (b : block_info)
    (last_line : string) :
  NoDup (dict_keys blocks) →
  build_cfg blocks = Ok cfg →
  blocks !! i = Some (id, b) →
  last (code b) = Some last_line →
  matches (re_match re_cond last_line) = false →
  first_line_has "else" b || first_line_has "case" b = true →
  dict_get cfg id
  = Ok (match dict_keys blocks !! (i + 2) with
        | Some merge => [merge]
        | None => opt_list (dict_keys blocks !! (i + 1))
        end).
Proof.
  intros Hnd Hcfg Hi Hlast Hcond Hfirst.
  destruct (build_cfg_lookup blocks cfg i id b Hnd Hcfg Hi) as (es & Hes & _ & ->).
  unfold block_edges in Hes. rewrite (dict_get_lookup _ _ _ _ Hnd Hi) in Hes.
  cbn [mbind result_bind] in Hes.
  unfold list_last in Hes. rewrite Hlast in Hes. cbn [mbind result_bind] in Hes.
  rewrite Hcond in Hes. unfold first_line_has in Hfirst.
  destruct (code b) as [|first c]; [done|].
  change (list_index (first :: c) 0) with (Ok first) in Hes.
  cbn [mbind result_bind] in Hes. rewrite Hfirst in Hes. injection Hes as <-. f_equal.
  apply sorted_set_short.
  destruct (dict_keys blocks !! (i + 2)); [done|].
  by destruct (dict_keys blocks !! (i + 1)); simpl; lia.
Qed.

Lemma else_case_block_edges_witness :
  ∃ cfg, build_cfg if_else_blocks = Ok cfg
         ∧ dict_get cfg "B2"
           = Ok (match dict_keys if_else_blocks !! (2 + 2) with
                 | Some merge => [merge]
                 | None => opt_list (dict_keys if_else_blocks !! (2 + 1))
                 end).
Proof.
  eexists. split; [by vm_compute|].
  apply (else_case_block_edges if_else_blocks _ 2 "B2"
           {| code := ["else {"; "y = 2;"; "}"]; start_line := 2; end_line := 4 |}
           "}").
  - by vm_compute; repeat constructor; set_solver.
  - by vm_compute.
  - reflexivity.
  - reflexivity.
  - reflexivity.
  - reflexivity.
Defined.

(** X7: For any other block (its last line opens no [if], [while] or [for], its
    first line contains neither [else] nor [case]) the graph has no edge
    when the last line contains [return], [break] or [goto], also inside a
    longer word, and otherwise the one edge to the next block, when there
    is a next block. *)
Theorem fallthrough_block_edges (blocks : dict block_info)
    (cfg : dict (list string)) (i : nat) (id : string) (b : block_info)
    (last_line : string) :
  NoDup (dict_keys blocks) →
  build_cfg blocks = Ok cfg →
  blocks !! i = Some (id, b) →
  last (code b) = Some last_line →
  matches (re_match re_cond last_line) = false →
  first_line_has "else" b || first_line_has "case" b = false →
  dict_get cfg id
  = Ok (if any_in ["return"; "break"; "goto"] last_line then []
        else opt_list (dict_keys blocks !! (i + 1))).
Proof.
  intros Hnd Hcfg Hi Hlast Hcond Hfirst.
  destruct (build_cfg_lookup blocks cfg i id b Hnd Hcfg Hi) as (es & Hes & _ & ->).
  unfold block_edges in Hes. rewrite (dict_get_lookup _ _ _ _ Hnd Hi) in Hes.
  cbn [mbind result_bind] in Hes.
  unfold list_last in Hes. rewrite Hlast in Hes. cbn [mbind result_bind] in Hes.
  rewrite Hcond in Hes. unfold first_line_has in Hfirst.
  destruct (code b) as [|first c]; [done|].
  change (list_index (first :: c) 0) with (Ok first) in Hes.
  cbn [mbind result_bind] in Hes. rewrite Hfirst in Hes.
  destruct (any_in ["return"; "break"; "goto"] last_line); cbn [negb] in Hes;
    injection Hes as <-; f_equal; apply sorted_set_short;
    destruct (dict_keys blocks !! (i + 1)); simpl; lia.
Qed.

Lemma fallthrough_block_edges_witness :
  ∃ cfg, build_cfg if_else_blocks = Ok cfg
         ∧ dict_get cfg "B1"
           = Ok (if any_in ["return"; "break"; "goto"] "y = 1;" then []
                 else opt_list (dict_keys if_else_blocks !! (1 + 1))).
Proof.
  eexists. split; [by vm_compute|].
  apply (fallthrough_block_edges if_else_blocks _ 1 "B1"
           {| code := ["y = 1;"]; start_line := 1; end_line := 1 |} "y = 1;").
  - by vm_compute; repeat constructor; set_solver.
  - by vm_compute.
  - reflexivity.
  - reflexivity.
  - reflexivity.
  - reflexivity.
Defined.

(** ** Bounds on the metrics *)

Lemma sum_Z_le (l1 l2 : list Z) :
  Forall2 Z.le l1 l2 → (sum_Z l1 ≤ sum_Z l2)%Z.
Proof. unfold sum_Z. induction 1; simpl; lia. Qed.

Lemma sum_Z_nonneg (l : list Z) : Forall (Z.le 0) l → (0 ≤ sum_Z l)%Z.
Proof. unfold sum_Z. induction 1; simpl; lia. Qed.

Lemma sum_Z_chain2 (N : nat) :
  0 < N →
  sum_Z ((λ i, if i + 1 <? N then 2%Z else 0%Z) <$> seq 0 N)
  = (2 * (Z.of_nat N - 1))%Z.
Proof.
  intros HN. rewrite <- (sum_Z_chain N HN).
  generalize (seq 0 N). intros l. unfold sum_Z.
  induction l as [|i l IH]; [done|]. cbn [fmap list_fmap foldr].
  fold (fmap (M := list) (λ i, if i + 1 <? N then 2%Z else 0%Z) l).
  fold (fmap (M := list) (λ i, if i + 1 <? N then 1%Z else 0%Z) l).
  rewrite IH. destruct (i + 1 <? N); lia.
Qed.

(** X8: For every graph that the CFG builder computes from at least one
    block, E lies between 0 and 2 (N - 1), so that the cyclomatic
    complexity lies between 2 - N and N. *)
Theorem metrics_bounds (blocks : dict block_info) (cfg : dict (list string)) :
  NoDup (dict_keys blocks) →
  blocks ≠ [] →
  build_cfg blocks = Ok cfg →
  ∃ E, calculate_metrics cfg
       = (Z.of_nat (length blocks), E, (E - Z.of_nat (length blocks) + 2)%Z)
       ∧ (0 ≤ E ≤ 2 * (Z.of_nat (length blocks) - 1))%Z
       ∧ (2 - Z.of_nat (length blocks)
          ≤ E - Z.of_nat (length blocks) + 2
          ≤ Z.of_nat (length blocks))%Z.
Proof.
  intros Hnd Hne Hcfg.
  pose proof (build_cfg_keys blocks cfg Hnd Hcfg) as Hk.
  assert (Hfwd : ∀ i id es, cfg !! i = Some (id, es) →
            length es ≤ 2
            ∧ ∀ x, x ∈ es → ∃ j, i < j ∧ dict_keys blocks !! j = Some x).
  { intros i id es Hi.
    destruct (build_cfg_entry blocks cfg i id es Hnd Hcfg Hi)
      as (b & es0 & Hb & He & ->).
    destruct (block_edges_forward blocks i id es0 Hnd He) as [Hlen Hfwd].
    split; [pose proof (length_sorted_set_le es0); lia|].
    intros x Hx. apply Hfwd. by apply elem_of_sorted_set. }
  assert (Hlen : length cfg = length blocks).
  { apply (f_equal length) in Hk. unfold dict_keys in Hk.
    by rewrite !length_fmap in Hk. }
  assert (HN : 0 < length blocks) by (destruct blocks; [done|simpl; lia]).
  exists (sum_Z ((λ edges, Z.of_nat (length edges)) <$> dict_values cfg)).
  split; [unfold calculate_metrics; cbv zeta; by rewrite Hlen|].
  set (E := sum_Z _).
  assert (HE : (0 ≤ E ≤ 2 * (Z.of_nat (length blocks) - 1))%Z); [|lia].
  subst E. split.
  - apply sum_Z_nonneg. apply Forall_forall.
    intros z (es & -> & _)%list_elem_of_fmap. lia.
  - rewrite <- (sum_Z_chain2 (length blocks) HN). apply sum_Z_le.
    apply Forall2_same_length_lookup. split.
    { unfold dict_values. by rewrite !length_fmap, length_seq, Hlen. }
    intros i z1 z2. unfold dict_values. rewrite !list_lookup_fmap.
    destruct (cfg !! i) as [[id es]|] eqn:Hi; simpl; [|done].
    intros [= <-]. apply lookup_lt_Some in Hi as Hlt.
    rewrite lookup_seq_lt by lia. simpl. intros [= <-].
    destruct (Hfwd i id es Hi) as [Hle2 Hx].
    destruct (i + 1 <? length blocks) eqn:Hn; [lia|].
    apply Nat.ltb_ge in Hn. destruct es as [|x es]; [simpl; lia|].
    destruct (Hx x) as (j & Hj & Hjk); [left|].
    apply lookup_lt_Some in Hjk. unfold dict_keys in Hjk.
    rewrite length_fmap in Hjk. lia.
Qed.

Lemma metrics_bounds_witness :
  ∃ cfg E,
    build_cfg if_else_blocks = Ok cfg
    ∧ calculate_metrics cfg
      = (Z.of_nat (length if_else_blocks), E,
         (E - Z.of_nat (length if_else_blocks) + 2)%Z)
    ∧ (0 ≤ E ≤ 2 * (Z.of_nat (length if_else_blocks) - 1))%Z.
Proof.
  exists [("B0", ["B1"; "B2"]); ("B1", ["B2"]); ("B2", [])].
  destruct (metrics_bounds if_else_blocks
              [("B0", ["B1"; "B2"]); ("B1", ["B2"]); ("B2", [])])
    as (E & H1 & H2 & _).
  - by vm_compute; repeat constructor; set_solver.
  - done.
  - by vm_compute.
  - exists E. split; [by vm_compute|]. by split.
Defined.

(** ** What the definition finder records *)





(** X10: The index of the variables holds, for each of its variables, exactly
    the ids of the definitions of that variable, and every definition is in
    the entry of its variable; so the entries of two variables share no
    id. *)
Theorem var_to_defs_index (blocks : dict block_info) :
  ∃ definitions var_to_defs,
    find_definitions blocks = Ok (definitions, var_to_defs)
    ∧ (∀ v s d, dict_get var_to_defs v = Ok s →
                d ∈ s ↔ ∃ info, dict_get definitions d = Ok info
                                ∧ var info = v)
    ∧ (∀ d info, dict_get definitions d = Ok info →
                 ∃ s, dict_get var_to_defs (var info) = Ok s ∧ d ∈ s)
    ∧ ∀ v1 v2 s1 s2, dict_get var_to_defs v1 = Ok s1 →
                     dict_get var_to_defs v2 = Ok s2 → v1 ≠ v2 → s1 ## s2.
Proof.
  destruct (find_definitions_Ok blocks) as (D & VD & c & Hfind & Hinv).
  pose proof Hinv as ((Hc & Hkeys) & Hvd & Hdef).
  assert (HndD : NoDup (dict_keys D)).
  { rewrite Hkeys. apply NoDup_fmap_2; [|apply NoDup_seq].
    intros i j. apply def_name_inj. }
  assert (Hiff : ∀ v s d, dict_get VD v = Ok s →
                   d ∈ s ↔ ∃ info, dict_get D d = Ok info ∧ var info = v).
  { intros v s d Hs. rewrite (Hvd v s d Hs).
    split; intros (info & Hd & Hv); exists info; (split; [|done]);
      by apply (dict_get_elem D d info HndD). }
  exists D, VD. split; [done|]. split; [done|]. split.
  - intros d info Hd. apply (dict_get_elem D d info HndD) in Hd as Hd'.
    destruct (Hdef d info Hd') as [_ [s Hs]]. exists s. split; [done|].
    apply (Hiff _ _ d Hs). eauto.
  - intros v1 v2 s1 s2 H1 H2 Hne d Hd1 Hd2.
    apply (Hiff _ _ d H1) in Hd1 as (i1 & Hi1 & Hv1).
    apply (Hiff _ _ d H2) in Hd2 as (i2 & Hi2 & Hv2).
    rewrite Hi1 in Hi2. injection Hi2 as <-. congruence.
Qed.

(** ** What the gen and kill sets hold *)

(** X11: The gen/kill computer returns on the definitions of the blocks; [gen]
    and [kill] have one entry per block, in the order of the blocks;
    [gen[B]] holds exactly the definitions made in [B], and [kill[B]] holds
    exactly the definitions, of any block, of a variable that [B] defines
    by another definition. *)
Theorem gen_kill_contents (blocks : dict block_info) :
  NoDup (dict_keys blocks) →
  ∃ definitions var_to_defs gen kill,
    find_definitions blocks = Ok (definitions, var_to_defs)
    ∧ compute_gen_kill blocks definitions var_to_defs = Ok (gen, kill)
    ∧ dict_keys gen = dict_keys blocks
    ∧ dict_keys kill = dict_keys blocks
    ∧ ∀ B g k, dict_get gen B = Ok g → dict_get kill B = Ok k →
        (∀ d, d ∈ g ↔ ∃ info, dict_get definitions d = Ok info
                              ∧ block info = B)
        ∧ (∀ d, d ∈ k ↔ ∃ info d' info',
                  dict_get definitions d = Ok info
                  ∧ d' ≠ d ∧ dict_get definitions d' = Ok info'
                  ∧ block info' = B ∧ var info' = var info).
Proof.
  intros Hnd.
  destruct (find_definitions_Ok blocks) as (D & VD & c & Hfind & Hinv).
  destruct (compute_gen_kill_Ok blocks D VD c Hnd Hinv)
    as (HndD & gen & kill & Hgk & Hkg & Hkk & Hgen & Hkill).
  destruct Hinv as (_ & Hvd & Hdef).
  exists D, VD, gen, kill. split_and!; try done.
  intros B g k Hg Hk. split; intros d.
  - rewrite (Hgen _ _ d Hg).
    split; intros (info & Hd & Hb); exists info; (split; [|done]);
      by apply (dict_get_elem D d info HndD).
  - rewrite (Hkill _ _ d Hk). split.
    + intros (d' & info' & vs & Hd' & Hb' & Hvs & Hin & Hne).
      apply (Hvd _ _ d Hvs) in Hin as (info & Hd & Hv).
      exists info, d', info'.
      apply (dict_get_elem D d info HndD) in Hd.
      apply (dict_get_elem D d' info' HndD) in Hd'. by split_and!.
    + intros (info & d' & info' & Hd & Hne & Hd' & Hb' & Hv).
      apply (dict_get_elem D d info HndD) in Hd.
      apply (dict_get_elem D d' info' HndD) in Hd'.
      destruct (Hdef _ _ Hd') as [_ [vs Hvs]].
      exists d', info', vs.
      split_and!;
        first [done | by intros -> | by apply (Hvd _ _ d Hvs); eauto].
Qed.

Lemma gen_kill_contents_witness :
  ∃ definitions var_to_defs gen kill,
    find_definitions if_else_blocks = Ok (definitions, var_to_defs)
    ∧ compute_gen_kill if_else_blocks definitions var_to_defs = Ok (gen, kill)
    ∧ dict_keys gen = dict_keys if_else_blocks
    ∧ dict_keys kill = dict_keys if_else_blocks.
Proof.
  destruct (gen_kill_contents if_else_blocks)
    as (D & VD & gen & kill & H1 & H2 & H3 & H4 & _).
  - by vm_compute; repeat constructor; set_solver.
  - exists D, VD, gen, kill. by split_and!.
Defined.

(** ** Predecessors *)

Lemma preds_edges_loop (keys : list string) (P : dict (list string))
    (node : string) :
  ∀ (edges done : list string) (preds : dict (list string)),
    (∀ x, x ∈ edges → x ∈ keys) →
    preds_inv keys P (λ p b, p = node ∧ b ∈ done) preds →
    ∃ preds',
      foldM (λ preds edge, dict_append preds edge node) preds edges = Ok preds'
      ∧ preds_inv keys P (λ p b, p = node ∧ b ∈ done ++ edges) preds'.
Proof.
  induction edges as [|edge edges IH]; intros dn preds Hk Hinv.
  - exists preds. split; [done|]. by rewrite app_nil_r.
  - destruct Hinv as [Hkeys Hmem].
    assert (He : edge ∈ dict_keys preds) by (rewrite Hkeys; apply Hk; left).
    apply dict_get_is_Ok in He as Hl. destruct Hl as [l Hl].
    destruct (IH (dn ++ [edge]) (dict_set preds edge (l ++ [node])))
      as (preds' & Hfold & Hinv').
    + intros x Hx. apply Hk. by right.
    + split; [by rewrite dict_keys_set|].
      intros b ps p. destruct (decide (edge = b)) as [->|Hne].
      * rewrite dict_get_set_eq. intros [= <-].
        rewrite elem_of_app, list_elem_of_singleton, (Hmem b l p Hl).
        rewrite elem_of_app, list_elem_of_singleton. naive_solver.
      * rewrite dict_get_set_ne by done. intros Hps.
        rewrite (Hmem b ps p Hps), elem_of_app, list_elem_of_singleton.
        naive_solver.
    + assert (Hstep : dict_append preds edge node
                      = Ok (dict_set preds edge (l ++ [node])))
        by (unfold dict_append; by rewrite Hl).
      exists preds'. cbn [foldM]. rewrite Hstep.
      cbn [mbind result_bind]. split; [done|].
      by rewrite <- app_assoc in Hinv'.
Qed.

Lemma preds_nodes_loop (keys : list string) :
  ∀ (Q P : dict (list string)) (preds : dict (list string)),
    NoDup (dict_keys (P ++ Q)) →
    (∀ node edges x, (node, edges) ∈ Q → x ∈ edges → x ∈ keys) →
    preds_inv keys P (λ _ _, False) preds →
    ∃ preds',
      foldM (λ preds '(node, edges),
               foldM (λ preds edge, dict_append preds edge node) preds edges)
            preds Q = Ok preds'
      ∧ preds_inv keys (P ++ Q) (λ _ _, False) preds'.
Proof.
  induction Q as [|[node edges] Q IH]; intros P preds Hnd Hk Hinv.
  - exists preds. split; [done|]. by rewrite app_nil_r.
  - destruct (preds_edges_loop keys P node edges [] preds)
      as (preds1 & Hfold1 & [Hkeys1 Hmem1]).
    { intros x Hx. eapply Hk; [left|done]. }
    { destruct Hinv as [? Hmem]. split; [done|]. intros b ps p Hps.
      rewrite (Hmem b ps p Hps). split; [tauto|].
      intros [?|[_ ?%elem_of_nil]]; [by left|done]. }
    destruct (IH (P ++ [(node, edges)]) preds1) as (preds' & Hfold & Hinv').
    + by rewrite <- app_assoc.
    + intros n es x Hin. eapply Hk. by right.
    + split; [done|]. intros b ps p Hps. rewrite (Hmem1 b ps p Hps).
      simpl. split.
      * intros [(es & Hin & Hb)|[-> Hb]]; left.
        -- exists es. split; [|done]. apply elem_of_app. by left.
        -- exists edges. split; [|done]. apply elem_of_app. right. left.
      * intros [(es & [Hin|Hin%list_elem_of_singleton]%elem_of_app & Hb)|[]].
        -- left. eauto.
        -- injection Hin as -> ->. by right.
    + exists preds'. cbn [foldM]. rewrite Hfold1. cbn [mbind result_bind].
      split; [done|]. by rewrite <- app_assoc in Hinv'.
Qed.

(** The predecessors of a graph whose edges lead to nodes. *)
Lemma get_predecessors_edges (cfg : dict (list string)) :
  NoDup (dict_keys cfg) →
  (∀ node edges x, (node, edges) ∈ cfg → x ∈ edges → x ∈ dict_keys cfg) →
  ∃ predecessors,
    get_predecessors cfg = Ok predecessors
    ∧ dict_keys predecessors = dict_keys cfg
    ∧ ∀ b ps p, dict_get predecessors b = Ok ps →
                p ∈ ps ↔ ∃ edges, dict_get cfg p = Ok edges ∧ b ∈ edges.
Proof.
  intros Hnd Hk. unfold get_predecessors.
  destruct (preds_nodes_loop (dict_keys cfg) cfg []
              (dict_init (dict_keys cfg) [])) as (preds & Hfold & Hkeys & Hmem).
  - done.
  - done.
  - split; [by apply dict_keys_init_NoDup|].
    intros b ps p Hps%dict_get_init_inv. subst ps. split.
    + by intros ?%elem_of_nil.
    + intros [(es & ?%elem_of_nil & _)|[]]. done.
  - exists preds. split; [done|]. split; [done|].
    intros b ps p Hps. rewrite (Hmem b ps p Hps). simpl. split.
    + intros [(es & Hin & Hb)|[]]. exists es. split; [|done].
      by apply dict_get_elem.
    + intros (es & Hin & Hb). left. exists es. split; [|done].
      by apply dict_get_elem.
Qed.

(** X12: When every edge of the graph leads to a node, [get_predecessors]
    returns the inverse of the edge relation: every node has its list, in
    the order of the nodes, and [p] is in the list of [b] exactly when the
    graph has an edge from [p] to [b]. *)
Theorem get_predecessors_inverse (cfg : dict (list string)) :
  NoDup (dict_keys cfg) →
  (∀ node edges x, (node, edges) ∈ cfg → x ∈ edges → x ∈ dict_keys cfg) →
  ∃ predecessors,
    get_predecessors cfg = Ok predecessors
    ∧ dict_keys predecessors = dict_keys cfg
    ∧ (∀ b, b ∈ dict_keys cfg → ∃ ps, dict_get predecessors b = Ok ps)
    ∧ ∀ b ps p, dict_get predecessors b = Ok ps →
                p ∈ ps ↔ ∃ edges, dict_get cfg p = Ok edges ∧ b ∈ edges.
Proof.
  intros Hnd Hk.
  destruct (get_predecessors_edges cfg Hnd Hk) as (preds & Hp & Hkeys & Hmem).
  exists preds. split_and!; [done|done| |done].
  intros b Hb. apply dict_get_is_Ok. by rewrite Hkeys.
Qed.

Lemma get_predecessors_inverse_witness :
  ∃ predecessors,
    get_predecessors [("B0", ["B1"; "B2"]); ("B1", ["B2"]); ("B2", [])]
    = Ok predecessors
    ∧ dict_keys predecessors = ["B0"; "B1"; "B2"].
Proof.
  destruct (get_predecessors_inverse
              [("B0", ["B1"; "B2"]); ("B1", ["B2"]); ("B2", [])])
    as (preds & H1 & H2 & _).
  - by vm_compute; repeat constructor; set_solver.
  - intros node edges x Hin Hx.
    repeat (apply elem_of_cons in Hin as [[= -> ->]|Hin]);
      [..|by apply elem_of_nil in Hin];
      repeat (apply elem_of_cons in Hx as [->|Hx]);
      try (by apply elem_of_nil in Hx); vm_compute; set_solver.
  - exists preds. by split.
Defined.

Lemma foldM_Ok_steps {A B : Type} (I : A → Prop) (Q : B → Prop)
    (f : A → B → result A) (l : list B) :
  (∀ a x a1, x ∈ l → I a → f a x = Ok a1 → I a1 ∧ Q x) →
  ∀ a a', I a → foldM f a l = Ok a' → I a' ∧ Forall Q l.
Proof.
  induction l as [|x l IH]; intros Hf a a' Ha; simpl.
  - intros [= <-]. by split.
  - intros (a1 & Hstep & Hfold)%bind_Ok.
    destruct (Hf a x a1) as [Ha1 Hx]; [left|done|done|].
    destruct (IH (λ a x a1 Hx, Hf a x a1 (list_elem_of_further _ _ _ Hx))
                a1 a' Ha1 Hfold) as [Ha' Hl].
    split; [done|]. by constructor.
Qed.

Lemma foldM_Raise {A B : Type} (f : A → B → result A) (l : list B)
    (a : A) (e : exn) :
  foldM f a l = Raise e → ∃ a0 x, x ∈ l ∧ f a0 x = Raise e.
Proof.
  revert a. induction l as [|x l IH]; intros a; simpl; [done|].
  destruct (f a x) as [a1|e'] eqn:Hx; simpl.
  - intros (a0 & x' & Hin & Hr)%IH. exists a0, x'. split; [by right|done].
  - intros [= <-]. exists a, x. split; [left|done].
Qed.

(** X13: [get_predecessors] returns exactly when every edge of the graph leads
    to a node; otherwise it raises [KeyError]. *)
Theorem get_predecessors_raises (cfg : dict (list string)) :
  match get_predecessors cfg with
  | Ok _ => ∀ node edges x, (node, edges) ∈ cfg → x ∈ edges →
                            x ∈ dict_keys cfg
  | Raise e => e = KeyError
               ∧ ∃ node edges x, (node, edges) ∈ cfg ∧ x ∈ edges
                                 ∧ x ∉ dict_keys cfg
  end.
Proof.
  destruct (get_predecessors cfg) as [preds|e] eqn:Hp.
  - unfold get_predecessors in Hp.
    apply (foldM_Ok_steps
             (λ preds : dict (list string),
                ∀ b, b ∈ dict_keys preds → b ∈ dict_keys cfg)
             (λ ne : string * list string,
                ∀ x, x ∈ ne.2 → x ∈ dict_keys cfg)) in Hp as [_ Hall].
    + intros node edges x Hin Hx. rewrite Forall_forall in Hall.
      by apply (Hall (node, edges)).
    + intros ps [node edges] ps1 _ Hps Hfold.
      apply (foldM_Ok_steps
               (λ preds : dict (list string),
                  ∀ b, b ∈ dict_keys preds → b ∈ dict_keys cfg)
               (λ x : string, x ∈ dict_keys cfg)) in Hfold as [H1 H2].
      * split; [done|]. simpl. by rewrite Forall_forall in H2.
      * intros ps0 edge ps2 _ Hps0 Happ. unfold dict_append in Happ.
        apply bind_Ok in Happ as (l & Hl & [= <-]).
        assert (He : edge ∈ dict_keys ps0) by (apply dict_get_is_Ok; eauto).
        split; [|by apply Hps0]. by rewrite dict_keys_set.
      * done.
    + intros b Hb. by apply dict_keys_init_elem in Hb.
  - assert (He : e = KeyError).
    { unfold get_predecessors in Hp.
      apply foldM_Raise in Hp as (ps0 & [node edges] & _ & Hr).
      apply foldM_Raise in Hr as (ps1 & edge & _ & Hr).
      unfold dict_append in Hr.
      destruct (dict_get ps1 edge) as [l|e'] eqn:Hl; [done|].
      injection Hr as <-. by apply dict_get_Raise in Hl as [-> _]. }
    split; [done|].
    destruct (decide (Forall (λ ne : string * list string,
                                Forall (λ x, x ∈ dict_keys cfg) ne.2) cfg))
      as [Hall|Hnot].
    + destruct (get_predecessors_total cfg) as (preds & Hok & _).
      * intros node edges x Hin Hx. rewrite Forall_forall in Hall.
        specialize (Hall _ Hin). rewrite Forall_forall in Hall. by apply Hall.
      * congruence.
    + apply not_Forall_Exists in Hnot; [|apply _].
      apply Exists_exists in Hnot as ([node edges] & Hin & Hnot).
      apply not_Forall_Exists in Hnot; [|apply _].
      apply Exists_exists in Hnot as (x & Hx & Hnotin).
      exists node, edges, x. done.
Qed.

(** ** What the solver returns *)

Section solution.
Context (predecessors : dict (list string)) (gen kill : dict (gset string)).
Implicit Types (ins outs sol : dict (gset string)) (b : string) (ch : bool).

Local Notation step := (rd_step predecessors gen kill).
Local Notation F := (transfer predecessors gen kill).

(** The out sets stay below every solution of the equations. *)
Lemma rd_fold_below sol (l : list string) :
  (∀ b, F sol b ⊆ set_at sol b) →
  ∀ ins outs ch ins' outs' ch',
    foldM step (ins, outs, ch) l = Ok (ins', outs', ch') →
    out_le outs sol → out_le outs' sol.
Proof.
  intros Hsol. induction l as [|b l IH]; intros ins outs ch ins' outs' ch'.
  - by intros [= <- <- <-].
  - cbn [foldM]. intros ([[ins1 outs1] ch1] & Hstep & Hfold)%bind_Ok Hle.
    apply rd_step_transfer in Hstep as [-> _].
    eapply IH; [done|]. intros b'. rewrite set_at_set. case_decide; [|done].
    subst. etrans; [by apply transfer_mono | apply Hsol].
Qed.

Lemma rd_loop_below sol (blocks : dict block_info) (fuel : nat) :
  (∀ b, F sol b ⊆ set_at sol b) →
  ∀ ins outs ins' outs',
    rd_loop fuel blocks predecessors gen kill ins outs = Some (Ok (ins', outs')) →
    out_le outs sol → out_le outs' sol.
Proof.
  intros Hsol. induction fuel as [|fuel IH]; intros ins outs ins' outs'; [done|].
  cbn [rd_loop].
  destruct (rd_pass _ _ _ _ _ _) as [[[ins1 outs1] ch]|e] eqn:Hpass; [|done].
  intros Hloop Hle. unfold rd_pass in Hpass.
  pose proof (rd_fold_below sol _ Hsol _ _ _ _ _ _ Hpass Hle) as Hle1.
  destruct ch; [by eapply IH|]. by injection Hloop as <- <-.
Qed.

Lemma rd_loop_bounded (blocks : dict block_info) (fuel : nat) :
  ∀ ins outs ins' outs',
    rd_loop fuel blocks predecessors gen kill ins outs = Some (Ok (ins', outs')) →
    pre_fixpoint predecessors gen kill outs → bounded gen outs →
    bounded gen outs'.
Proof.
  induction fuel as [|fuel IH]; intros ins outs ins' outs'; [done|].
  cbn [rd_loop].
  destruct (rd_pass _ _ _ _ _ _) as [[[ins1 outs1] ch]|e] eqn:Hpass; [|done].
  intros Hloop Hpre Hbd. unfold rd_pass in Hpass.
  destruct (rd_fold_grows predecessors gen kill (dict_keys blocks) _ _ _ _ _ _ _
              (λ b Hb, Hb) Hpre Hbd Hpass) as (Hpre1 & Hbd1 & _).
  destruct ch; [by eapply IH|]. by injection Hloop as <- <-.
Qed.

(** When the loop returns, every block of the pass is stable. *)
Lemma rd_loop_stable (blocks : dict block_info) (fuel : nat) ins outs ins' outs' :
  rd_loop fuel blocks predecessors gen kill ins outs = Some (Ok (ins', outs')) →
  ∀ b, b ∈ dict_keys blocks → stable predecessors gen kill ins' outs' b.
Proof.
  intros (ins0 & outs0 & Hpass)%rd_loop_last. unfold rd_pass in Hpass.
  by apply rd_fold_unchanged in Hpass as [-> Hst].
Qed.

(** At a stable block the two equations of the pass hold. *)
Lemma stable_equations ins outs b :
  stable predecessors gen kill ins outs b →
  set_at outs b = F outs b
  ∧ dict_get ins b = Ok (⋃ (set_at outs <$> list_at predecessors b)).
Proof.
  intros Hst. pose proof Hst as Hst'. apply rd_step_transfer in Hst' as [_ Hch].
  split; [by case_bool_decide|].
  apply rd_step_Ok in Hst
    as (ps & ni & oo & g & k & Hps & Hni & _ & _ & _ & Hins & _).
  apply union_out_Ok in Hni. unfold list_at. rewrite Hps, <- Hni, Hins.
  apply dict_get_set_eq.
Qed.
End solution.

(** X14: When the solver returns, its sets are a solution of the equations
    [in[B] = union of out[P] for P in pred[B]] and
    [out[B] = gen[B] ∪ (in[B] - kill[B])] at every block, and the out sets
    are the least such: they are included, block by block, in every family
    of sets that is closed under these equations. *)
Theorem solver_least_solution (fuel : nat) (blocks : dict block_info)
    (cfg : dict (list string)) (gen kill in_sets out_sets : dict (gset string)) :
  reaching_definitions_analysis fuel blocks cfg gen kill
  = Some (Ok (in_sets, out_sets)) →
  ∃ predecessors,
    get_predecessors cfg = Ok predecessors
    ∧ (∀ b, b ∈ dict_keys blocks →
            dict_get in_sets b
            = Ok (⋃ (set_at out_sets <$> list_at predecessors b))
            ∧ set_at out_sets b = transfer predecessors gen kill out_sets b)
    ∧ ∀ sol, (∀ b, transfer predecessors gen kill sol b ⊆ set_at sol b) →
             ∀ b, set_at out_sets b ⊆ set_at sol b.
Proof.
  unfold reaching_definitions_analysis.
  destruct (get_predecessors cfg) as [preds|e]; [|done].
  intros Hloop. exists preds. split; [done|]. split.
  - intros b Hb.
    destruct (stable_equations preds gen kill in_sets out_sets b); [|done].
    by eapply rd_loop_stable.
  - intros sol Hsol. eapply rd_loop_below; [done..|].
    intros b. rewrite set_at_init. set_solver.
Qed.

Lemma solver_least_solution_witness :
  ∃ predecessors,
    get_predecessors [("B0", [])] = Ok predecessors
    ∧ ∀ b, b ∈ ["B0"] →
           dict_get [("B0", ∅)] b
           = Ok (⋃ (set_at [("B0", {["d1"]})] <$> list_at predecessors b))
           ∧ set_at [("B0", {["d1"]})] b
             = transfer predecessors [("B0", {["d1"]})] [("B0", ∅)]
                 [("B0", {["d1"]})] b.
Proof.
  destruct (solver_least_solution 3
              [("B0", {| code := ["x = 1;"]; start_line := 0; end_line := 0 |})]
              [("B0", [])] [("B0", {["d1"]})] [("B0", ∅)]
              [("B0", ∅)] [("B0", {["d1"]})])
    as (preds & H1 & H2 & _); [by vm_compute|].
  exists preds. by split.
Defined.

(** X15: When the solver returns, every block has in its out set all that it
    generates, and its in and out sets hold nothing but ids that some gen
    set holds: the solver invents no definition. *)
Theorem solver_sets_bounded (fuel : nat) (blocks : dict block_info)
    (cfg : dict (list string)) (gen kill in_sets out_sets : dict (gset string)) :
  reaching_definitions_analysis fuel blocks cfg gen kill
  = Some (Ok (in_sets, out_sets)) →
  ∀ b, b ∈ dict_keys blocks →
    set_at gen b ⊆ set_at out_sets b
    ∧ set_at out_sets b ⊆ universe gen
    ∧ set_at in_sets b ⊆ universe gen.
Proof.
  unfold reaching_definitions_analysis.
  destruct (get_predecessors cfg) as [preds|e]; [|done].
  intros Hloop b Hb.
  assert (Hbd : bounded gen out_sets).
  { eapply rd_loop_bounded; [done| |];
      intros b'; rewrite set_at_init; set_solver. }
  destruct (stable_equations preds gen kill in_sets out_sets b) as [Hout Hin].
  { by eapply rd_loop_stable. }
  split_and!.
  - rewrite Hout. unfold transfer. set_solver.
  - apply Hbd.
  - unfold set_at at 1. rewrite Hin.
    intros x (X & (p & -> & Hp)%list_elem_of_fmap & Hx)%elem_of_union_list.
    by apply (Hbd p).
Qed.

Lemma solver_sets_bounded_witness :
  set_at [("B0", {["d1"]})] "B0" ⊆ set_at [("B0", {["d1"]})] "B0"
  ∧ set_at [("B0", {["d1"]})] "B0" ⊆ universe [("B0", {["d1"]})]
  ∧ set_at [("B0", ∅)] "B0" ⊆ universe [("B0", {["d1"]})].
Proof.
  apply (solver_sets_bounded 3
           [("B0", {| code := ["x = 1;"]; start_line := 0; end_line := 0 |})]
           [("B0", [])] [("B0", {["d1"]})] [("B0", ∅)]
           [("B0", ∅)] [("B0", {["d1"]})]).
  - by vm_compute.
  - vm_compute. left.
Defined.

(** ** The solver on the graphs of the CFG builder *)

Lemma union_out_ext (outs outs' : dict (gset string)) (ps : list string) :
  (∀ p, p ∈ ps → dict_get outs' p = dict_get outs p) →
  union_out outs' ps = union_out outs ps.
Proof.
  unfold union_out. generalize (∅ : gset string).
  induction ps as [|p ps IH]; intros acc Hps; [done|].
  cbn [foldM]. rewrite (Hps p) by left.
  destruct (dict_get outs p) as [o|e]; [|done]. cbn [mbind result_bind].
  apply IH. intros q Hq. apply Hps. by right.
Qed.

Section forward_graph.
Context (predecessors : dict (list string)) (gen kill : dict (gset string)).
Context (keys : list string).
Hypothesis Hnd : NoDup keys.
Hypothesis Hfwd : ∀ i j b p ps,
  keys !! i = Some b → dict_get predecessors b = Ok ps → p ∈ ps →
  keys !! j = Some p → j < i.
Implicit Types (ins outs : dict (gset string)) (b : string) (ch : bool).

Local Notation step := (rd_step predecessors gen kill).

(** Stability at [b] survives an update at a block that is neither [b] nor
    one of its predecessors. *)
Lemma stable_other ins outs b b' ni v :
  stable predecessors gen kill ins outs b →
  b ≠ b' →
  (∀ ps, dict_get predecessors b = Ok ps → b' ∉ ps) →
  stable predecessors gen kill (dict_set ins b' ni) (dict_set outs b' v) b.
Proof.
  intros Hst Hne Hps'.
  apply rd_step_Ok in Hst
    as (ps & ni0 & oo & g & k & Hps & Hni & Hoo & Hg & Hk & Hins & Houts & Hch).
  assert (Hib : dict_get ins b = Ok ni0).
  { rewrite Hins. apply dict_get_set_eq. }
  assert (Hob : dict_get outs b = Ok (g ∪ (ni0 ∖ k))).
  { rewrite Houts. apply dict_get_set_eq. }
  apply rd_step_Ok. exists ps, ni0, oo, g, k. split_and!; try done.
  - rewrite <- Hni. apply union_out_ext. intros p Hp.
    apply dict_get_set_ne. intros ->. by apply (Hps' ps).
  - by rewrite dict_get_set_ne.
  - symmetry. apply dict_set_id. by rewrite dict_get_set_ne.
  - symmetry. apply dict_set_id. by rewrite dict_get_set_ne.
Qed.

(** A step at a block that is not its own predecessor leaves it stable. *)
Lemma stable_self ins outs ch b ins' outs' ch' :
  step (ins, outs, ch) b = Ok (ins', outs', ch') →
  (∀ ps, dict_get predecessors b = Ok ps → b ∉ ps) →
  stable predecessors gen kill ins' outs' b.
Proof.
  intros Hstep Hps'.
  apply rd_step_Ok in Hstep
    as (ps & ni & oo & g & k & Hps & Hni & Hoo & Hg & Hk & -> & -> & _).
  apply rd_step_Ok. exists ps, ni, (g ∪ (ni ∖ k)), g, k. split_and!; try done.
  - rewrite <- Hni. apply union_out_ext. intros p Hp.
    apply dict_get_set_ne. intros ->. by apply (Hps' ps).
  - apply dict_get_set_eq.
  - by rewrite dict_set_set.
  - by rewrite dict_set_set.
  - rewrite bool_decide_eq_false_2; [done|]. by intros ?.
Qed.

(** A pass in the order of the keys leaves every block stable: a block is
    visited after all its predecessors. *)
Lemma forward_pass_stable (Q : list string) :
  ∀ (P : list string) ins outs ch ins' outs' ch',
    keys = P ++ Q →
    (∀ b, b ∈ P → stable predecessors gen kill ins outs b) →
    foldM step (ins, outs, ch) Q = Ok (ins', outs', ch') →
    ∀ b, b ∈ keys → stable predecessors gen kill ins' outs' b.
Proof.
  induction Q as [|b0 Q IH]; intros P ins outs ch ins' outs' ch' Hk HP.
  - intros [= <- <- <-] b Hb. rewrite Hk, app_nil_r in Hb. by apply HP.
  - cbn [foldM]. intros ([[ins1 outs1] ch1] & Hstep & Hfold)%bind_Ok.
    assert (Hb0 : keys !! length P = Some b0).
    { rewrite Hk. by rewrite list_lookup_middle. }
    apply (IH (P ++ [b0]) ins1 outs1 ch1 ins' outs' ch'); [|  |done].
    { by rewrite <- app_assoc. }
    intros b [Hb| ->%list_elem_of_singleton]%elem_of_app.
    + apply rd_step_Ok in Hstep
        as (ps & ni & oo & g & k & _ & _ & _ & _ & _ & -> & -> & _).
      apply list_elem_of_lookup in Hb as Hi. destruct Hi as [i Hi].
      pose proof (lookup_lt_Some _ _ _ Hi) as Hlt.
      assert (Hbi : keys !! i = Some b).
      { rewrite Hk. by rewrite lookup_app_l. }
      apply stable_other; [by apply HP| |].
      * intros ->. pose proof (NoDup_lookup _ _ _ _ Hnd Hbi Hb0). lia.
      * intros ps' Hps' Hin.
        pose proof (Hfwd i (length P) b b0 ps' Hbi Hps' Hin Hb0). lia.
    + eapply stable_self; [done|]. intros ps Hps Hin.
      pose proof (Hfwd _ _ _ _ _ Hb0 Hps Hin Hb0). lia.
Qed.

(** Two passes are enough: the first one leaves every block stable, so the
    second one changes nothing. *)
Lemma rd_loop_two_passes (blocks : dict block_info) ins outs :
  dict_keys blocks = keys →
  ∃ r, rd_loop 2 blocks predecessors gen kill ins outs = Some r.
Proof.
  intros Hkeys. cbn [rd_loop].
  destruct (rd_pass _ _ _ _ _ _) as [[[ins1 outs1] ch]|e] eqn:Hpass; [|eauto].
  destruct ch; [|eauto]. unfold rd_pass in *. rewrite Hkeys in *.
  rewrite (stable_pass predecessors gen kill keys ins1 outs1); [eauto|].
  eapply (forward_pass_stable keys []); [done| |done].
  by intros b ?%elem_of_nil.
Qed.
End forward_graph.

(** In the graph of the CFG builder, the predecessors of a block come
    before it in the order of the blocks. *)
Lemma cfg_predecessors_earlier (blocks : dict block_info)
    (cfg predecessors : dict (list string)) :
  NoDup (dict_keys blocks) → build_cfg blocks = Ok cfg →
  get_predecessors cfg = Ok predecessors →
  dict_keys predecessors = dict_keys blocks
  ∧ ∀ b ps p, dict_get predecessors b = Ok ps → p ∈ ps →
      ∃ j i, j < i ∧ dict_keys blocks !! j = Some p
             ∧ dict_keys blocks !! i = Some b.
Proof.
  intros Hnd Hcfg Hpreds.
  pose proof (build_cfg_keys blocks cfg Hnd Hcfg) as Hk.
  assert (Hedge : ∀ node edges x, (node, edges) ∈ cfg → x ∈ edges →
            ∃ j i, j < i ∧ dict_keys blocks !! j = Some node
                   ∧ dict_keys blocks !! i = Some x).
  { intros node edges x [j Hj]%list_elem_of_lookup Hx.
    destruct (build_cfg_entry blocks cfg j node edges Hnd Hcfg Hj)
      as (bi & es0 & Hb & Hes & ->).
    rewrite elem_of_sorted_set in Hx.
    destruct (block_edges_forward blocks j node es0 Hnd Hes) as [_ Hf].
    destruct (Hf x Hx) as (i & Hlt & Hi). exists j, i. split_and!; [done| |done].
    unfold dict_keys. by rewrite list_lookup_fmap, Hb. }
  destruct (get_predecessors_edges cfg) as (preds & Hp & Hkp & Hmem).
  { by rewrite Hk. }
  { intros node edges x Hin Hx. rewrite Hk.
    destruct (Hedge node edges x Hin Hx) as (j & i & _ & _ & Hi).
    by eapply list_elem_of_lookup_2. }
  rewrite Hpreds in Hp. injection Hp as <-. split; [by rewrite Hkp|].
  intros b ps p Hb Hin. apply (Hmem b ps p Hb) in Hin as (edges & He & Hbe).
  apply dict_get_Ok_elem in He. by eapply Hedge.
Qed.

(** What a run that returns went through. *)
Lemma main_Ok_inv (fuel : nat) (lines : list string) (a : analysis) :
  main fuel lines = Some (Ok a) →
  ∃ leaders var_to_defs,
    find_leaders lines = Ok leaders
    ∧ create_basic_blocks lines leaders = Ok (a_blocks a)
    ∧ build_cfg (a_blocks a) = Ok (a_cfg a)
    ∧ find_definitions (a_blocks a) = Ok (a_definitions a, var_to_defs)
    ∧ compute_gen_kill (a_blocks a) (a_definitions a) var_to_defs
      = Ok (a_gen a, a_kill a)
    ∧ reaching_definitions_analysis fuel (a_blocks a) (a_cfg a)
        (a_gen a) (a_kill a) = Some (Ok (a_in a, a_out a)).
Proof.
  unfold main.
  destruct (find_leaders lines) as [L|] eqn:HL; [|done]. cbn [mbind result_bind].
  destruct (create_basic_blocks lines L) as [blocks|] eqn:Hb; [|done].
  cbn [mbind result_bind].
  destruct (build_cfg blocks) as [cfg|] eqn:Hcfg; [|done]. cbn [mbind result_bind].
  destruct (find_definitions blocks) as [[D VD]|] eqn:Hfd; [|done].
  cbn [mbind result_bind fst snd].
  destruct (compute_gen_kill blocks D VD) as [[gen kill]|] eqn:Hgk; [|done].
  cbn [mbind result_bind].
  destruct (reaching_definitions_analysis fuel blocks cfg gen kill)
    as [[[ins outs]|]|] eqn:Hrd; [|done..].
  intros [= <-]. simpl. by exists L, VD.
Qed.

Lemma main_two_passes (lines : list string) :
  lines ≠ [] → ∃ a, main 2 lines = Some (Ok a).
Proof.
  intros Hne.
  destruct (pipeline_blocks lines Hne) as (L & blocks & HL & Hblocks & Hnd & Hcode).
  destruct (build_cfg_total blocks Hnd Hcode) as (cfg & Hcfg & Hkeys & Hedges).
  destruct (find_definitions_Ok blocks) as (D & VD & c & Hfind & Hinv).
  destruct (compute_gen_kill_Ok blocks D VD c Hnd Hinv)
    as (_ & gen & kill & Hgk & Hkg & Hkk & _).
  destruct (get_predecessors_total cfg) as (preds & Hpreds & Hp1 & Hp2).
  { intros node edges x Hin Hx. rewrite Hkeys. eauto. }
  destruct (cfg_predecessors_earlier blocks cfg preds Hnd Hcfg Hpreds)
    as [_ Hearlier].
  destruct (rd_loop_two_passes preds gen kill (dict_keys blocks) Hnd) with
    (blocks := blocks) (ins := dict_init (dict_keys blocks) (∅ : gset string))
    (outs := dict_init (dict_keys blocks) (∅ : gset string)) as [r Hr];
    [|done|].
  { intros i j b p ps Hi Hb Hp Hj.
    destruct (Hearlier b ps p Hb Hp) as (j' & i' & Hlt & Hj' & Hi').
    pose proof (NoDup_lookup _ _ _ _ Hnd Hi Hi').
    pose proof (NoDup_lookup _ _ _ _ Hnd Hj Hj'). lia. }
  assert (H1 : ∀ b, b ∈ dict_keys blocks → b ∈ dict_keys preds).
  { intros b Hb. apply Hp1. by rewrite Hkeys. }
  assert (H2 : ∀ b ps p, dict_get preds b = Ok ps → p ∈ ps →
                         p ∈ dict_keys blocks).
  { intros b ps p Hb Hp. rewrite <- Hkeys. eauto. }
  assert (H3 : ∀ b, b ∈ dict_keys blocks → b ∈ dict_keys gen).
  { intros b Hb. by rewrite Hkg. }
  assert (H4 : ∀ b, b ∈ dict_keys blocks → b ∈ dict_keys kill).
  { intros b Hb. by rewrite Hkk. }
  assert (H5 : ∀ b, b ∈ dict_keys blocks →
                    b ∈ dict_keys (dict_init (dict_keys blocks) (∅ : gset string))).
  { intros b Hb. by apply dict_keys_init_elem. }
  destruct (rd_loop_Ok (dict_keys blocks) preds gen kill H1 H2 H3 H4 blocks _
              eq_refl _ _ r H5 Hr) as [[ins outs] ->].
  unfold main. rewrite HL. simpl. rewrite Hblocks. simpl. rewrite Hcfg. simpl.
  rewrite Hfind. simpl. rewrite Hgk. simpl.
  unfold reaching_definitions_analysis. rewrite Hpreds, Hr. eauto.
Qed.

(** X16: On every non-empty input the run returns its result within two passes
    of the [while changed] loop of the solver: the CFG builder makes no
    back edge, and the pass visits the blocks in their order, so the first
    pass reaches the solution and the second one finds nothing to change. *)
Theorem solver_two_passes (lines : list string) :
  lines ≠ [] → ∃ a, main 2 lines = Some (Ok a).
Proof. apply main_two_passes. Qed.

Lemma solver_two_passes_witness :
  ∃ a, main 2 ["while (x < 3) {"; "x = x + 1;"; "}"; "y = x;"] = Some (Ok a).
Proof. by apply solver_two_passes. Defined.

(** X17: In the result of a run, no definition reaches the entry of the first
    block: [in_sets] has the empty set at B0, whatever the input. *)
Theorem entry_block_in_empty (fuel : nat) (lines : list string) (a : analysis) :
  main fuel lines = Some (Ok a) → dict_get (a_in a) "B0" = Ok ∅.
Proof.
  intros Hmain.
  destruct (decide (lines = [])) as [->|Hne]; [by vm_compute in Hmain|].
  apply main_Ok_inv in Hmain
    as (L & VD & HL & Hblocks & Hcfg & _ & _ & Hrd).
  destruct (find_leaders_Ok lines) as (S0 & Hfind & Hinv).
  destruct (sorted_leaders_shape lines S0 Hne Hinv) as (rest & Hshape & _ & _).
  rewrite Hfind in HL. injection HL as <-.
  rewrite create_basic_blocks_spans in Hblocks. injection Hblocks as Hblocks.
  assert (Hnd : NoDup (dict_keys (a_blocks a))).
  { rewrite <- Hblocks. apply named_blocks_NoDup. }
  assert (H0 : dict_keys (a_blocks a) !! 0 = Some "B0").
  { rewrite <- Hblocks, named_blocks_keys, Hshape. done. }
  unfold reaching_definitions_analysis in Hrd.
  destruct (get_predecessors (a_cfg a)) as [preds|] eqn:Hpreds; [|done].
  destruct (cfg_predecessors_earlier _ _ _ Hnd Hcfg Hpreds) as [Hkp Hearlier].
  destruct (stable_equations preds (a_gen a) (a_kill a) (a_in a) (a_out a) "B0")
    as [_ Hin].
  { eapply rd_loop_stable; [done|]. by eapply list_elem_of_lookup_2. }
  rewrite Hin. f_equal. unfold list_at.
  destruct (dict_get preds "B0") as [ps|] eqn:Hps; [|done].
  destruct ps as [|p ps]; [done|].
  destruct (Hearlier "B0" (p :: ps) p Hps) as (j & i & Hlt & _ & Hi); [by left|].
  pose proof (NoDup_lookup _ _ _ _ Hnd Hi H0). lia.
Qed.

Lemma entry_block_in_empty_witness :
  ∃ a, main 2 ["x = 1;"; "if (x > 0) {"; "x = 2;"; "}"] = Some (Ok a)
       ∧ dict_get (a_in a) "B0" = Ok ∅.
Proof.
  eexists. split; [by vm_compute|].
  apply (entry_block_in_empty 2 ["x = 1;"; "if (x > 0) {"; "x = 2;"; "}"]).
  by vm_compute.
Defined.

(** ** The loader *)








(** ** The sets of a run *)

(** What a run that returns has computed on the way. *)
Lemma main_Ok_sets (fuel : nat) (lines : list string) (a : analysis) :
  main fuel lines = Some (Ok a) →
  NoDup (dict_keys (a_blocks a))
  ∧ dict_keys (a_gen a) = dict_keys (a_blocks a)
  ∧ (∀ d info, dict_get (a_definitions a) d = Ok info →
               block info ∈ dict_keys (a_blocks a))
  ∧ (∀ b g d, dict_get (a_gen a) b = Ok g →
              d ∈ g ↔ ∃ info, dict_get (a_definitions a) d = Ok info
                              ∧ block info = b)
  ∧ bounded (a_gen a) (a_out a)
  ∧ ∃ predecessors,
      ∀ b, b ∈ dict_keys (a_blocks a) →
           stable predecessors (a_gen a) (a_kill a) (a_in a) (a_out a) b.
Proof.
  intros (L & VD & HL & Hblocks & Hcfg & Hfd & Hgk & Hrd)%main_Ok_inv.
  rewrite create_basic_blocks_spans in Hblocks. injection Hblocks as Hblocks.
  assert (Hnd : NoDup (dict_keys (a_blocks a))).
  { rewrite <- Hblocks. apply named_blocks_NoDup. }
  destruct (find_definitions_Ok (a_blocks a)) as (D & VD' & c & Hfind & Hinv).
  rewrite Hfd in Hfind. injection Hfind as <- <-.
  destruct (compute_gen_kill_Ok _ _ _ c Hnd Hinv)
    as (HndD & gen & kill & Hgk' & Hkg & Hkk & Hgen & Hkill).
  rewrite Hgk in Hgk'. injection Hgk' as <- <-.
  destruct Hinv as (_ & _ & Hdef).
  unfold reaching_definitions_analysis in Hrd.
  destruct (get_predecessors (a_cfg a)) as [preds|] eqn:Hpreds; [|done].
  split_and!; try done.
  - intros d info Hd%dict_get_Ok_elem. by destruct (Hdef d info Hd).
  - intros b g d Hg. rewrite (Hgen b g d Hg).
    split; intros (info & Hd & Hb); exists info; (split; [|done]);
      by apply (dict_get_elem (a_definitions a) d info HndD).
  - eapply rd_loop_bounded; [done| |];
      intros b'; rewrite set_at_init; set_solver.
  - exists preds. intros b Hb. by eapply rd_loop_stable.
Qed.

(** X20: In the result of a run, every definition is in the gen set and in the
    out set of its own block, also when a later line of the same block
    assigns the same variable again. *)
Theorem own_definitions_reach_exit (fuel : nat) (lines : list string)
    (a : analysis) (d : string) (info : def_info) :
  main fuel lines = Some (Ok a) →
  dict_get (a_definitions a) d = Ok info →
  d ∈ set_at (a_gen a) (block info) ∧ d ∈ set_at (a_out a) (block info).
Proof.
  intros (Hnd & Hkg & Hdef & Hgen & _ & preds & Hst)%main_Ok_sets Hd.
  pose proof (Hdef d info Hd) as Hb.
  assert (Hg : d ∈ set_at (a_gen a) (block info)).
  { pose proof Hb as Hb'. rewrite <- Hkg in Hb'.
    apply dict_get_is_Ok in Hb' as [g Hg]. unfold set_at. rewrite Hg.
    apply (Hgen _ _ d Hg). by exists info. }
  split; [done|].
  destruct (stable_equations preds _ _ _ _ _ (Hst _ Hb)) as [-> _].
  unfold transfer. set_solver.
Qed.

Lemma own_definitions_reach_exit_witness :
  ∃ a, main 2 ["x = 1;"; "x = 2;"] = Some (Ok a)
       ∧ "d1" ∈ set_at (a_gen a) "B0" ∧ "d1" ∈ set_at (a_out a) "B0".
Proof.
  eexists. split; [by vm_compute|].
  apply (own_definitions_reach_exit 2 ["x = 1;"; "x = 2;"] _ "d1"
           {| var := "x"; block := "B0"; line := "x = 1;" |});
    by vm_compute.
Defined.

(** X21: In the result of a run, the in set and the out set of every block hold
    nothing but ids of the definitions that the run has found. *)
Theorem run_sets_are_definitions (fuel : nat) (lines : list string)
    (a : analysis) (b x : string) :
  main fuel lines = Some (Ok a) →
  b ∈ dict_keys (a_blocks a) →
  x ∈ set_at (a_in a) b ∪ set_at (a_out a) b →
  x ∈ dict_keys (a_definitions a).
Proof.
  intros (Hnd & Hkg & Hdef & Hgen & Hbd & preds & Hst)%main_Ok_sets Hb Hx.
  assert (Hu : x ∈ universe (a_gen a)).
  { apply elem_of_union in Hx as [Hx|Hx]; [|by apply (Hbd b)].
    destruct (stable_equations preds _ _ _ _ _ (Hst _ Hb)) as [_ Hin].
    unfold set_at in Hx. rewrite Hin in Hx.
    apply elem_of_union_list in Hx
      as (X & (p & -> & Hp)%list_elem_of_fmap & Hx).
    by apply (Hbd p). }
  apply elem_of_union_list in Hu as (X & HX & Hx').
  apply list_elem_of_fmap in HX as ([b' X'] & -> & Hin). simpl in Hx'.
  apply dict_get_elem in Hin; [|by rewrite Hkg].
  apply (Hgen _ _ x Hin) in Hx' as (info & Hd%dict_get_Ok_elem & _).
  apply list_elem_of_fmap. by exists (x, info).
Qed.

Lemma run_sets_are_definitions_witness :
  ∃ a, main 2 ["x = 1;"; "if (x > 0) {"; "x = 2;"; "}"; "y = x;"] = Some (Ok a)
       ∧ "d1" ∈ dict_keys (a_definitions a).
Proof.
  eexists. split; [by vm_compute|].
  apply (run_sets_are_definitions 2
           ["x = 1;"; "if (x > 0) {"; "x = 2;"; "}"; "y = x;"] _ "B1" "d1");
    [by vm_compute| |]; apply (bool_decide_unpack _); by vm_compute.
Defined.

(** ** The out sets from pass to pass *)





(** ** When the gen/kill computer raises *)

Lemma compute_gen_kill_total (blocks : dict block_info)
    (definitions : dict def_info) (var_to_defs : dict (gset string)) :
  (∀ d info, (d, info) ∈ definitions →
             block info ∈ dict_keys blocks
             ∧ var info ∈ dict_keys var_to_defs) →
  ∃ gk, compute_gen_kill blocks definitions var_to_defs = Ok gk.
Proof.
  intros Hall. unfold compute_gen_kill.
  destruct (foldM_total
              (λ gk : dict (gset string) * dict (gset string),
                 (∀ b, b ∈ dict_keys blocks → b ∈ dict_keys gk.1)
                 ∧ (∀ b, b ∈ dict_keys blocks → b ∈ dict_keys gk.2))
              (gen_kill_step blocks var_to_defs)
              (dict_init (dict_keys blocks) ∅, dict_init (dict_keys blocks) ∅)
              definitions) as (gk & Hgk & _); [| |eauto].
  { split; intros b Hb; by apply dict_keys_init_elem. }
  intros [gen kill] [d info] Hin [Hg Hk]. simpl in Hg, Hk.
  destruct (Hall d info Hin) as [Hb Hv]. unfold gen_kill_step.
  apply Hg, dict_get_is_Ok in Hb as [g ->]. cbn [mbind result_bind].
  apply dict_get_is_Ok in Hv as [vs ->]. cbn [mbind result_bind].
  destruct (foldM_total
              (λ kill : dict (gset string),
                 ∀ b, b ∈ dict_keys blocks → b ∈ dict_keys kill)
              (kill_step (dict_set gen (block info) (g ∪ {[d]})) d (vs ∖ {[d]}))
              kill (dict_keys blocks)) as (kill' & -> & Hk'); [done| |].
  { intros kl b Hb Hkl. unfold kill_step.
    assert (Hbg : b ∈ dict_keys (dict_set gen (block info) (g ∪ {[d]})))
      by by apply dict_keys_set_mono, Hg.
    apply dict_get_is_Ok in Hbg as [gb ->]. cbn [mbind result_bind].
    case_bool_decide; [|eauto].
    pose proof (Hkl b Hb) as Hbk. apply dict_get_is_Ok in Hbk as [kb ->].
    cbn [mbind result_bind]. eexists. split; [done|].
    intros b' Hb'. by apply dict_keys_set_mono, Hkl. }
  cbn [mbind result_bind]. eexists. split; [done|]. simpl.
  split; [|done]. intros b Hb. by apply dict_keys_set_mono, Hg.
Qed.

(** X23: The gen/kill computer returns exactly when every definition names a
    block of [blocks] and a variable that has an entry in [var_to_defs];
    otherwise it raises [KeyError]. *)
Theorem compute_gen_kill_raises (blocks : dict block_info)
    (definitions : dict def_info) (var_to_defs : dict (gset string)) :
  match compute_gen_kill blocks definitions var_to_defs with
  | Ok _ => ∀ d info, (d, info) ∈ definitions →
                      block info ∈ dict_keys blocks
                      ∧ var info ∈ dict_keys var_to_defs
  | Raise e => e = KeyError
               ∧ ∃ d info, (d, info) ∈ definitions
                           ∧ (block info ∉ dict_keys blocks
                              ∨ var info ∉ dict_keys var_to_defs)
  end.
Proof.
  destruct (compute_gen_kill blocks definitions var_to_defs)
    as [gk|e] eqn:Hgk.
  - unfold compute_gen_kill in Hgk.
    apply (foldM_Ok_steps
             (λ gk : dict (gset string) * dict (gset string),
                ∀ b, b ∈ dict_keys gk.1 → b ∈ dict_keys blocks)
             (λ di : string * def_info,
                block di.2 ∈ dict_keys blocks
                ∧ var di.2 ∈ dict_keys var_to_defs)) in Hgk as [_ Hall].
    + intros d info Hin. rewrite Forall_forall in Hall.
      by apply (Hall (d, info)).
    + intros [gen kill] [d info] [gen1 kill1] _ Hg Hstep. simpl in Hg.
      unfold gen_kill_step in Hstep.
      apply bind_Ok in Hstep as (g & Hgb & Hstep).
      apply bind_Ok in Hstep as (vs & Hvs & Hstep).
      apply bind_Ok in Hstep as (kill' & _ & [= <- <-]).
      assert (Hb : block info ∈ dict_keys gen) by (apply dict_get_is_Ok; eauto).
      simpl. split; [by rewrite dict_keys_set|].
      split; [by apply Hg|]. apply dict_get_is_Ok. eauto.
    + simpl. intros b Hb. by apply dict_keys_init_elem in Hb.
  - assert (He : e = KeyError).
    { unfold compute_gen_kill in Hgk.
      apply foldM_Raise in Hgk as ([gen kill] & [d info] & _ & Hr).
      unfold gen_kill_step in Hr.
      destruct (dict_get gen (block info)) as [g|e'] eqn:Hg;
        [|injection Hr as <-; by apply dict_get_Raise in Hg as [-> _]].
      cbn [mbind result_bind] in Hr.
      destruct (dict_get var_to_defs (var info)) as [vs|e'] eqn:Hvs;
        [|injection Hr as <-; by apply dict_get_Raise in Hvs as [-> _]].
      cbn [mbind result_bind] in Hr.
      destruct (foldM _ kill (dict_keys blocks)) as [kill'|e'] eqn:Hk; [done|].
      injection Hr as <-.
      apply foldM_Raise in Hk as (kl & b & _ & Hr). unfold kill_step in Hr.
      destruct (dict_get (dict_set gen (block info) (g ∪ {[d]})) b)
        as [gb|e''] eqn:Hgb;
        [|injection Hr as <-; by apply dict_get_Raise in Hgb as [-> _]].
      cbn [mbind result_bind] in Hr. case_bool_decide; [|done].
      destruct (dict_get kl b) as [kb|e''] eqn:Hkb; [done|].
      injection Hr as <-. by apply dict_get_Raise in Hkb as [-> _]. }
    split; [done|].
    destruct (decide (Forall (λ di : string * def_info,
                                block di.2 ∈ dict_keys blocks
                                ∧ var di.2 ∈ dict_keys var_to_defs)
                             definitions)) as [Hall|Hnot].
    + destruct (compute_gen_kill_total blocks definitions var_to_defs)
        as [gk Hok]; [|congruence].
      intros d info Hin. rewrite Forall_forall in Hall.
      by apply (Hall (d, info)).
    + apply not_Forall_Exists in Hnot; [|apply _].
      apply Exists_exists in Hnot as ([d info] & Hin & Hnot). simpl in Hnot.
      exists d, info. split; [done|].
      destruct (decide (block info ∈ dict_keys blocks)); [|by left].
      right. intros Hv. by apply Hnot.
Qed.
